(** * Text segmentation for speech synthesis: a shallow embedding of
      [app/core/text_processing.py] and the properties of its splitters.

    Python values are modelled as follows.
    - A [str] is the list of its Unicode code points ([len] counts code
      points, as Python does); indices and lengths are Python ints, i.e. [Z].
    - Slices follow Python's rules for negative and out-of-range bounds.
    - [Config] (module [app.config]) is an explicit record threaded through
      every function that reads it.
    - A function that can raise or loop forever returns [option]; the
      estimator, whose errors differ in kind, returns the exception raised.
    - A [float] is an IEEE 754 binary64 value ([spec_float]). *)

From Stdlib Require Import String Ascii DecimalString ZArith QArith Qround Bool Lia List
  Sorted SpecFloat.
Import ListNotations.
Local Open Scope Z_scope.

(** ** Python strings *)

Definition char := N.
Definition str := list char.

Definition len {A} (s : list A) : Z := Z.of_nat (length s).

(** ASCII literals. *)
Definition lit (x : string) : str := map N_of_ascii (list_ascii_of_string x).

Definition NL : char := 10%N.
Definition SPACE : char := 32%N.
Definition EM_DASH : char := 8212%N.

(** [str.isspace] on one code point; the same predicate drives [str.strip],
    [str.split()] and the regex class [\s] on str patterns. *)
Definition isspace (c : char) : bool :=
  (((9 <=? c) && (c <=? 13)) || ((28 <=? c) && (c <=? 32))
   || (c =? 133) || (c =? 160) || (c =? 5760)
   || ((8192 <=? c) && (c <=? 8202))
   || (c =? 8232) || (c =? 8233) || (c =? 8239) || (c =? 8287)
   || (c =? 12288))%N.

Fixpoint lstrip (s : str) : str :=
  match s with
  | [] => []
  | c :: s' => if isspace c then lstrip s' else s
  end.

Definition rstrip (s : str) : str := rev (lstrip (rev s)).

Definition strip (s : str) : str := rstrip (lstrip s).

(** Truthiness of a str: non-empty. *)
Definition truthy {A} (s : list A) : bool :=
  match s with [] => false | _ => true end.

(** [s[i]] index normalisation of slices: negative counts from the end,
    everything is clamped to [0, len s]. *)
Definition norm_index (n i : Z) : Z :=
  if i <? 0 then Z.max 0 (n + i) else Z.min i n.

(** [s[:i]] *)
Definition slice_to {A} (s : list A) (i : Z) : list A :=
  firstn (Z.to_nat (norm_index (len s) i)) s.

(** [s[i:]] *)
Definition slice_from {A} (s : list A) (i : Z) : list A :=
  skipn (Z.to_nat (norm_index (len s) i)) s.

(** [s[i:j]] *)
Definition slice {A} (s : list A) (i j : Z) : list A :=
  let a := norm_index (len s) i in
  let b := norm_index (len s) j in
  firstn (Z.to_nat (b - a)) (skipn (Z.to_nat a) s).

Fixpoint prefixb (p s : str) : bool :=
  match p, s with
  | [], _ => true
  | _ :: _, [] => false
  | a :: p', b :: s' => (a =? b)%N && prefixb p' s'
  end.

(** First occurrence of [sub] in [s], reported relative to offset [i]. *)
Fixpoint find_from (sub s : str) (i : Z) : Z :=
  match s with
  | [] => if prefixb sub [] then i else -1
  | _ :: s' => if prefixb sub s then i else find_from sub s' (i + 1)
  end.

(** [s.find(sub, start)] *)
Definition find (s sub : str) (start : Z) : Z :=
  if len s <? start then -1
  else let a := norm_index (len s) start in
       find_from sub (skipn (Z.to_nat a) s) a.

(** Last occurrence of [sub] that ends at or before [stop]. *)
Fixpoint rfind_from (sub s : str) (i stop best : Z) : Z :=
  let here := if prefixb sub s && (i + len sub <=? stop) then i else best in
  match s with
  | [] => here
  | _ :: s' => rfind_from sub s' (i + 1) stop here
  end.

(** [s.rfind(sub, start, stop)] *)
Definition rfind (s sub : str) (start stop : Z) : Z :=
  let a := norm_index (len s) start in
  let b := norm_index (len s) stop in
  rfind_from sub (skipn (Z.to_nat a) s) a b (-1).

(** [sep.join(parts)] *)
Fixpoint join {A} (sep : list A) (parts : list (list A)) : list A :=
  match parts with
  | [] => []
  | [p] => p
  | p :: rest => p ++ sep ++ join sep rest
  end.

(** [s.split()]: the maximal runs of non-whitespace. *)
Fixpoint split_ws_aux (s : str) (cur : str) : list str :=
  match s with
  | [] => if truthy cur then [rev cur] else []
  | c :: s' =>
      if isspace c
      then (if truthy cur then rev cur :: split_ws_aux s' [] else split_ws_aux s' [])
      else split_ws_aux s' (c :: cur)
  end.

Definition split_ws (s : str) : list str := split_ws_aux s [].

(** [range(start, stop, step)]; a zero step raises ValueError. *)
Definition py_range (start stop step : Z) : option (list Z) :=
  if step =? 0 then None
  else
    let count :=
      if 0 <? step then (stop - start + step - 1) / step
      else (start - stop - step - 1) / (- step) in
    Some (map (fun k => start + step * Z.of_nat k) (seq 0 (Z.to_nat count))).

(** ** The regex [\n\s*\n] *)

(** Within the leading whitespace run of [s], the offset just past its last
    newline (the greedy [\s*] backtracks to it). *)
Fixpoint ws_run_last_nl (s : str) : option nat :=
  match s with
  | [] => None
  | c :: s' =>
      if isspace c then
        match ws_run_last_nl s' with
        | Some n => Some (S n)
        | None => if (c =? NL)%N then Some 1%nat else None
        end
      else None
  end.

(** Length of the match of [\n\s*\n] anchored at the head of [s]. *)
Definition para_match (s : str) : option nat :=
  match s with
  | [] => None
  | c :: s' =>
      if (c =? NL)%N then
        match ws_run_last_nl s' with
        | Some n => Some (S n)
        | None => None
        end
      else None
  end.

(** [m.end()] for [m] in [re.finditer(r'\n\s*\n', s)], leftmost and
    non-overlapping; [i] is the index of the head of [s], [skip] the number
    of characters still inside the current match. *)
Fixpoint para_ends_aux (s : str) (i : Z) (skip : nat) : list Z :=
  match s with
  | [] => []
  | _ :: s' =>
      match skip with
      | S k => para_ends_aux s' (i + 1) k
      | O =>
          match para_match s with
          | Some n => (i + Z.of_nat n) :: para_ends_aux s' (i + 1) (n - 1)
          | None => para_ends_aux s' (i + 1) 0
          end
      end
  end.

Definition para_ends (s : str) : list Z := para_ends_aux s 0 0.

(** [re.split(r'\n\s*\n', s)] *)
Fixpoint para_split_aux (s : str) (skip : nat) (cur : str) : list str :=
  match s with
  | [] => [rev cur]
  | c :: s' =>
      match skip with
      | S k => para_split_aux s' k cur
      | O =>
          match para_match s with
          | Some n => rev cur :: para_split_aux s' (n - 1) []
          | None => para_split_aux s' 0 (c :: cur)
          end
      end
  end.

Definition para_split (s : str) : list str := para_split_aux s 0 [].

(** ** Configuration *)

Record Config := {
  MAX_CHUNK_LENGTH : Z;
  LONG_TEXT_CHUNK_SIZE : Z;
  LONG_TEXT_CHUNKING_STRATEGY : option str;
  MAX_TOTAL_LENGTH : Z;
  get_long_text_min_length : Z;
  get_long_text_max_length : Z
}.

(** ** The boundary finder *)

(** The tail of a split: [text[max(0, best_split - overlap_chars):].strip()]. *)
Definition split_pair (text : str) (best_split overlap_chars : Z) : str * str :=
  (strip (slice_to text best_split),
   strip (slice_from text (Z.max 0 (best_split - overlap_chars)))).

(** The loop over the matches of the paragraph tier: keep the last end that
    is within the limit, stop at the first one beyond it. *)
Fixpoint para_best (ends : list Z) (max_length : Z) (best_split : option Z) : option Z :=
  match ends with
  | [] => best_split
  | split_pos :: rest =>
      if split_pos <=? max_length then para_best rest max_length (Some split_pos)
      else best_split
  end.

(** [best_split and best_split > max_length * num / den]; the source compares
    against the float products [max_length * 0.5], [* 0.4], [* 0.3], which
    for lengths below 2^50 order against an integer exactly as the rational
    products do. *)
Definition admissible (best_split : option Z) (max_length num den : Z) : option Z :=
  match best_split with
  | Some b => if (b =? 0) then None
              else if num * max_length <? den * b then Some b else None
  | None => None
  end.

Definition _try_split_at_paragraphs (text : str) (max_length overlap_chars : Z)
  : option (str * str) :=
  let matches := para_ends text in
  if negb (truthy matches) then None
  else
    match admissible (para_best matches max_length None) max_length 1 2 with
    | Some best_split => Some (split_pair text best_split overlap_chars)
    | None => None
    end.

(** The inner [while pos < len(text)] loop for one delimiter.  [gas] only
    makes the recursion structural: [pos] grows by at least one per
    iteration, so [length text] iterations exhaust the loop condition. *)
Fixpoint scan_delimiter (gas : nat) (text delimiter : str) (max_length pos : Z)
    (best_split : option Z) : option Z :=
  match gas with
  | O => best_split
  | S gas' =>
      if pos <? len text then
        let found := find text delimiter pos in
        if found =? -1 then best_split
        else
          let split_pos := found + len delimiter in
          if split_pos <=? max_length
          then scan_delimiter gas' text delimiter max_length (found + 1) (Some split_pos)
          else best_split
      else best_split
  end.

(** The outer [for delimiter in ...] loop; [best_split] is carried over from
    one delimiter to the next and overwritten by every hit. *)
Definition scan_delimiters (delimiters : list str) (text : str) (max_length : Z)
  : option Z :=
  fold_left
    (fun best_split delimiter =>
       scan_delimiter (length text) text delimiter max_length 0 best_split)
    delimiters None.

Definition sentence_endings : list str :=
  [ lit ". "; lit "! "; lit "? ";
    [46; NL]%N; [33; NL]%N; [63; NL]%N;
    [46; 34]%N; [33; 34]%N; [63; 34]%N;
    [46; 39]%N; [33; 39]%N; [63; 39]%N ].

Definition clause_delimiters : list str :=
  [ lit ", "; lit "; "; lit ": "; lit " - "; [SPACE; EM_DASH; SPACE];
    lit " and "; lit " or "; lit " but "; lit " while "; lit " when " ].

Definition _try_split_at_sentences (text : str) (max_length overlap_chars : Z)
  : option (str * str) :=
  match admissible (scan_delimiters sentence_endings text max_length) max_length 2 5 with
  | Some best_split => Some (split_pair text best_split overlap_chars)
  | None => None
  end.

Definition _try_split_at_clauses (text : str) (max_length overlap_chars : Z)
  : option (str * str) :=
  match admissible (scan_delimiters clause_delimiters text max_length) max_length 3 10 with
  | Some best_split => Some (split_pair text best_split overlap_chars)
  | None => None
  end.

Definition _split_at_words (text : str) (max_length overlap_chars : Z) : str * str :=
  if len text <=? max_length then (text, [])
  else
    let split_pos := rfind text [SPACE] 0 max_length in
    let split_pos := if split_pos =? -1 then max_length else split_pos in
    split_pair text split_pos overlap_chars.

Definition _find_best_split_point (text : str) (max_length overlap_chars : Z)
  : str * str :=
  if len text <=? max_length then (text, [])
  else
    match _try_split_at_paragraphs text max_length overlap_chars with
    | Some r => r
    | None =>
        match _try_split_at_sentences text max_length overlap_chars with
        | Some r => r
        | None =>
            match _try_split_at_clauses text max_length overlap_chars with
            | Some r => r
            | None => _split_at_words text max_length overlap_chars
            end
        end
    end.

(** ** The hierarchical strategy *)

(** One pass of the [while remaining_text] loop body: either the loop ends
    with a last chunk, or it emits a chunk and goes on with the rest. *)
Definition hierarchical_step (remaining_text : str) (max_length : Z) : str * option str :=
  if len remaining_text <=? max_length then (remaining_text, None)
  else
    let '(chunk_text, remaining) := _find_best_split_point remaining_text max_length 0 in
    if negb (truthy chunk_text)
    then (strip (slice_to remaining_text max_length),
          Some (strip (slice_from remaining_text max_length)))
    else (chunk_text, Some remaining).

(** The loop itself; [None] when [fuel] iterations do not reach the end. *)
Fixpoint hierarchical_loop (fuel : nat) (remaining_text : str) (max_length : Z)
    (chunks : list str) : option (list str) :=
  if negb (truthy remaining_text) then Some chunks
  else
    match fuel with
    | O => None
    | S fuel' =>
        match hierarchical_step remaining_text max_length with
        | (chunk_text, None) => Some (chunks ++ [chunk_text])
        | (chunk_text, Some remaining) =>
            hierarchical_loop fuel' remaining max_length (chunks ++ [chunk_text])
        end
    end.

Definition _chunk_hierarchical_fuel (fuel : nat) (text : str) (max_length : Z)
  : option (list str) :=
  option_map (filter truthy) (hierarchical_loop fuel (strip text) max_length []).

(** Each iteration shortens the remaining text when [max_length >= 1], so
    [length text] iterations are enough there; for [max_length <= 0] the
    source loop does not end on non-blank text and the result is [None]. *)
Definition _chunk_hierarchical (text : str) (max_length : Z) : option (list str) :=
  _chunk_hierarchical_fuel (length text) text max_length.

(** ** Sequencing of fallible steps *)

Definition bind {A B} (o : option A) (f : A -> option B) : option B :=
  match o with
  | Some a => f a
  | None => None
  end.

Notation "x <- c ;; k" := (bind c (fun x => k))
  (at level 61, c at next level, right associativity).

(** ** The word strategy of [chunk_text] *)

(** Loop state of [_chunk_by_words]: [(chunks, current_words, current_length)]. *)
Definition words_state : Type := list str * list str * Z.

Definition flush_words (chunks : list str) (current_words : list str) : list str :=
  let chunk := strip (join [SPACE] current_words) in
  if truthy chunk then chunks ++ [chunk] else chunks.

Definition words_step (max_length : Z) (st : words_state) (word : str) : words_state :=
  let '(chunks, current_words, current_length) := st in
  let additional_length :=
    if negb (truthy current_words) then len word else len word + 1 in
  if truthy current_words && (max_length <? current_length + additional_length)
  then (flush_words chunks current_words, [word], len word)
  else (chunks, current_words ++ [word], current_length + additional_length).

(** The closing loop that re-splits every chunk still over the limit. *)
Fixpoint refine_chunks (chunks : list str) (max_length : Z) (refined_chunks : list str)
  : option (list str) :=
  match chunks with
  | [] => Some refined_chunks
  | chunk :: rest =>
      if max_length <? len chunk then
        sub <- _chunk_hierarchical chunk max_length ;;
        refine_chunks rest max_length (refined_chunks ++ sub)
      else refine_chunks rest max_length (refined_chunks ++ [chunk])
  end.

Definition _chunk_by_words (text : str) (max_length : Z) : option (list str) :=
  let words := split_ws text in
  if negb (truthy words) then Some []
  else
    let '(chunks, current_words, _) :=
      fold_left (words_step max_length) words ([], [], 0) in
    let chunks :=
      if truthy current_words then flush_words chunks current_words else chunks in
    refine_chunks chunks max_length [].

(** ** The paragraph strategy of [chunk_text] *)

Definition PARA_BREAK : str := [NL; NL].

(** Loop state of [_chunk_by_paragraphs]: [(chunks, current)]. *)
Fixpoint paragraphs_loop (paragraphs : list str) (max_length : Z)
    (chunks : list str) (current : option str) : option (list str * option str) :=
  match paragraphs with
  | [] => Some (chunks, current)
  | paragraph :: rest =>
      match current with
      | None => paragraphs_loop rest max_length chunks (Some paragraph)
      | Some cur =>
          let candidate := cur ++ PARA_BREAK ++ paragraph in
          if len candidate <=? max_length
          then paragraphs_loop rest max_length chunks (Some candidate)
          else
            sub <- _chunk_hierarchical cur max_length ;;
            paragraphs_loop rest max_length (chunks ++ sub) (Some paragraph)
      end
  end.

Definition _chunk_by_paragraphs (text : str) (max_length : Z) : option (list str) :=
  let paragraphs :=
    map strip (filter (fun segment => truthy (strip segment)) (para_split text)) in
  if negb (truthy paragraphs) then _chunk_hierarchical text max_length
  else
    st <- paragraphs_loop paragraphs max_length [] None ;;
    let '(chunks, current) := st in
    match current with
    | Some cur =>
        if truthy cur
        then sub <- _chunk_hierarchical cur max_length ;; Some (chunks ++ sub)
        else Some chunks
    | None => Some chunks
    end.

(** ** [chunk_text] *)

(** [str.lower] as far as the dispatch below can observe it: the ASCII
    capitals are folded.  No str with a code point outside ASCII lower-cases
    to "fixed", "paragraph" or "word", so leaving those code points alone
    decides the three comparisons exactly as Python does. *)
Definition lower_char (c : char) : char :=
  if ((65 <=? c) && (c <=? 90))%N then (c + 32)%N else c.

Definition lower (s : str) : str := map lower_char s.

Fixpoint str_eqb (a b : str) : bool :=
  match a, b with
  | [], [] => true
  | x :: a', y :: b' => (x =? y)%N && str_eqb a' b'
  | _, _ => false
  end.

(** [x or default] on an optional str: [None] and the empty str are falsy. *)
Definition str_or (x : option str) (default : str) : str :=
  match x with
  | Some s => if truthy s then s else default
  | None => default
  end.

(** [x or default] on an optional int: [None] and [0] are falsy. *)
Definition int_or (x : option Z) (default : Z) : Z :=
  match x with
  | Some n => if n =? 0 then default else n
  | None => default
  end.

(** The first lines of [chunk_text]: the caller's limit after defaulting. *)
Definition resolved_max (cfg : Config) (max_length : option Z) : Z :=
  match max_length with
  | Some m => if m <=? 0 then LONG_TEXT_CHUNK_SIZE cfg else m
  | None => LONG_TEXT_CHUNK_SIZE cfg
  end.

(** ... and the limit every strategy is run with. *)
Definition effective_max_of (cfg : Config) (max_length : Z) : Z :=
  let effective_max := Z.min max_length (MAX_TOTAL_LENGTH cfg - 100) in
  if effective_max <=? 0 then max_length else effective_max.

(** The windows [cleaned[i : i + effective_max]] of the fixed strategy. *)
Definition fixed_windows (cleaned : str) (effective_max : Z) : option (list str) :=
  idx <- py_range 0 (len cleaned) effective_max ;;
  Some (map (fun i => slice cleaned i (i + effective_max)) idx).

Definition chunk_text (cfg : Config) (text : str) (strategy : option str)
    (max_length : option Z) : option (list str) :=
  let max_length := resolved_max cfg max_length in
  let effective_max := effective_max_of cfg max_length in
  let cleaned := strip text in
  if negb (truthy cleaned) then Some []
  else
    let normalized_strategy := lower (str_or strategy (lit "sentence")) in
    if str_eqb normalized_strategy (lit "fixed") then
      windows <- fixed_windows cleaned effective_max ;;
      Some (map strip (filter (fun chunk => truthy (strip chunk)) windows))
    else if str_eqb normalized_strategy (lit "paragraph") then
      _chunk_by_paragraphs cleaned effective_max
    else if str_eqb normalized_strategy (lit "word") then
      _chunk_by_words cleaned effective_max
    else _chunk_hierarchical cleaned effective_max.

(** ** [split_text_for_long_generation] *)

(** The record built per chunk ([app.models.long_text.LongTextChunk]); the
    fields are those the constructor call names. *)
Record LongTextChunk := {
  index : Z;
  text : str;
  text_preview : str;
  character_count : Z
}.

(** [enumerate(xs)] from index [i]. *)
Fixpoint enumerate_from {A} (i : Z) (xs : list A) : list (Z * A) :=
  match xs with
  | [] => []
  | x :: rest => (i, x) :: enumerate_from (i + 1) rest
  end.

Definition make_long_text_chunk (entry : Z * str) : LongTextChunk :=
  let '(index, chunk_body) := entry in
  let preview :=
    slice_to chunk_body 50 ++ (if 50 <? len chunk_body then lit "..." else []) in
  {| index := index;
     text := chunk_body;
     text_preview := preview;
     character_count := len chunk_body |}.

Definition split_text_for_long_generation (cfg : Config) (text : str)
    (max_chunk_size : option Z) (strategy : option str) : option (list LongTextChunk) :=
  let max_chunk_size := resolved_max cfg max_chunk_size in
  let resolved_strategy :=
    match strategy with
    | Some s => if truthy s then Some s else LONG_TEXT_CHUNKING_STRATEGY cfg
    | None => LONG_TEXT_CHUNKING_STRATEGY cfg
    end in
  chunk_strings <- chunk_text cfg text resolved_strategy (Some max_chunk_size) ;;
  Some (map make_long_text_chunk (enumerate_from 0 chunk_strings)).

(** ** The streaming splitter *)

(** [s.split(sep)] for a non-empty separator: leftmost, non-overlapping. *)
Fixpoint split_on_aux (sep s : str) (skip : nat) (cur : str) : list str :=
  match s with
  | [] => [rev cur]
  | c :: s' =>
      match skip with
      | S k => split_on_aux sep s' k cur
      | O =>
          if prefixb sep s
          then rev cur :: split_on_aux sep s' (length sep - 1) []
          else split_on_aux sep s' 0 (c :: cur)
      end
  end.

Definition split_on (s sep : str) : list str := split_on_aux sep s 0 [].

Definition is_terminator (c : option char) : bool :=
  match c with
  | Some c => ((c =? 46) || (c =? 33) || (c =? 63))%N
  | None => false
  end.

(** [re.split(r'(?<=[.!?])\s+', s)]: a match starts at a whitespace
    character that follows '.', '!' or '?' and takes the whole run. *)
Fixpoint sentence_split_aux (s : str) (prev : option char) (in_match : bool)
    (cur : str) : list str :=
  match s with
  | [] => [rev cur]
  | c :: s' =>
      if isspace c then
        if in_match then sentence_split_aux s' (Some c) true cur
        else if is_terminator prev
             then rev cur :: sentence_split_aux s' (Some c) true []
             else sentence_split_aux s' (Some c) false (c :: cur)
      else sentence_split_aux s' (Some c) false (c :: cur)
  end.

Definition sentence_split (s : str) : list str := sentence_split_aux s None false [].

Definition _split_by_fixed_size (text : str) (chunk_size : Z) : option (list str) :=
  idx <- py_range 0 (len text) chunk_size ;;
  Some (filter truthy (map (fun i => strip (slice text i (i + chunk_size))) idx)).

(** Loop state of the greedy packers: [(chunks, current_chunk)]. *)
Definition pack_state : Type := list str * str.

Definition flush (st : pack_state) : list str :=
  let '(chunks, current_chunk) := st in
  if truthy current_chunk then chunks ++ [strip current_chunk] else chunks.

Definition final_filter (chunks : list str) : list str :=
  filter (fun chunk => truthy (strip chunk)) chunks.

Definition split_words_step (max_length : Z) (st : option pack_state) (word : str)
  : option pack_state :=
  st <- st ;;
  let '(chunks, current_chunk) := st in
  if len current_chunk + len word + 1 <=? max_length then
    Some (chunks,
          if truthy current_chunk then current_chunk ++ [SPACE] ++ word else word)
  else
    let chunks := flush (chunks, current_chunk) in
    if max_length <? len word then
      idx <- py_range 0 (len word) max_length ;;
      Some (chunks ++ map (fun i => slice word i (i + max_length)) idx, [])
    else Some (chunks, word).

Definition _split_by_words (text : str) (max_length : Z) : option (list str) :=
  st <- fold_left (split_words_step max_length) (split_ws text) (Some ([], [])) ;;
  Some (final_filter (flush st)).

(** One delimiter applied to one over-long chunk of [_split_long_sentence]:
    the inner [for part in parts] loop with its closing flush. *)
Definition parts_step (delimiter : str) (max_length : Z) (st : pack_state) (part : str)
  : pack_state :=
  let '(new_chunks, current_part) := st in
  if len current_part + len delimiter + len part <=? max_length then
    (new_chunks,
     current_part ++ (if truthy current_part then delimiter else []) ++ part)
  else
    ((if truthy current_part then new_chunks ++ [current_part] else new_chunks), part).

Definition resplit (delimiter : str) (max_length : Z) (new_chunks : list str)
    (chunk : str) : list str :=
  if len chunk <=? max_length then new_chunks ++ [chunk]
  else
    let '(new_chunks, current_part) :=
      fold_left (parts_step delimiter max_length) (split_on chunk delimiter)
                (new_chunks, []) in
    if truthy current_part then new_chunks ++ [current_part] else new_chunks.

Definition long_sentence_delimiters : list str :=
  [ lit ", "; lit "; "; lit " - "; [SPACE; EM_DASH; SPACE]; lit ": ";
    lit " and "; lit " or "; lit " but " ].

Fixpoint words_fallback (chunks : list str) (max_length : Z) (final_chunks : list str)
  : option (list str) :=
  match chunks with
  | [] => Some final_chunks
  | chunk :: rest =>
      if len chunk <=? max_length
      then words_fallback rest max_length (final_chunks ++ [chunk])
      else
        word_chunks <- _split_by_words chunk max_length ;;
        words_fallback rest max_length (final_chunks ++ word_chunks)
  end.

Definition _split_long_sentence (sentence : str) (max_length : Z) : option (list str) :=
  let chunks :=
    fold_left
      (fun chunks delimiter => fold_left (resplit delimiter max_length) chunks [])
      long_sentence_delimiters [sentence] in
  final_chunks <- words_fallback chunks max_length [] ;;
  Some (map strip (final_filter final_chunks)).

Definition sentences_step (max_length : Z) (st : option pack_state) (sentence : str)
  : option pack_state :=
  st <- st ;;
  let '(chunks, current_chunk) := st in
  let sentence := strip sentence in
  if negb (truthy sentence) then Some (chunks, current_chunk)
  else if len current_chunk + len sentence + 1 <=? max_length then
    Some (chunks,
          if truthy current_chunk then current_chunk ++ [SPACE] ++ sentence
          else sentence)
  else
    let chunks := flush (chunks, current_chunk) in
    if max_length <? len sentence then
      sub_chunks <- _split_long_sentence sentence max_length ;;
      Some (chunks ++ sub_chunks, [])
    else Some (chunks, sentence).

Definition _split_by_sentences (text : str) (max_length : Z) : option (list str) :=
  st <- fold_left (sentences_step max_length) (sentence_split (strip text))
                  (Some ([], [])) ;;
  Some (final_filter (flush st)).

Definition paragraphs_step (max_length : Z) (st : option pack_state) (paragraph : str)
  : option pack_state :=
  st <- st ;;
  let '(chunks, current_chunk) := st in
  let paragraph := strip paragraph in
  if negb (truthy paragraph) then Some (chunks, current_chunk)
  else if len current_chunk + len paragraph + 2 <=? max_length then
    Some (chunks,
          if truthy current_chunk then current_chunk ++ PARA_BREAK ++ paragraph
          else paragraph)
  else
    let chunks := flush (chunks, current_chunk) in
    if max_length <? len paragraph then
      sentence_chunks <- _split_by_sentences paragraph max_length ;;
      Some (chunks ++ sentence_chunks, [])
    else Some (chunks, paragraph).

Definition _split_by_paragraphs (text : str) (max_length : Z) : option (list str) :=
  st <- fold_left (paragraphs_step max_length) (para_split (strip text))
                  (Some ([], [])) ;;
  Some (final_filter (flush st)).

(** The quality presets: each fills in only what the caller left unset. *)
Definition apply_quality (chunk_size : option Z) (strategy quality : option str)
  : option Z * option str :=
  let q := str_or quality [] in
  if negb (truthy q) then (chunk_size, strategy)
  else if str_eqb q (lit "fast")
       then (Some (int_or chunk_size 100), Some (str_or strategy (lit "word")))
  else if str_eqb q (lit "balanced")
       then (Some (int_or chunk_size 200), Some (str_or strategy (lit "sentence")))
  else if str_eqb q (lit "high")
       then (Some (int_or chunk_size 300), Some (str_or strategy (lit "paragraph")))
  else (chunk_size, strategy).

Definition split_text_for_streaming (text : str) (chunk_size : option Z)
    (strategy quality : option str) : option (list str) :=
  let '(chunk_size, strategy) := apply_quality chunk_size strategy quality in
  let chunk_size := int_or chunk_size 200 in
  let strategy := str_or strategy (lit "sentence") in
  if str_eqb strategy (lit "paragraph") then _split_by_paragraphs text chunk_size
  else if str_eqb strategy (lit "sentence") then _split_by_sentences text chunk_size
  else if str_eqb strategy (lit "word") then _split_by_words text chunk_size
  else if str_eqb strategy (lit "fixed") then _split_by_fixed_size text chunk_size
  else _split_by_sentences text chunk_size.

(** ** [estimate_processing_time] *)

(** Python floats are IEEE 754 binary64 values.  They are taken as the
    standard library's [spec_float], whose operations round to nearest,
    ties to even, at precision 53 with maximal exponent 1024. *)
Definition float : Type := spec_float.
Definition prec : Z := 53.
Definition emax : Z := 1024.

(** The exceptions the arithmetic of the estimator can raise. *)
Inductive exn := ZeroDivisionError | OverflowError | ValueError.

(** The conversion of an int operand in a mixed int/float operation:
    correctly rounded; an int too large for a float raises OverflowError. *)
Definition float_of_int (n : Z) : exn + float :=
  match binary_normalize prec emax n 0 false with
  | S754_infinity _ => inl OverflowError
  | x => inr x
  end.

(** [a / b] on floats: a zero divisor, of either sign, raises. *)
Definition float_div (a b : float) : exn + float :=
  match b with
  | S754_zero _ => inl ZeroDivisionError
  | _ => inr (SFdiv prec emax a b)
  end.

Definition float_add (a b : float) : float := SFadd prec emax a b.

(** [int(x)] on a float: truncation towards zero; an infinity raises
    OverflowError and a NaN raises ValueError. *)
Definition int_of_float (x : float) : exn + Z :=
  match x with
  | S754_zero _ => inr 0
  | S754_infinity _ => inl OverflowError
  | S754_nan => inl ValueError
  | S754_finite s m e =>
      let magnitude := Z.shiftl (Zpos m) e in
      inr (if s then - magnitude else magnitude)
  end.

(** The rate is a float, as annotated (an int rate such as [25] gives, for
    lengths and rates below 2^53, the quotient of the float it equals).
    The statements run in the order of the source: the division first, then
    the chunk count (whose floor division raises on a zero chunk size), then
    the float sum and its truncation. *)
Definition estimate_processing_time (cfg : Config) (text_length : Z)
    (avg_chars_per_second : float) (chunk_size : option Z) : exn + Z :=
  match float_of_int text_length with
  | inl e => inl e
  | inr numerator =>
      match float_div numerator avg_chars_per_second with
      | inl e => inl e
      | inr base_time =>
          let effective_chunk_size := int_or chunk_size (LONG_TEXT_CHUNK_SIZE cfg) in
          let effective_chunk_size :=
            if effective_chunk_size <=? 0 then LONG_TEXT_CHUNK_SIZE cfg
            else effective_chunk_size in
          if effective_chunk_size =? 0 then inl ZeroDivisionError
          else
            let num_chunks :=
              Z.max 1 ((text_length + effective_chunk_size - 1) / effective_chunk_size) in
            let overhead := 5 + (num_chunks * 2) + 10 in
            match float_of_int overhead with
            | inl e => inl e
            | inr addend => int_of_float (float_add base_time addend)
            end
      end
  end.

(** ** [validate_long_text_input] *)

(** [str(n)] for an int. *)
Definition repr_int (n : Z) : str := lit (NilZero.string_of_int (Z.to_int n)).

Definition str_eq_dec : forall a b : str, {a = b} + {a <> b} := list_eq_dec N.eq_dec.

(** [len(set(words))] *)
Definition distinct_count (words : list str) : Z := len (nodup str_eq_dec words).

Definition MSG_EMPTY : str := lit "Input text cannot be empty".
Definition MSG_REPETITIVE : str := lit "Text appears to be excessively repetitive".

(** The repetition test [len(set(words)) < len(words) * 0.1] multiplies by the
    float 0.1; for word counts below 2^50 the float product orders against an
    integer exactly as a tenth of the count does, which is what is written
    here. *)
Definition validate_long_text_input (cfg : Config) (text : str) : bool * str :=
  if negb (truthy text) || negb (truthy (strip text)) then (false, MSG_EMPTY)
  else
    let text_length := len (strip text) in
    let min_length := get_long_text_min_length cfg in
    let max_length := get_long_text_max_length cfg in
    if text_length <? min_length then
      (false,
       lit "Text must be at least " ++ repr_int min_length
         ++ lit " characters for long-text processing (received "
         ++ repr_int text_length ++ lit " characters)")
    else if max_length <? text_length then
      (false,
       lit "Text is too long (" ++ repr_int text_length
         ++ lit " characters). Maximum allowed: " ++ repr_int max_length)
    else
      let words := split_ws text in
      if 10 * distinct_count words <? len words then (false, MSG_REPETITIVE)
      else (true, []).

(** ** [concatenate_audio_chunks] *)

Section Audio.

(** The element type of the waveform buffers and its zero. *)
Variable sample : Type.
Variable zero : sample.

(** A 2-D tensor as the list of its rows (channels); the samples run along
    dimension 1. *)
Definition tensor : Type := list (list sample).

(** [t.shape[1]] *)
Definition num_samples (t : tensor) : Z :=
  match t with
  | row :: _ => len row
  | [] => 0
  end.

(** [torch.zeros(rows, cols)]; a negative dimension raises. *)
Definition zeros (rows cols : Z) : option tensor :=
  if (rows <? 0) || (cols <? 0) then None
  else Some (repeat (repeat zero (Z.to_nat cols)) (Z.to_nat rows)).

(** [torch.cat([a, b], dim=1)]: the row counts must agree. *)
Fixpoint cat2 (a b : tensor) : option tensor :=
  match a, b with
  | [], [] => Some []
  | r :: a', q :: b' => rest <- cat2 a' b' ;; Some ((r ++ q) :: rest)
  | _, _ => None
  end.

(** [torch.cat(ts, dim=1)] for a non-empty list. *)
Fixpoint cat_dim1 (ts : list tensor) : option tensor :=
  match ts with
  | [] => None
  | [t] => Some t
  | t :: rest => r <- cat_dim1 rest ;; cat2 t r
  end.

(** [int(0.1 * sample_rate)]: the float product truncates to the tenth of
    the rate, rounded towards zero. *)
Definition silence_samples_of (sample_rate : Z) : Z := Z.quot sample_rate 10.

Definition concatenate_audio_chunks (audio_chunks : list tensor) (sample_rate : Z)
  : option tensor :=
  match audio_chunks with
  | [only] => Some only
  | _ =>
      let silence_samples := silence_samples_of sample_rate in
      first <- nth_error audio_chunks 0 ;;
      silence <- zeros 1 silence_samples ;;
      fold_left
        (fun concatenated chunk =>
           c <- concatenated ;; cat_dim1 [c; silence; chunk])
        (tl audio_chunks) (Some first)
  end.

End Audio.

Arguments num_samples {sample} t.
Arguments concatenate_audio_chunks {sample} zero audio_chunks sample_rate.

(** ** [get_streaming_settings] *)

(** The dict the function returns; its three keys are fixed, so it is a
    record here. *)
Record StreamingSettings := {
  chunk_size : Z;
  strategy : str;
  quality : str
}.

(** Truthiness of an optional int: [None] and [0] are falsy. *)
Definition int_truthy (x : option Z) : bool :=
  match x with
  | Some n => negb (n =? 0)
  | None => false
  end.

(** Truthiness of an optional str: [None] and the empty str are falsy. *)
Definition opt_truthy (x : option str) : bool :=
  match x with
  | Some s => truthy s
  | None => false
  end.

Definition get_streaming_settings (streaming_chunk_size : option Z)
    (streaming_strategy streaming_quality : option str) : StreamingSettings :=
  let q := str_or streaming_quality [] in
  let settings_chunk_size := int_or streaming_chunk_size 200 in
  let settings_strategy := str_or streaming_strategy (lit "sentence") in
  let settings_quality := str_or streaming_quality (lit "balanced") in
  let settings_chunk_size :=
    if opt_truthy streaming_quality && negb (int_truthy streaming_chunk_size) then
      if str_eqb q (lit "fast") then 100
      else if str_eqb q (lit "high") then 300
      else settings_chunk_size
    else settings_chunk_size in
  let settings_strategy :=
    if opt_truthy streaming_quality && negb (opt_truthy streaming_strategy) then
      if str_eqb q (lit "fast") then lit "word"
      else if str_eqb q (lit "high") then lit "paragraph"
      else settings_strategy
    else settings_strategy in
  {| chunk_size := settings_chunk_size;
     strategy := settings_strategy;
     quality := settings_quality |}.

(** ** [split_text_into_chunks] *)

Definition legacy_sentence_endings : list str :=
  [ lit ". "; lit "! "; lit "? "; [46; NL]%N; [33; NL]%N; [63; NL]%N ].

Definition legacy_sub_delimiters : list str :=
  [ lit ", "; lit "; "; lit " - "; [SPACE; EM_DASH; SPACE] ].

(** The [for ending in sentence_endings] loop: [best_split] starts at
    [len(temp_text)] and is replaced by the end of an ending whose start lies
    before it. *)
Definition legacy_best_split (temp_text : str) : Z :=
  fold_left
    (fun best_split ending =>
       let pos := find temp_text ending 0 in
       if negb (pos =? -1) && (pos <? best_split) then pos + len ending
       else best_split)
    legacy_sentence_endings (len temp_text).

(** The [while temp_text] loop that cuts the text into sentences; [gas] only
    makes the recursion structural (every pass that goes on shortens
    [temp_text]). *)
Fixpoint legacy_sentences (gas : nat) (temp_text : str) (sentences : list str)
  : list str :=
  if negb (truthy temp_text) then sentences
  else
    match gas with
    | O => sentences
    | S gas' =>
        let best_split := legacy_best_split temp_text in
        if best_split =? len temp_text then sentences ++ [temp_text]
        else legacy_sentences gas' (slice_from temp_text best_split)
                              (sentences ++ [slice_to temp_text best_split])
    end.

(** The last-resort word loop; state [(chunks, current_word_chunk)]. *)
Definition legacy_words_step (max_length : Z) (st : pack_state) (word : str)
  : pack_state :=
  let '(chunks, current_word_chunk) := st in
  if len current_word_chunk + len word + 1 <=? max_length then
    (chunks,
     current_word_chunk ++ (if truthy current_word_chunk then [SPACE] else []) ++ word)
  else
    ((if truthy current_word_chunk then chunks ++ [current_word_chunk] else chunks),
     word).

(** The [for sub_chunk in sub_chunks] loop body. *)
Definition legacy_sub_chunk (max_length : Z) (chunks : list str) (sub_chunk : str)
  : list str :=
  if len sub_chunk <=? max_length then chunks ++ [strip sub_chunk]
  else
    let '(chunks, current_word_chunk) :=
      fold_left (legacy_words_step max_length) (split_ws sub_chunk) (chunks, []) in
    if truthy current_word_chunk then chunks ++ [current_word_chunk] else chunks.

(** The [for sentence in sentences] loop body; state
    [(chunks, current_chunk)]. *)
Definition legacy_sentence_step (max_length : Z) (st : pack_state) (sentence : str)
  : pack_state :=
  let '(chunks, current_chunk) := st in
  let sentence := strip sentence in
  if negb (truthy sentence) then (chunks, current_chunk)
  else if len current_chunk + len sentence <=? max_length then
    (chunks,
     current_chunk ++ (if truthy current_chunk then [SPACE] else []) ++ sentence)
  else
    let chunks := flush (chunks, current_chunk) in
    if max_length <? len sentence then
      let sub_chunks :=
        fold_left
          (fun sub_chunks delimiter =>
             fold_left (resplit delimiter max_length) sub_chunks [])
          legacy_sub_delimiters [sentence] in
      (fold_left (legacy_sub_chunk max_length) sub_chunks chunks, [])
    else (chunks, sentence).

Definition split_text_into_chunks (cfg : Config) (input : str) (max_length : option Z)
  : list str :=
  let max_length :=
    match max_length with
    | Some m => m
    | None => MAX_CHUNK_LENGTH cfg
    end in
  if len input <=? max_length then [input]
  else
    let sentences := legacy_sentences (length input) input [] in
    final_filter
      (flush (fold_left (legacy_sentence_step max_length) sentences ([], []))).

(** ** Notions used in the statements *)

(** The content of a text: its characters with all whitespace removed. *)
Definition nows (s : str) : str := filter (fun c => negb (isspace c)) s.

(** A chunk is non-empty after trimming. *)
Definition nonblank (s : str) : bool := truthy (strip s).

(** [a] occurs in [b] in order (possibly with gaps). *)
Inductive subseq {A} : list A -> list A -> Prop :=
| subseq_nil : subseq [] []
| subseq_skip : forall a b x, subseq a b -> subseq a (x :: b)
| subseq_take : forall a b x, subseq a b -> subseq (x :: a) (x :: b).

(** End positions of every occurrence of [delimiter] in [s]; [i] is the
    index of the head of [s]. *)
Fixpoint occurrence_ends (delimiter s : str) (i : Z) : list Z :=
  match s with
  | [] => []
  | _ :: s' =>
      (if prefixb delimiter s then [i + len delimiter] else [])
        ++ occurrence_ends delimiter s' (i + 1)
  end.

(** The rightmost boundary as the specification words it: the maximum end
    position, over every occurrence of every delimiter variant, that is at
    or before [max_length]. *)
Definition rightmost_boundary (delimiters : list str) (text : str) (max_length : Z)
  : option Z :=
  fold_left
    (fun best e =>
       if e <=? max_length then
         match best with
         | Some b => Some (Z.max b e)
         | None => Some e
         end
       else best)
    (flat_map (fun d => occurrence_ends d text 0) delimiters) None.

(** The ceiling of [a / b] for a positive [b]. *)
Definition ceil_div (a b : Z) : Z := Qceiling (inject_Z a / inject_Z b).

(** A configuration used for the concrete evaluations below. *)
Definition sample_config : Config :=
  {| MAX_CHUNK_LENGTH := 280;
     LONG_TEXT_CHUNK_SIZE := 2500;
     LONG_TEXT_CHUNKING_STRATEGY := Some (lit "sentence");
     MAX_TOTAL_LENGTH := 3000;
     get_long_text_min_length := 10;
     get_long_text_max_length := 100000 |}.

(** A configuration whose long-text chunk size is left at zero. *)
Definition zero_chunk_config : Config :=
  {| MAX_CHUNK_LENGTH := 280;
     LONG_TEXT_CHUNK_SIZE := 0;
     LONG_TEXT_CHUNKING_STRATEGY := None;
     MAX_TOTAL_LENGTH := 3000;
     get_long_text_min_length := 10;
     get_long_text_max_length := 100000 |}.

(** What one delimiter variant contributes to the sentence and clause
    tiers: its own rightmost boundary if it has one within the limit,
    otherwise whatever the variants before it left. *)
Definition last_variant_wins (text : str) (max_length : Z) (best : option Z)
    (delimiter : str) : option Z :=
  match rightmost_boundary [delimiter] text max_length with
  | Some e => Some e
  | None => best
  end.

(** What every chunk of the legacy splitter satisfies: at most one
    character over the limit, or free of whitespace (a single word). *)
Definition within_or_word (max_length : Z) (c : str) : Prop :=
  len c <= max_length + 1 \/ nows c = c.

(** The chunk size the estimator works with, as the specification words it:
    the caller's value, or the configured long-text chunk size when that is
    absent or not positive. *)
Definition effective_chunk_size_of (cfg : Config) (chunk_size : option Z) : Z :=
  match chunk_size with
  | Some c => if 0 <? c then c else LONG_TEXT_CHUNK_SIZE cfg
  | None => LONG_TEXT_CHUNK_SIZE cfg
  end.

(** The number of chunks the estimator assumes: the ceiling of the length
    over the chunk size, and at least one. *)
Definition num_chunks_of (text_length effective_chunk_size : Z) : Z :=
  Z.max 1 (ceil_div text_length effective_chunk_size).

(** The float with the value of a small integer, as a literal such as
    [25.0] denotes it. *)
Definition float_lit (n : Z) : float := binary_normalize prec emax n 0 false.

(** The rational a finite float stands for; zero for infinities and NaN. *)
Definition SF2Q (x : float) : Q :=
  match x with
  | S754_finite s m (Zneg p) => cond_Zopp s (Zpos m) # (2 ^ p)
  | S754_finite s m e => inject_Z (cond_Zopp s (Zpos m) * 2 ^ e)
  | _ => 0
  end.

(** The estimate as the specification words it, read in binary64
    arithmetic: [int(text_length / rate + overhead)] with one rounding for
    the division and one for the addition. *)
Definition binary64_estimate (text_length : Z) (rate : float) (overhead : Z)
  : exn + Z :=
  match float_of_int text_length with
  | inl e => inl e
  | inr numerator =>
      match float_div numerator rate with
      | inl e => inl e
      | inr base_time =>
          match float_of_int overhead with
          | inl e => inl e
          | inr addend => int_of_float (float_add base_time addend)
          end
      end
  end.

(** The rate [1.0000000000000002], the float next above [1.0]. *)
Definition rate_above_one : float := S754_finite false 4503599627370497 (-52).

(** The float that the literal [0.1] denotes, and the smallest positive
    float, [5e-324]. *)
Definition rate_tenth : float := S754_finite false 7205759403792794 (-56).
Definition rate_tiny : float := S754_finite false 1 (-1074).

(** The limit of [chunk_text] as the claim words it: the smaller of the
    requested limit and [MAX_TOTAL_LENGTH - 100] when that is positive, the
    requested limit otherwise. *)
Definition capped_limit (cfg : Config) (requested : Z) : Z :=
  if 0 <? Z.min requested (MAX_TOTAL_LENGTH cfg - 100)
  then Z.min requested (MAX_TOTAL_LENGTH cfg - 100)
  else requested.

(** A character at which no tier of the boundary finder can cut: neither
    whitespace nor a quote (every delimiter variant holds one of these). *)
Definition plain (c : char) : bool :=
  negb (isspace c) && negb (c =? 34)%N && negb (c =? 39)%N.

(** A configuration whose total-length limit leaves a cap of five
    characters. *)
Definition narrow_config : Config :=
  {| MAX_CHUNK_LENGTH := 280;
     LONG_TEXT_CHUNK_SIZE := 2500;
     LONG_TEXT_CHUNKING_STRATEGY := Some (lit "sentence");
     MAX_TOTAL_LENGTH := 105;
     get_long_text_min_length := 10;
     get_long_text_max_length := 100000 |}.

(** Total number of samples of a list of segments. *)
Definition total_len {A} (segments : list (list A)) : Z :=
  fold_right (fun s acc => len s + acc) 0 segments.

(** A one-channel tensor. *)
Definition mono {A} (s : list A) : list (list A) := [s].

(** The head of a text is not whitespace (vacuous on the empty text). *)
Definition head_ok (s : str) : Prop :=
  match s with
  | [] => True
  | c :: _ => isspace c = false
  end.

(** What every emitted chunk satisfies: within the limit, non-empty, trimmed. *)
Definition good_chunk (max_length : Z) (c : str) : Prop :=
  len c <= max_length /\ c <> [] /\ strip c = c.

(** A word of [str.split()]: non-empty and free of whitespace. *)
Definition wordlike (w : str) : Prop := w <> [] /\ nows w = w.

(** Non-empty and trimmed. *)
Definition neat (c : str) : Prop := c <> [] /\ strip c = c.

(** The content of the paragraph being accumulated, if any. *)
Definition nows_opt (o : option str) : str :=
  match o with
  | Some s => nows s
  | None => []
  end.

(** What every streamed chunk satisfies: within the limit and non-empty
    after trimming. *)
Definition stream_ok (max_length : Z) (c : str) : Prop :=
  len c <= max_length /\ nonblank c = true.

(** The parts of a split, with the separator put back before each but the
    first. *)
Definition interleave (sep : str) (parts : list str) : str :=
  concat (map (fun p => sep ++ p) parts).

(** ** Lengths and slices *)

Lemma len_nonneg {A} (s : list A) : 0 <= len s.
Proof. unfold len. lia. Qed.

Lemma len_app {A} (a b : list A) : len (a ++ b) = len a + len b.
Proof. unfold len. rewrite length_app. lia. Qed.

Lemma len_cons {A} (x : A) (s : list A) : len (x :: s) = len s + 1.
Proof. unfold len. simpl length. lia. Qed.

Lemma len_nil {A} : len (@nil A) = 0.
Proof. reflexivity. Qed.

Lemma truthy_false {A} (s : list A) : truthy s = false <-> s = [].
Proof. destruct s; simpl; split; congruence. Qed.

Lemma truthy_true {A} (s : list A) : truthy s = true <-> s <> [].
Proof. destruct s; simpl; split; congruence. Qed.

Lemma truthy_len {A} (s : list A) : truthy s = true <-> 0 < len s.
Proof.
  destruct s as [|x s]; simpl.
  - unfold len; simpl. split; [congruence | lia].
  - rewrite len_cons. pose proof (len_nonneg s). split; [lia | reflexivity].
Qed.

Lemma norm_index_range n i : 0 <= n -> 0 <= norm_index n i <= n.
Proof. unfold norm_index. destruct (i <? 0) eqn:E; lia. Qed.

Lemma norm_index_id n i : 0 <= i <= n -> norm_index n i = i.
Proof. unfold norm_index. destruct (i <? 0) eqn:E; lia. Qed.

Lemma slice_to_from {A} (s : list A) i : slice_to s i ++ slice_from s i = s.
Proof. apply firstn_skipn. Qed.

Lemma len_slice_to {A} (s : list A) i : 0 <= i -> len (slice_to s i) <= i.
Proof.
  intros Hi. unfold slice_to, len. rewrite length_firstn.
  unfold norm_index. destruct (i <? 0) eqn:E; lia.
Qed.

Lemma len_slice_from {A} (s : list A) i :
  0 <= i -> len (slice_from s i) = Z.max 0 (len s - i).
Proof.
  intros Hi. unfold slice_from, len. rewrite length_skipn.
  unfold norm_index. destruct (i <? 0) eqn:E; lia.
Qed.

(** ** Stripping *)

Lemma lstrip_length s : (length (lstrip s) <= length s)%nat.
Proof. induction s as [|c s IH]; simpl; [lia|]. destruct (isspace c); simpl; lia. Qed.

Lemma nows_app a b : nows (a ++ b) = nows a ++ nows b.
Proof. apply filter_app. Qed.

Lemma nows_lstrip s : nows (lstrip s) = nows s.
Proof.
  induction s as [|c s IH]; simpl; [reflexivity|].
  destruct (isspace c) eqn:E; simpl; rewrite ?E; simpl; auto.
Qed.

Lemma rstrip_snoc s c :
  rstrip (s ++ [c]) = if isspace c then rstrip s else s ++ [c].
Proof.
  unfold rstrip. rewrite rev_app_distr. simpl.
  destruct (isspace c); [reflexivity|].
  simpl. rewrite rev_involutive. reflexivity.
Qed.

Lemma rstrip_cons c s :
  rstrip (c :: s) =
  if truthy (rstrip s) then c :: rstrip s
  else if isspace c then [] else [c].
Proof.
  induction s as [|d s IH] using rev_ind.
  - unfold rstrip. simpl. destruct (isspace c); reflexivity.
  - rewrite app_comm_cons, !rstrip_snoc.
    destruct (isspace d); [exact IH|].
    destruct s; reflexivity.
Qed.

Lemma rstrip_length s : (length (rstrip s) <= length s)%nat.
Proof.
  induction s as [|c s IH]; [unfold rstrip; simpl; lia|].
  rewrite rstrip_cons. destruct (truthy (rstrip s)); simpl; [lia|].
  destruct (isspace c); simpl; lia.
Qed.

Lemma nows_rstrip s : nows (rstrip s) = nows s.
Proof.
  induction s as [|c s IH]; [reflexivity|].
  rewrite rstrip_cons. destruct (truthy (rstrip s)) eqn:T.
  - simpl. rewrite IH. reflexivity.
  - apply truthy_false in T. rewrite T in IH. simpl in IH.
    simpl. rewrite <- IH. destruct (isspace c) eqn:E; simpl; rewrite ?E; reflexivity.
Qed.

Lemma strip_length s : (length (strip s) <= length s)%nat.
Proof.
  unfold strip. pose proof (rstrip_length (lstrip s)). pose proof (lstrip_length s). lia.
Qed.

Lemma len_strip s : len (strip s) <= len s.
Proof. unfold len. pose proof (strip_length s). lia. Qed.

Lemma nows_strip s : nows (strip s) = nows s.
Proof. unfold strip. rewrite nows_rstrip. apply nows_lstrip. Qed.

Lemma lstrip_head_ok s : head_ok (lstrip s).
Proof.
  induction s as [|c s IH]; simpl; [exact I|].
  destruct (isspace c) eqn:E; [exact IH| exact E].
Qed.

Lemma lstrip_id s : head_ok s -> lstrip s = s.
Proof. destruct s as [|c s]; simpl; [reflexivity|]. intros ->. reflexivity. Qed.

Lemma rstrip_head_ok s : head_ok s -> head_ok (rstrip s).
Proof.
  destruct s as [|c s]; [intros _; exact I|].
  simpl. intros E. rewrite rstrip_cons.
  destruct (truthy (rstrip s)); simpl; [exact E|]. rewrite E. exact E.
Qed.

Lemma rstrip_idem s : rstrip (rstrip s) = rstrip s.
Proof.
  induction s as [|d s IH] using rev_ind; [reflexivity|].
  rewrite rstrip_snoc. destruct (isspace d) eqn:E; [exact IH|].
  rewrite rstrip_snoc, E. reflexivity.
Qed.

Lemma strip_head_ok s : head_ok (strip s).
Proof. apply rstrip_head_ok, lstrip_head_ok. Qed.

Lemma strip_idem s : strip (strip s) = strip s.
Proof.
  unfold strip at 1. rewrite (lstrip_id (strip s)) by apply strip_head_ok.
  unfold strip. apply rstrip_idem.
Qed.

Lemma strip_nil : strip [] = [].
Proof. reflexivity. Qed.

Lemma nonblank_strip s : truthy (strip s) = true -> nonblank (strip s) = true.
Proof. unfold nonblank. rewrite strip_idem. auto. Qed.

Lemma rstrip_nonempty c s : isspace c = false -> rstrip (c :: s) <> [].
Proof.
  intros E. rewrite rstrip_cons. destruct (truthy (rstrip s)); [discriminate|].
  rewrite E. discriminate.
Qed.

(** A text that starts with a visible character keeps it under [strip]. *)
Lemma strip_nonempty s : head_ok s -> s <> [] -> strip s <> [].
Proof.
  intros H Hne. unfold strip. rewrite lstrip_id by exact H.
  destruct s as [|c s]; [congruence|]. apply rstrip_nonempty. exact H.
Qed.

Lemma trimmed_head_ok s : strip s = s -> head_ok s.
Proof. intros <-. apply strip_head_ok. Qed.

Lemma head_ok_firstn n s : head_ok s -> head_ok (firstn n s).
Proof. destruct s, n; simpl; auto. Qed.

Lemma strip_slice_to_nonempty s b :
  head_ok s -> s <> [] -> 1 <= b -> strip (slice_to s b) <> [].
Proof.
  intros H Hne Hb. apply strip_nonempty.
  - apply head_ok_firstn, H.
  - unfold slice_to. destruct s as [|c s]; [congruence|].
    unfold norm_index. destruct (b <? 0) eqn:E; [lia|].
    rewrite len_cons. pose proof (len_nonneg s).
    destruct (Z.to_nat (Z.min b (len s + 1))) eqn:N; [lia|]. simpl. discriminate.
Qed.

(** ** The boundary tiers stay within the limit *)

Lemma scan_delimiter_inv gas text d max_length pos best :
  scan_delimiter gas text d max_length pos best = best
  \/ exists b, scan_delimiter gas text d max_length pos best = Some b /\ b <= max_length.
Proof.
  revert pos best. induction gas as [|gas IH]; intros pos best; simpl; [now left|].
  destruct (pos <? len text); [|now left].
  destruct (find text d pos =? -1); [now left|].
  destruct (find text d pos + len d <=? max_length) eqn:E; [|now left].
  apply Z.leb_le in E.
  destruct (IH (find text d pos + 1) (Some (find text d pos + len d))) as [H|H].
  - right. eexists. split; [exact H | exact E].
  - right. exact H.
Qed.

Lemma find_from_range sub s i :
  find_from sub s i = -1 \/ i <= find_from sub s i.
Proof.
  revert i. induction s as [|c s IH]; intros i; simpl.
  - destruct (prefixb sub []); [right; lia | left; reflexivity].
  - destruct (prefixb sub (c :: s)); [right; lia|].
    destruct (IH (i + 1)) as [H|H]; [left; exact H | right; lia].
Qed.

Lemma find_range s sub start :
  0 <= start -> find s sub start = -1 \/ start <= find s sub start.
Proof.
  intros H. unfold find. destruct (len s <? start) eqn:E; [left; reflexivity|].
  apply Z.ltb_ge in E. rewrite norm_index_id by lia. apply find_from_range.
Qed.

(** The inner loop never runs out of [gas]: any two amounts that cover the
    distance from [pos] to the end of the text give the same answer. *)
Lemma scan_delimiter_gas text d max_length :
  forall gas1 gas2 pos best,
    0 <= pos ->
    len text - pos <= Z.of_nat gas1 -> len text - pos <= Z.of_nat gas2 ->
    scan_delimiter gas1 text d max_length pos best
    = scan_delimiter gas2 text d max_length pos best.
Proof.
  induction gas1 as [|gas1 IH]; intros gas2 pos best Hp H1 H2.
  - simpl. destruct gas2 as [|gas2]; [reflexivity|]. simpl.
    destruct (pos <? len text) eqn:E; [apply Z.ltb_lt in E; lia | reflexivity].
  - simpl. destruct (pos <? len text) eqn:E.
    + apply Z.ltb_lt in E. destruct gas2 as [|gas2]; [lia|]. simpl.
      replace (pos <? len text) with true by (symmetry; apply Z.ltb_lt, E).
      destruct (find text d pos =? -1) eqn:F; [reflexivity|].
      apply Z.eqb_neq in F.
      destruct (find text d pos + len d <=? max_length); [|reflexivity].
      destruct (find_range text d pos Hp) as [R|R]; [contradiction|].
      apply IH; lia.
    + destruct gas2 as [|gas2]; [reflexivity|]. simpl. rewrite E. reflexivity.
Qed.

Lemma scan_delimiters_bound delimiters text max_length b :
  scan_delimiters delimiters text max_length = Some b -> b <= max_length.
Proof.
  unfold scan_delimiters.
  assert (G : forall best,
             (forall x, best = Some x -> x <= max_length) ->
             forall x,
               fold_left
                 (fun best_split delimiter =>
                    scan_delimiter (length text) text delimiter max_length 0 best_split)
                 delimiters best = Some x -> x <= max_length).
  { induction delimiters as [|d ds IH]; intros best Hb x; simpl.
    - apply Hb.
    - apply IH. intros y Hy.
      destruct (scan_delimiter_inv (length text) text d max_length 0 best) as [H|[z [H Hz]]];
        rewrite H in Hy; [auto | congruence]. }
  apply G. discriminate.
Qed.

Lemma para_best_bound ends max_length best b :
  (forall x, best = Some x -> x <= max_length) ->
  para_best ends max_length best = Some b -> b <= max_length.
Proof.
  revert best. induction ends as [|e ends IH]; intros best Hb; simpl; [apply Hb|].
  destruct (e <=? max_length) eqn:E; [|apply Hb].
  apply IH. intros x [= <-]. apply Z.leb_le, E.
Qed.

Lemma admissible_inv best max_length num den b :
  admissible best max_length num den = Some b ->
  best = Some b /\ b <> 0 /\ num * max_length < den * b.
Proof.
  unfold admissible. destruct best as [x|]; [|discriminate].
  destruct (x =? 0) eqn:E0; [discriminate|].
  destruct (num * max_length <? den * x) eqn:E1; [|discriminate].
  intros [= <-]. apply Z.eqb_neq in E0. apply Z.ltb_lt in E1. auto.
Qed.

Lemma rfind_from_inv sub s i stop best :
  rfind_from sub s i stop best = best
  \/ (i <= rfind_from sub s i stop best
      /\ rfind_from sub s i stop best + len sub <= stop
      /\ prefixb sub (skipn (Z.to_nat (rfind_from sub s i stop best - i)) s) = true).
Proof.
  revert i best. induction s as [|c s IH]; intros i best.
  - simpl. destruct (prefixb sub [] && (i + len sub <=? stop)) eqn:E; [|now left].
    apply andb_prop in E. destruct E as [E1 E2]. apply Z.leb_le in E2.
    right. rewrite Z.sub_diag. simpl. auto with zarith.
  - cbn [rfind_from].
    destruct (IH (i + 1)
                (if prefixb sub (c :: s) && (i + len sub <=? stop) then i else best))
      as [H|[H1 [H2 H3]]].
    + rewrite H.
      destruct (prefixb sub (c :: s) && (i + len sub <=? stop)) eqn:E; [|now left].
      apply andb_prop in E. destruct E as [E1 E2]. apply Z.leb_le in E2.
      right. rewrite Z.sub_diag. simpl skipn. auto with zarith.
    + right. split; [lia|]. split; [exact H2|].
      replace (Z.to_nat (rfind_from sub s (i + 1) stop
                 (if prefixb sub (c :: s) && (i + len sub <=? stop) then i else best) - i))
        with (S (Z.to_nat (rfind_from sub s (i + 1) stop
                 (if prefixb sub (c :: s) && (i + len sub <=? stop) then i else best)
                 - (i + 1)))) by lia.
      exact H3.
Qed.

(** The word tier on a text that starts with a visible character: the cut
    lies in [1, max_length]. *)
Lemma word_split_pos text max_length :
  1 <= max_length -> head_ok text -> max_length < len text ->
  exists b, 1 <= b <= max_length
            /\ _split_at_words text max_length 0 = split_pair text b 0.
Proof.
  intros Hm Hh Hl. unfold _split_at_words.
  destruct (len text <=? max_length) eqn:E; [apply Z.leb_le in E; lia|].
  unfold rfind. rewrite (norm_index_id (len text) 0) by lia.
  rewrite (norm_index_id (len text) max_length) by lia.
  simpl skipn.
  destruct (rfind_from_inv [SPACE] text 0 max_length (-1)) as [H|[H1 [H2 H3]]].
  - rewrite H. simpl. exists max_length. split; [lia | reflexivity].
  - set (r := rfind_from [SPACE] text 0 max_length (-1)) in *.
    destruct (r =? -1) eqn:R; [apply Z.eqb_eq in R; lia|].
    exists r. split; [|reflexivity].
    rewrite len_cons, len_nil in H2. split; [|lia].
    destruct (Z.eq_dec r 0) as [R0|R0]; [|lia].
    rewrite R0 in H3. change (Z.to_nat (0 - 0)) with 0%nat in H3.
    cbn [skipn] in H3. destruct text as [|c t]; [discriminate|].
    cbn [prefixb] in H3. apply andb_prop in H3. destruct H3 as [H3 _].
    apply N.eqb_eq in H3. subst c. simpl in Hh. discriminate.
Qed.

(** Whatever tier answers, the split is a cut of the text at a position in
    [1, max_length]. *)
Lemma find_best_split_point_cut text max_length :
  1 <= max_length -> head_ok text -> max_length < len text ->
  exists b, 1 <= b <= max_length
            /\ _find_best_split_point text max_length 0 = split_pair text b 0.
Proof.
  intros Hm Hh Hl. unfold _find_best_split_point.
  destruct (len text <=? max_length) eqn:E; [apply Z.leb_le in E; lia|].
  destruct (_try_split_at_paragraphs text max_length 0) as [r|] eqn:P.
  { unfold _try_split_at_paragraphs in P.
    destruct (negb (truthy (para_ends text))); [discriminate|].
    destruct (admissible _ _ _ _) as [b|] eqn:A; [|discriminate].
    injection P as <-. apply admissible_inv in A. destruct A as [A1 [A2 A3]].
    apply para_best_bound in A1; [|discriminate].
    exists b. split; [lia | reflexivity]. }
  destruct (_try_split_at_sentences text max_length 0) as [r|] eqn:S1.
  { unfold _try_split_at_sentences in S1.
    destruct (admissible _ _ _ _) as [b|] eqn:A; [|discriminate].
    injection S1 as <-. apply admissible_inv in A. destruct A as [A1 [A2 A3]].
    apply scan_delimiters_bound in A1.
    exists b. split; [lia | reflexivity]. }
  destruct (_try_split_at_clauses text max_length 0) as [r|] eqn:C1.
  { unfold _try_split_at_clauses in C1.
    destruct (admissible _ _ _ _) as [b|] eqn:A; [|discriminate].
    injection C1 as <-. apply admissible_inv in A. destruct A as [A1 [A2 A3]].
    apply scan_delimiters_bound in A1.
    exists b. split; [lia | reflexivity]. }
  apply word_split_pos; assumption.
Qed.

Lemma split_pair_0 text b :
  0 <= b ->
  split_pair text b 0 = (strip (slice_to text b), strip (slice_from text b)).
Proof. intros Hb. unfold split_pair. do 3 f_equal. lia. Qed.

(** One pass of the loop on an over-long trimmed text: a non-empty chunk is
    cut off at a position in [1, max_length]. *)
Lemma hierarchical_step_cut text max_length :
  1 <= max_length -> head_ok text -> max_length < len text ->
  exists b, 1 <= b <= max_length
            /\ hierarchical_step text max_length
               = (strip (slice_to text b), Some (strip (slice_from text b)))
            /\ strip (slice_to text b) <> [].
Proof.
  intros Hm Hh Hl. unfold hierarchical_step.
  destruct (len text <=? max_length) eqn:E; [apply Z.leb_le in E; lia|].
  destruct (find_best_split_point_cut text max_length Hm Hh Hl) as [b [Hb Hs]].
  rewrite Hs, split_pair_0 by lia.
  assert (Hne : text <> []).
  { intros ->. rewrite len_nil in Hl. lia. }
  pose proof (strip_slice_to_nonempty text b Hh Hne (proj1 Hb)) as Hc.
  exists b. split; [exact Hb|]. split; [|exact Hc].
  destruct (strip (slice_to text b)) eqn:Q; [congruence|]. reflexivity.
Qed.

(** ** The hierarchical loop *)

Lemma nows_concat_app (a b : list str) :
  nows (concat (a ++ b)) = nows (concat a) ++ nows (concat b).
Proof. rewrite concat_app. apply nows_app. Qed.

Lemma nows_cut text b :
  nows (strip (slice_to text b)) ++ nows (strip (slice_from text b)) = nows text.
Proof. rewrite !nows_strip, <- nows_app, slice_to_from. reflexivity. Qed.

Lemma cut_shorter text b :
  1 <= b -> text <> [] ->
  (length (strip (slice_from text b)) < length text)%nat.
Proof.
  intros Hb Hne.
  pose proof (len_strip (slice_from text b)) as H1.
  pose proof (len_slice_from text b ltac:(lia)) as H2.
  assert (0 < len text) by (apply truthy_len, truthy_true, Hne).
  unfold len in *. lia.
Qed.

Lemma cut_good text b max_length :
  1 <= b <= max_length -> strip (slice_to text b) <> [] ->
  good_chunk max_length (strip (slice_to text b)).
Proof.
  intros Hb Hne. split; [|split; [exact Hne | apply strip_idem]].
  pose proof (len_strip (slice_to text b)).
  pose proof (len_slice_to text b ltac:(lia)). lia.
Qed.

Lemma hierarchical_loop_ok max_length :
  1 <= max_length ->
  forall fuel text chunks,
    strip text = text -> (length text <= fuel)%nat ->
    exists out,
      hierarchical_loop fuel text max_length chunks = Some (chunks ++ out)
      /\ Forall (good_chunk max_length) out
      /\ nows (concat out) = nows text.
Proof.
  intros Hm. induction fuel as [|fuel IH]; intros text chunks Ht Hf.
  - destruct text; [|simpl in Hf; lia].
    exists []. simpl. rewrite app_nil_r. auto.
  - destruct text as [|c t] eqn:Etext.
    { exists []. simpl. rewrite app_nil_r. auto. }
    rewrite <- Etext in *. cbn [hierarchical_loop].
    replace (truthy text) with true by (rewrite Etext; reflexivity).
    cbn [negb].
    destruct (Z_le_gt_dec (len text) max_length) as [Hfit|Hbig].
    + unfold hierarchical_step.
      replace (len text <=? max_length) with true by (symmetry; apply Z.leb_le, Hfit).
      exists [text]. split; [reflexivity|]. split.
      * constructor; [|constructor]. split; [exact Hfit|]. split; [|exact Ht].
        rewrite Etext. discriminate.
      * simpl. rewrite app_nil_r. reflexivity.
    + destruct (hierarchical_step_cut text max_length Hm (trimmed_head_ok _ Ht)
                  ltac:(lia)) as [b [Hb [Hs Hne]]].
      rewrite Hs.
      assert (Hne' : text <> []) by (rewrite Etext; discriminate).
      destruct (IH (strip (slice_from text b)) (chunks ++ [strip (slice_to text b)])
                  (strip_idem _)) as [out [H1 [H2 H3]]].
      { pose proof (cut_shorter text b (proj1 Hb) Hne'). lia. }
      exists (strip (slice_to text b) :: out).
      split; [rewrite H1, <- app_assoc; reflexivity|]. split.
      * constructor; [apply cut_good; assumption | exact H2].
      * simpl. rewrite nows_app, H3. apply nows_cut.
Qed.

Lemma filter_truthy_good max_length (out : list str) :
  Forall (good_chunk max_length) out -> filter truthy out = out.
Proof.
  induction 1 as [|c out [_ [Hne _]] _ IH]; [reflexivity|].
  simpl. destruct c; [congruence|]. simpl. rewrite IH. reflexivity.
Qed.

Lemma chunk_hierarchical_fuel_ok text max_length fuel :
  1 <= max_length -> (length text <= fuel)%nat ->
  exists out,
    _chunk_hierarchical_fuel fuel text max_length = Some out
    /\ Forall (good_chunk max_length) out
    /\ nows (concat out) = nows text.
Proof.
  intros Hm Hf. unfold _chunk_hierarchical_fuel.
  destruct (hierarchical_loop_ok max_length Hm fuel (strip text) [] (strip_idem _))
    as [out [H1 [H2 H3]]].
  { pose proof (strip_length text). lia. }
  exists out. rewrite H1. simpl.
  rewrite (filter_truthy_good max_length out H2), <- (nows_strip text). auto.
Qed.

Lemma chunk_hierarchical_ok text max_length :
  1 <= max_length ->
  exists out,
    _chunk_hierarchical text max_length = Some out
    /\ Forall (good_chunk max_length) out
    /\ nows (concat out) = nows text.
Proof. intros Hm. apply chunk_hierarchical_fuel_ok; [exact Hm | lia]. Qed.

(** More fuel never changes an answer. *)
Lemma hierarchical_loop_mono max_length fuel :
  forall text chunks r,
    hierarchical_loop fuel text max_length chunks = Some r ->
    forall fuel', (fuel <= fuel')%nat ->
                  hierarchical_loop fuel' text max_length chunks = Some r.
Proof.
  induction fuel as [|fuel IH]; intros text chunks r H fuel' Hf.
  - destruct text; [|discriminate]. destruct fuel'; exact H.
  - destruct fuel' as [|fuel']; [lia|].
    cbn [hierarchical_loop] in *.
    destruct (negb (truthy text)); [exact H|].
    destruct (hierarchical_step text max_length) as [c [rem|]]; [|exact H].
    apply (IH _ _ _ H). lia.
Qed.

(** ** Whitespace splitting *)

Lemma nows_rev s : nows (rev s) = rev (nows s).
Proof.
  induction s as [|c s IH]; [reflexivity|].
  simpl. rewrite nows_app, IH. unfold nows at 2 3. simpl.
  destruct (isspace c); simpl; [rewrite app_nil_r|]; reflexivity.
Qed.

Lemma split_ws_aux_concat s cur :
  concat (split_ws_aux s cur) = rev cur ++ nows s.
Proof.
  revert cur. induction s as [|c s IH]; intros cur; simpl.
  - destruct cur; simpl; rewrite ?app_nil_r; reflexivity.
  - destruct (isspace c) eqn:E; simpl.
    + destruct cur; simpl; rewrite IH; reflexivity.
    + rewrite IH. simpl. rewrite <- app_assoc. reflexivity.
Qed.

Lemma rev_truthy {A} (s : list A) : truthy s = true -> rev s <> [].
Proof.
  intros T H. apply (f_equal (@rev A)) in H. rewrite rev_involutive in H.
  subst s. discriminate.
Qed.

Lemma split_ws_aux_wordlike s cur :
  nows cur = cur -> Forall wordlike (split_ws_aux s cur).
Proof.
  revert cur. induction s as [|c s IH]; intros cur Hc; simpl.
  - destruct (truthy cur) eqn:T; constructor; [|constructor].
    split; [apply rev_truthy, T | rewrite nows_rev, Hc; reflexivity].
  - destruct (isspace c) eqn:E.
    + destruct (truthy cur) eqn:T; [|apply IH; reflexivity].
      constructor; [|apply IH; reflexivity].
      split; [apply rev_truthy, T | rewrite nows_rev, Hc; reflexivity].
    + apply IH. simpl. rewrite E. simpl. rewrite Hc. reflexivity.
Qed.

Lemma split_ws_concat s : concat (split_ws s) = nows s.
Proof. apply split_ws_aux_concat. Qed.

Lemma split_ws_wordlike s : Forall wordlike (split_ws s).
Proof. apply split_ws_aux_wordlike. reflexivity. Qed.

Lemma nows_join_space (ws : list str) :
  Forall wordlike ws -> nows (join [SPACE] ws) = concat ws.
Proof.
  induction 1 as [|w ws [_ Hw] Hws IH]; [reflexivity|].
  destruct ws as [|w' ws'].
  - simpl. rewrite app_nil_r. exact Hw.
  - change (join [SPACE] (w :: w' :: ws')) with (w ++ [SPACE] ++ join [SPACE] (w' :: ws')).
    rewrite !nows_app, IH, Hw. reflexivity.
Qed.

(** ** The word strategy *)

Lemma good_chunk_neat max_length c : good_chunk max_length c -> neat c.
Proof. intros [_ H]. exact H. Qed.

Lemma neat_strip s : truthy (strip s) = true -> neat (strip s).
Proof. intros H. split; [apply truthy_true, H | apply strip_idem]. Qed.

Lemma flush_words_neat chunks cw :
  Forall neat chunks -> Forall neat (flush_words chunks cw).
Proof.
  intros H. unfold flush_words.
  destruct (truthy (strip (join [SPACE] cw))) eqn:E; [|exact H].
  apply Forall_app. split; [exact H|]. constructor; [|constructor].
  apply neat_strip, E.
Qed.

Lemma flush_words_nows chunks cw :
  Forall wordlike cw ->
  nows (concat (flush_words chunks cw)) = nows (concat chunks) ++ concat cw.
Proof.
  intros H. unfold flush_words.
  pose proof (nows_join_space cw H) as J. rewrite <- nows_strip in J.
  destruct (truthy (strip (join [SPACE] cw))) eqn:E.
  - rewrite nows_concat_app. simpl. rewrite app_nil_r, J. reflexivity.
  - apply truthy_false in E. rewrite E in J. simpl in J. rewrite <- J, app_nil_r.
    reflexivity.
Qed.

Lemma words_fold_inv max_length words :
  Forall wordlike words ->
  forall chunks cw cl,
    Forall neat chunks -> Forall wordlike cw ->
    exists chunks' cw' cl',
      fold_left (words_step max_length) words (chunks, cw, cl) = (chunks', cw', cl')
      /\ Forall neat chunks' /\ Forall wordlike cw'
      /\ nows (concat chunks') ++ concat cw'
         = nows (concat chunks) ++ concat cw ++ concat words.
Proof.
  induction 1 as [|w words Hw Hws IH]; intros chunks cw cl Hc Hcw.
  - exists chunks, cw, cl. simpl. rewrite app_nil_r. auto.
  - cbn [fold_left]. unfold words_step at 2.
    destruct (truthy cw && (max_length <? cl + (if negb (truthy cw) then len w else len w + 1))).
    + destruct (IH (flush_words chunks cw) [w] (len w)) as [c' [w' [l' [H1 [H2 [H3 H4]]]]]].
      * apply flush_words_neat, Hc.
      * constructor; [exact Hw | constructor].
      * exists c', w', l'. split; [exact H1|]. split; [exact H2|]. split; [exact H3|].
        rewrite H4, flush_words_nows by exact Hcw. simpl.
        rewrite app_nil_r, <- !app_assoc. reflexivity.
    + destruct (IH chunks (cw ++ [w])
                  (cl + (if negb (truthy cw) then len w else len w + 1)))
        as [c' [w' [l' [H1 [H2 [H3 H4]]]]]].
      * exact Hc.
      * apply Forall_app. split; [exact Hcw|]. constructor; [exact Hw | constructor].
      * exists c', w', l'. split; [exact H1|]. split; [exact H2|]. split; [exact H3|].
        rewrite H4, concat_app. simpl. rewrite app_nil_r, <- !app_assoc. reflexivity.
Qed.

Lemma refine_chunks_ok max_length :
  1 <= max_length ->
  forall chunks refined,
    Forall neat chunks -> Forall (good_chunk max_length) refined ->
    exists out,
      refine_chunks chunks max_length refined = Some out
      /\ Forall (good_chunk max_length) out
      /\ nows (concat out) = nows (concat refined) ++ nows (concat chunks).
Proof.
  intros Hm. induction chunks as [|c chunks IH]; intros refined Hc Hr.
  - exists refined. simpl. rewrite app_nil_r. auto.
  - inversion Hc as [|? ? Hn Hc']; subst. cbn [refine_chunks].
    destruct (max_length <? len c) eqn:E.
    + destruct (chunk_hierarchical_ok c max_length Hm) as [sub [S1 [S2 S3]]].
      rewrite S1. cbn [bind].
      destruct (IH (refined ++ sub) Hc') as [out [O1 [O2 O3]]].
      { apply Forall_app. auto. }
      exists out. split; [exact O1|]. split; [exact O2|].
      rewrite O3, nows_concat_app, S3. simpl. rewrite nows_app, <- app_assoc. reflexivity.
    + apply Z.ltb_ge in E.
      destruct (IH (refined ++ [c]) Hc') as [out [O1 [O2 O3]]].
      { apply Forall_app. split; [exact Hr|]. constructor; [|constructor].
        destruct Hn. split; auto. }
      exists out. split; [exact O1|]. split; [exact O2|].
      rewrite O3, nows_concat_app. simpl.
      rewrite app_nil_r, nows_app, <- app_assoc. reflexivity.
Qed.

Lemma chunk_by_words_ok text max_length :
  1 <= max_length ->
  exists out,
    _chunk_by_words text max_length = Some out
    /\ Forall (good_chunk max_length) out
    /\ nows (concat out) = nows text.
Proof.
  intros Hm. unfold _chunk_by_words.
  pose proof (split_ws_wordlike text) as Hw.
  pose proof (split_ws_concat text) as Hcat.
  destruct (truthy (split_ws text)) eqn:T; cbn [negb].
  2:{ apply truthy_false in T. rewrite T in Hcat. exists []. simpl in *. auto. }
  destruct (words_fold_inv max_length (split_ws text) Hw [] [] 0)
    as [c' [w' [l' [H1 [H2 [H3 H4]]]]]]; [constructor | constructor |].
  rewrite H1. simpl in H4. rewrite Hcat in H4.
  destruct (truthy w') eqn:Tw.
  - destruct (refine_chunks_ok max_length Hm (flush_words c' w') [])
      as [out [O1 [O2 O3]]]; [apply flush_words_neat, H2 | constructor |].
    exists out. split; [exact O1|]. split; [exact O2|].
    rewrite O3. simpl. rewrite flush_words_nows by exact H3. exact H4.
  - apply truthy_false in Tw. subst w'. simpl in H4. rewrite app_nil_r in H4.
    destruct (refine_chunks_ok max_length Hm c' []) as [out [O1 [O2 O3]]];
      [exact H2 | constructor |].
    exists out. split; [exact O1|]. split; [exact O2|].
    rewrite O3. simpl. exact H4.
Qed.

(** ** Paragraph breaks *)

Lemma isspace_NL c : (c =? NL)%N = true -> isspace c = true.
Proof. intros H. apply N.eqb_eq in H. subst c. reflexivity. Qed.

Lemma ws_run_last_nl_spec s n :
  ws_run_last_nl s = Some n ->
  (1 <= n <= length s)%nat /\ forallb isspace (firstn n s) = true.
Proof.
  revert n. induction s as [|c s IH]; intros n; simpl; [discriminate|].
  destruct (isspace c) eqn:E; [|discriminate].
  destruct (ws_run_last_nl s) as [m|].
  - intros [= <-]. destruct (IH m eq_refl) as [H1 H2].
    split; [lia|]. simpl. rewrite E, H2. reflexivity.
  - destruct (c =? NL)%N; [|discriminate]. intros [= <-].
    split; [lia|]. simpl. rewrite E. destruct s; reflexivity.
Qed.

Lemma para_match_spec s n :
  para_match s = Some n ->
  (2 <= n <= length s)%nat /\ forallb isspace (firstn n s) = true.
Proof.
  destruct s as [|c s]; simpl; [discriminate|].
  destruct (c =? NL)%N eqn:E; [|discriminate].
  destruct (ws_run_last_nl s) as [m|] eqn:R; [|discriminate].
  intros [= <-]. destruct (ws_run_last_nl_spec s m R) as [H1 H2].
  split; [lia|]. simpl. rewrite (isspace_NL c E), H2. reflexivity.
Qed.

Lemma nows_cons_space c s : isspace c = true -> nows (c :: s) = nows s.
Proof. intros E. unfold nows. simpl. rewrite E. reflexivity. Qed.

Lemma nows_cons_visible c s : isspace c = false -> nows (c :: s) = c :: nows s.
Proof. intros E. unfold nows. simpl. rewrite E. reflexivity. Qed.

Lemma nows_snoc s c : nows (s ++ [c]) = nows s ++ nows [c].
Proof. apply nows_app. Qed.

(** Splitting at paragraph breaks removes whitespace only. *)
Lemma para_split_aux_nows s :
  forall skip cur,
    forallb isspace (firstn skip s) = true ->
    nows (concat (para_split_aux s skip cur)) = nows (rev cur) ++ nows s.
Proof.
  induction s as [|c s IH]; intros skip cur Hs.
  - simpl. rewrite !app_nil_r. reflexivity.
  - destruct skip as [|k].
    + cbn [para_split_aux].
      destruct (para_match (c :: s)) as [n|] eqn:M.
      * destruct (para_match_spec _ _ M) as [Hn Hw].
        destruct n as [|n]; [lia|]. simpl in Hw.
        apply andb_prop in Hw. destruct Hw as [Hc Hw].
        cbn [concat]. rewrite nows_app, IH.
        -- rewrite (nows_cons_space c s Hc). reflexivity.
        -- replace (S n - 1)%nat with n by lia. exact Hw.
      * rewrite IH by reflexivity. simpl rev. rewrite nows_app, <- app_assoc.
        f_equal. unfold nows. simpl. destruct (isspace c); reflexivity.
    + simpl in Hs. apply andb_prop in Hs. destruct Hs as [Hc Hs].
      cbn [para_split_aux]. rewrite IH by exact Hs.
      rewrite (nows_cons_space c s Hc). reflexivity.
Qed.

Lemma para_split_nows s : nows (concat (para_split s)) = nows s.
Proof. unfold para_split. rewrite para_split_aux_nows; reflexivity. Qed.

(** Trimming the pieces and dropping the blank ones removes whitespace only. *)
Lemma nows_strip_nonblank (l : list str) :
  nows (concat (map strip (filter (fun x => truthy (strip x)) l))) = nows (concat l).
Proof.
  induction l as [|x l IH]; [reflexivity|].
  simpl. destruct (truthy (strip x)) eqn:E; simpl.
  - rewrite !nows_app, IH, nows_strip. reflexivity.
  - apply truthy_false in E. rewrite nows_app, IH, <- (nows_strip x), E. reflexivity.
Qed.

Lemma strip_nonblank_neat (l : list str) :
  Forall neat (map strip (filter (fun x => truthy (strip x)) l)).
Proof.
  induction l as [|x l IH]; [constructor|].
  simpl. destruct (truthy (strip x)) eqn:E; [|exact IH].
  simpl. constructor; [apply neat_strip, E | exact IH].
Qed.

(** ** The paragraph strategy *)

Lemma paragraphs_loop_ok max_length :
  1 <= max_length ->
  forall paragraphs chunks current,
    Forall (good_chunk max_length) chunks ->
    exists chunks' current',
      paragraphs_loop paragraphs max_length chunks current = Some (chunks', current')
      /\ Forall (good_chunk max_length) chunks'
      /\ nows (concat chunks') ++ nows_opt current'
         = nows (concat chunks) ++ nows_opt current ++ nows (concat paragraphs).
Proof.
  intros Hm. induction paragraphs as [|p ps IH]; intros chunks current Hc.
  - exists chunks, current. simpl. rewrite app_nil_r. auto.
  - cbn [paragraphs_loop]. destruct current as [cur|].
    + destruct (len (cur ++ PARA_BREAK ++ p) <=? max_length).
      * destruct (IH chunks (Some (cur ++ PARA_BREAK ++ p)) Hc) as [c' [k' [H1 [H2 H3]]]].
        exists c', k'. split; [exact H1|]. split; [exact H2|].
        rewrite H3. simpl. rewrite !nows_app, <- !app_assoc. reflexivity.
      * destruct (chunk_hierarchical_ok cur max_length Hm) as [sub [S1 [S2 S3]]].
        rewrite S1. cbn [bind].
        destruct (IH (chunks ++ sub) (Some p)) as [c' [k' [H1 [H2 H3]]]].
        { apply Forall_app. auto. }
        exists c', k'. split; [exact H1|]. split; [exact H2|].
        rewrite H3, nows_concat_app, S3. simpl.
        rewrite !nows_app, <- !app_assoc. reflexivity.
    + destruct (IH chunks (Some p) Hc) as [c' [k' [H1 [H2 H3]]]].
      exists c', k'. split; [exact H1|]. split; [exact H2|].
      rewrite H3. simpl. rewrite nows_app. reflexivity.
Qed.

Lemma chunk_by_paragraphs_ok text max_length :
  1 <= max_length ->
  exists out,
    _chunk_by_paragraphs text max_length = Some out
    /\ Forall (good_chunk max_length) out
    /\ nows (concat out) = nows text.
Proof.
  intros Hm. unfold _chunk_by_paragraphs.
  set (paragraphs := map strip (filter (fun segment => truthy (strip segment))
                                       (para_split text))).
  assert (Hp : nows (concat paragraphs) = nows text).
  { unfold paragraphs. rewrite nows_strip_nonblank. apply para_split_nows. }
  destruct (truthy paragraphs); cbn [negb].
  2:{ apply chunk_hierarchical_ok, Hm. }
  destruct (paragraphs_loop_ok max_length Hm paragraphs [] None) as [c' [k' [H1 [H2 H3]]]];
    [constructor|].
  rewrite H1. cbn [bind]. simpl in H3. rewrite Hp in H3.
  destruct k' as [cur|].
  - destruct (truthy cur) eqn:T.
    + destruct (chunk_hierarchical_ok cur max_length Hm) as [sub [S1 [S2 S3]]].
      rewrite S1. cbn [bind]. exists (c' ++ sub).
      split; [reflexivity|]. split; [apply Forall_app; auto|].
      rewrite nows_concat_app, S3. exact H3.
    + apply truthy_false in T. subst cur. simpl in H3. rewrite app_nil_r in H3.
      exists c'. auto.
  - simpl in H3. rewrite app_nil_r in H3. exists c'. auto.
Qed.

(** ** Fixed-size windows *)

Lemma slice_window {A} (s : list A) i k :
  0 <= i -> 0 <= k ->
  slice s i (i + k) = firstn (Z.to_nat k) (skipn (Z.to_nat i) s).
Proof.
  intros Hi Hk. unfold slice, norm_index.
  destruct (i <? 0) eqn:E1; [lia|]. destruct (i + k <? 0) eqn:E2; [lia|].
  destruct (Z_le_gt_dec i (len s)) as [H|H].
  - rewrite (Z.min_l i) by lia.
    destruct (Z_le_gt_dec (i + k) (len s)) as [H'|H'].
    + rewrite Z.min_l by lia. do 2 f_equal. lia.
    + rewrite Z.min_r by lia.
      rewrite !firstn_all2; [reflexivity | |]; rewrite length_skipn; unfold len in *; lia.
  - rewrite !Z.min_r by lia. rewrite Z.sub_diag. simpl.
    rewrite (skipn_all2 s) by (unfold len in *; lia).
    rewrite firstn_nil. reflexivity.
Qed.

Lemma py_range_pos stop step :
  0 < step ->
  py_range 0 stop step
  = Some (map (fun k => step * Z.of_nat k) (seq 0 (Z.to_nat ((stop + step - 1) / step)))).
Proof.
  intros H. unfold py_range.
  destruct (step =? 0) eqn:E; [lia|].
  destruct (0 <? step) eqn:E'; [|lia].
  rewrite Z.sub_0_r. reflexivity.
Qed.

Lemma windows_concat {A} (k : nat) :
  (1 <= k)%nat ->
  forall n (s : list A),
    (length s <= n * k)%nat ->
    concat (map (fun j => firstn k (skipn (k * j) s)) (seq 0 n)) = s.
Proof.
  intros Hk. induction n as [|n IH]; intros s Hs.
  - destruct s; [reflexivity | simpl in Hs; lia].
  - cbn [seq map concat]. rewrite <- seq_shift, map_map.
    rewrite Nat.mul_0_r. cbn [skipn].
    transitivity (firstn k s ++ skipn k s); [|apply firstn_skipn]. f_equal.
    rewrite <- (IH (skipn k s)) at 1 by (rewrite length_skipn; lia).
    f_equal. apply map_ext. intros j. rewrite skipn_skipn. do 2 f_equal. lia.
Qed.

Lemma ceil_count n k : 0 <= n -> 0 < k -> n <= (n + k - 1) / k * k.
Proof.
  intros Hn Hk.
  pose proof (Z.div_mod (n + k - 1) k ltac:(lia)).
  pose proof (Z.mod_pos_bound (n + k - 1) k Hk). nia.
Qed.

Lemma fixed_windows_eq cleaned m :
  0 < m ->
  fixed_windows cleaned m
  = Some (map (fun j => firstn (Z.to_nat m) (skipn (Z.to_nat m * j) cleaned))
              (seq 0 (Z.to_nat ((len cleaned + m - 1) / m)))).
Proof.
  intros Hm. unfold fixed_windows. rewrite py_range_pos by exact Hm.
  cbn [bind]. rewrite map_map. f_equal. apply map_ext. intros j.
  rewrite slice_window by lia. do 2 f_equal. lia.
Qed.

Lemma fixed_windows_concat cleaned m windows :
  0 < m -> fixed_windows cleaned m = Some windows -> concat windows = cleaned.
Proof.
  intros Hm. rewrite fixed_windows_eq by exact Hm. intros [= <-].
  apply windows_concat; [lia|].
  pose proof (ceil_count (len cleaned) m (len_nonneg _) Hm).
  pose proof (Z.div_pos (len cleaned + m - 1) m
                ltac:(pose proof (len_nonneg cleaned); lia) Hm).
  unfold len in *. nia.
Qed.

Lemma fixed_windows_len cleaned m windows :
  0 < m -> fixed_windows cleaned m = Some windows ->
  Forall (fun w : str => len w <= m) windows.
Proof.
  intros Hm. rewrite fixed_windows_eq by exact Hm. intros [= <-].
  apply Forall_map, Forall_forall. intros j _.
  unfold len. rewrite length_firstn. lia.
Qed.

(** ** Every strategy of [chunk_text] *)

Lemma effective_max_pos cfg m :
  1 <= m -> 1 <= effective_max_of cfg m <= m.
Proof.
  intros Hm. unfold effective_max_of.
  destruct (Z.min m (MAX_TOTAL_LENGTH cfg - 100) <=? 0) eqn:E; [lia|].
  apply Z.leb_gt in E. lia.
Qed.

Lemma chunk_text_fixed_ok cleaned m windows :
  0 < m -> fixed_windows cleaned m = Some windows ->
  Forall (good_chunk m) (map strip (filter (fun chunk => truthy (strip chunk)) windows))
  /\ nows (concat (map strip (filter (fun chunk => truthy (strip chunk)) windows)))
     = nows cleaned.
Proof.
  intros Hm Hw. split.
  - pose proof (fixed_windows_len cleaned m windows Hm Hw) as Hl.
    clear Hw. induction Hl as [|w ws Hw Hws IH]; [constructor|].
    simpl. destruct (truthy (strip w)) eqn:T; [|exact IH].
    simpl. constructor; [|exact IH].
    destruct (neat_strip w T) as [N1 N2]. split; [|split; assumption].
    pose proof (len_strip w). lia.
  - rewrite nows_strip_nonblank, (fixed_windows_concat cleaned m windows Hm Hw).
    reflexivity.
Qed.

(** For a positive resolved limit every strategy returns chunks that are
    non-empty, trimmed and within the effective limit, and that carry the
    content of the text in order. *)
Lemma chunk_text_ok cfg text strategy max_length :
  1 <= resolved_max cfg max_length ->
  exists out,
    chunk_text cfg text strategy max_length = Some out
    /\ Forall (good_chunk (effective_max_of cfg (resolved_max cfg max_length))) out
    /\ nows (concat out) = nows text.
Proof.
  intros Hr. unfold chunk_text.
  destruct (effective_max_pos cfg _ Hr) as [He _].
  set (m := effective_max_of cfg (resolved_max cfg max_length)) in *.
  destruct (truthy (strip text)) eqn:T; cbn [negb].
  2:{ exists []. split; [reflexivity|]. split; [constructor|].
      apply truthy_false in T. rewrite <- (nows_strip text), T. reflexivity. }
  rewrite <- (nows_strip text).
  destruct (str_eqb _ (lit "fixed")).
  { rewrite fixed_windows_eq by lia. cbn [bind].
    destruct (chunk_text_fixed_ok (strip text) m _ ltac:(lia)
                (fixed_windows_eq (strip text) m ltac:(lia))) as [H1 H2].
    eexists. split; [reflexivity|]. split; [exact H1 | exact H2]. }
  destruct (str_eqb _ (lit "paragraph")).
  { apply chunk_by_paragraphs_ok, He. }
  destruct (str_eqb _ (lit "word")).
  { apply chunk_by_words_ok, He. }
  apply chunk_hierarchical_ok, He.
Qed.

(** ** Subsequences *)

Lemma subseq_refl {A} (a : list A) : subseq a a.
Proof. induction a; [apply subseq_nil | apply subseq_take; assumption]. Qed.

Lemma subseq_nil_l {A} (b : list A) : subseq [] b.
Proof. induction b; [apply subseq_nil | apply subseq_skip; assumption]. Qed.

Lemma subseq_app {A} (a b c d : list A) :
  subseq a b -> subseq c d -> subseq (a ++ c) (b ++ d).
Proof.
  induction 1 as [|a b x H IH|a b x H IH]; intros Hcd; simpl.
  - exact Hcd.
  - apply subseq_skip, IH, Hcd.
  - apply subseq_take, IH, Hcd.
Qed.

Lemma subseq_trans {A} (a b c : list A) : subseq a b -> subseq b c -> subseq a c.
Proof.
  intros H1 H2. revert a H1. induction H2 as [|b c x H2 IH|b c x H2 IH]; intros a H1.
  - exact H1.
  - apply subseq_skip. apply IH, H1.
  - inversion H1; subst; [apply subseq_skip | apply subseq_take]; apply IH; assumption.
Qed.

Lemma subseq_skip_app {A} (a b x : list A) : subseq a b -> subseq a (x ++ b).
Proof. intros H. induction x; simpl; [exact H | apply subseq_skip; exact IHx]. Qed.

Lemma subseq_filter {A} (f : A -> bool) (a b : list A) :
  subseq a b -> subseq (filter f a) (filter f b).
Proof.
  induction 1 as [|a b x H IH|a b x H IH]; simpl.
  - constructor.
  - destruct (f x); [apply subseq_skip|]; exact IH.
  - destruct (f x); [apply subseq_take|]; exact IH.
Qed.

Lemma subseq_nows a b : subseq a b -> subseq (nows a) (nows b).
Proof. apply subseq_filter. Qed.

Lemma subseq_eq {A} (a b : list A) : a = b -> subseq a b.
Proof. intros ->. apply subseq_refl. Qed.

(** ** The streaming splitter: words and fixed windows *)

Lemma range_windows word m :
  0 < m ->
  exists idx,
    py_range 0 (len word) m = Some idx
    /\ concat (map (fun i => slice word i (i + m)) idx) = word
    /\ Forall (fun w : str => len w <= m) (map (fun i => slice word i (i + m)) idx).
Proof.
  intros Hm.
  pose proof (fixed_windows_concat word m) as Hc.
  pose proof (fixed_windows_len word m) as Hl.
  unfold fixed_windows in *. rewrite py_range_pos in * by exact Hm.
  cbn [bind] in *. eexists. split; [reflexivity|]. split; [apply Hc | apply Hl]; auto.
Qed.

Lemma flush_within max_length chunks cur :
  Forall (fun c : str => len c <= max_length) chunks -> len cur <= max_length ->
  Forall (fun c : str => len c <= max_length) (flush (chunks, cur)).
Proof.
  intros Hc Hk. unfold flush. destruct (truthy cur); [|exact Hc].
  apply Forall_app. split; [exact Hc|]. constructor; [|constructor].
  pose proof (len_strip cur). lia.
Qed.

Lemma flush_nows chunks cur :
  nows (concat (flush (chunks, cur))) = nows (concat chunks) ++ nows cur.
Proof.
  unfold flush. destruct (truthy cur) eqn:T.
  - rewrite nows_concat_app. simpl. rewrite app_nil_r, nows_strip. reflexivity.
  - apply truthy_false in T. subst cur. simpl. rewrite app_nil_r. reflexivity.
Qed.

Lemma final_filter_nows chunks : nows (concat (final_filter chunks)) = nows (concat chunks).
Proof.
  induction chunks as [|c chunks IH]; [reflexivity|].
  unfold final_filter in *. simpl. destruct (truthy (strip c)) eqn:T; simpl.
  - rewrite !nows_app, IH. reflexivity.
  - apply truthy_false in T. rewrite nows_app, IH, <- (nows_strip c), T. reflexivity.
Qed.

Lemma final_filter_ok max_length chunks :
  Forall (fun c : str => len c <= max_length) chunks ->
  Forall (stream_ok max_length) (final_filter chunks).
Proof.
  induction 1 as [|c chunks Hc _ IH]; [constructor|].
  unfold final_filter in *. simpl. destruct (truthy (strip c)) eqn:T; [|exact IH].
  constructor; [split; assumption | exact IH].
Qed.

Lemma stream_ok_within max_length chunks :
  Forall (stream_ok max_length) chunks -> Forall (fun c : str => len c <= max_length) chunks.
Proof. apply Forall_impl. intros c [H _]. exact H. Qed.

Lemma nows_idem s : nows (nows s) = nows s.
Proof.
  induction s as [|c s IH]; [reflexivity|].
  destruct (isspace c) eqn:E.
  - rewrite (nows_cons_space c s E). exact IH.
  - rewrite (nows_cons_visible c s E), (nows_cons_visible c _ E), IH. reflexivity.
Qed.

Lemma split_words_fold max_length :
  0 < max_length ->
  forall words chunks cur,
    Forall (fun c : str => len c <= max_length) chunks -> len cur <= max_length ->
    exists chunks' cur',
      fold_left (split_words_step max_length) words (Some (chunks, cur))
      = Some (chunks', cur')
      /\ Forall (fun c : str => len c <= max_length) chunks' /\ len cur' <= max_length
      /\ nows (concat chunks') ++ nows cur'
         = nows (concat chunks) ++ nows cur ++ nows (concat words).
Proof.
  intros Hm. induction words as [|w words IH]; intros chunks cur Hc Hk.
  - exists chunks, cur. simpl. rewrite app_nil_r. auto.
  - cbn [fold_left]. unfold split_words_step at 2. cbn [bind].
    destruct (len cur + len w + 1 <=? max_length) eqn:E.
    + apply Z.leb_le in E.
      destruct (IH chunks (if truthy cur then cur ++ [SPACE] ++ w else w) Hc)
        as [c' [k' [H1 [H2 [H3 H4]]]]].
      { destruct (truthy cur); rewrite ?len_app; pose proof (len_nonneg cur);
          change (len [SPACE]) with 1; lia. }
      exists c', k'. split; [exact H1|]. split; [exact H2|]. split; [exact H3|].
      rewrite H4. simpl concat. rewrite (nows_app w). f_equal.
      destruct (truthy cur) eqn:T.
      * rewrite !nows_app. simpl. rewrite <- app_assoc. reflexivity.
      * apply truthy_false in T. subst cur. reflexivity.
    + destruct (max_length <? len w) eqn:L.
      * destruct (range_windows w max_length Hm) as [idx [R1 [R2 R3]]].
        rewrite R1. cbn [bind].
        destruct (IH (flush (chunks, cur)
                        ++ map (fun i => slice w i (i + max_length)) idx) [])
          as [c' [k' [H1 [H2 [H3 H4]]]]].
        { apply Forall_app. split; [apply flush_within; assumption | exact R3]. }
        { rewrite len_nil. lia. }
        exists c', k'. split; [exact H1|]. split; [exact H2|]. split; [exact H3|].
        rewrite H4, nows_concat_app, flush_nows, R2. simpl.
        rewrite nows_app, <- !app_assoc. reflexivity.
      * apply Z.ltb_ge in L.
        destruct (IH (flush (chunks, cur)) w) as [c' [k' [H1 [H2 [H3 H4]]]]].
        { apply flush_within; assumption. }
        { exact L. }
        exists c', k'. split; [exact H1|]. split; [exact H2|]. split; [exact H3|].
        rewrite H4, flush_nows. simpl. rewrite nows_app, <- !app_assoc. reflexivity.
Qed.

Lemma split_by_words_ok text max_length :
  0 < max_length ->
  exists out,
    _split_by_words text max_length = Some out
    /\ Forall (stream_ok max_length) out
    /\ nows (concat out) = nows text.
Proof.
  intros Hm. unfold _split_by_words.
  destruct (split_words_fold max_length Hm (split_ws text) [] [])
    as [c' [k' [H1 [H2 [H3 H4]]]]]; [constructor | rewrite len_nil; lia |].
  rewrite H1. cbn [bind]. eexists. split; [reflexivity|]. split.
  - apply final_filter_ok, flush_within; assumption.
  - rewrite final_filter_nows, flush_nows, H4. simpl.
    rewrite split_ws_concat. apply nows_idem.
Qed.

(** ** The streaming splitter: long sentences *)

Lemma prefixb_app p s : prefixb p s = true -> s = p ++ skipn (length p) s.
Proof.
  revert s. induction p as [|a p IH]; intros s; [reflexivity|].
  destruct s as [|b s]; cbn [prefixb]; [discriminate|].
  intros H. apply andb_prop in H. destruct H as [H1 H2].
  apply N.eqb_eq in H1. subst b. simpl. f_equal. apply IH, H2.
Qed.

Lemma prefixb_length p s : prefixb p s = true -> (length p <= length s)%nat.
Proof.
  revert s. induction p as [|a p IH]; intros s; simpl; [lia|].
  destruct s as [|b s]; [discriminate|].
  intros H. apply andb_prop in H. destruct H as [_ H2]. simpl.
  apply IH in H2. lia.
Qed.

Lemma split_on_aux_join sep :
  sep <> [] ->
  forall s skip cur,
    (skip <= length s)%nat ->
    exists p ps,
      split_on_aux sep s skip cur = p :: ps
      /\ p ++ interleave sep ps = rev cur ++ skipn skip s.
Proof.
  intros Hsep. induction s as [|c s IH]; intros skip cur Hk.
  - exists (rev cur), []. simpl. rewrite skipn_nil. auto.
  - destruct skip as [|k]; cbn [split_on_aux].
    + destruct (prefixb sep (c :: s)) eqn:P.
      * pose proof (prefixb_length _ _ P) as L. simpl in L.
        assert (Hl : (1 <= length sep)%nat) by (destruct sep; [congruence | simpl; lia]).
        destruct (IH (length sep - 1)%nat [] ltac:(lia)) as [p [ps [H1 H2]]].
        exists (rev cur), (p :: ps). rewrite H1. split; [reflexivity|].
        unfold interleave in *. cbn [map concat]. rewrite <- app_assoc, H2.
        simpl rev. cbn [app skipn]. f_equal.
        transitivity (sep ++ skipn (length sep) (c :: s));
          [|symmetry; apply prefixb_app, P].
        f_equal. destruct (length sep) as [|n]; [lia|].
        simpl. rewrite Nat.sub_0_r. reflexivity.
      * destruct (IH 0%nat (c :: cur) ltac:(lia)) as [p [ps [H1 H2]]].
        exists p, ps. split; [exact H1|]. rewrite H2. simpl.
        rewrite <- app_assoc. reflexivity.
    + simpl in Hk. destruct (IH k cur ltac:(lia)) as [p [ps [H1 H2]]].
      exists p, ps. split; [exact H1|]. rewrite H2. reflexivity.
Qed.

Lemma split_on_join s sep :
  sep <> [] ->
  exists p ps, split_on s sep = p :: ps /\ p ++ interleave sep ps = s.
Proof.
  intros H. destruct (split_on_aux_join sep H s 0%nat [] ltac:(lia)) as [p [ps [H1 H2]]].
  exists p, ps. auto.
Qed.

Lemma parts_fold d max_length :
  forall parts nc cur,
    exists nc' cur',
      fold_left (parts_step d max_length) parts (nc, cur) = (nc', cur')
      /\ subseq (concat nc' ++ cur') (concat nc ++ cur ++ interleave d parts).
Proof.
  induction parts as [|p parts IH]; intros nc cur.
  - exists nc, cur. split; [reflexivity|]. unfold interleave. simpl.
    rewrite app_nil_r. apply subseq_refl.
  - cbn [fold_left]. unfold parts_step at 2.
    assert (G : forall nc1 cur1,
               subseq (concat nc1 ++ cur1) (concat nc ++ cur ++ d ++ p) ->
               exists nc' cur',
                 fold_left (parts_step d max_length) parts (nc1, cur1) = (nc', cur')
                 /\ subseq (concat nc' ++ cur')
                           (concat nc ++ cur ++ interleave d (p :: parts))).
    { intros nc1 cur1 Hs. destruct (IH nc1 cur1) as [nc' [cur' [H1 H2]]].
      exists nc', cur'. split; [exact H1|].
      eapply subseq_trans; [exact H2|].
      unfold interleave. cbn [map concat].
      replace (concat nc ++ cur ++ (d ++ p) ++ concat (map (fun p0 => d ++ p0) parts))
        with ((concat nc ++ cur ++ d ++ p) ++ concat (map (fun p0 => d ++ p0) parts))
        by (rewrite <- !app_assoc; reflexivity).
      rewrite app_assoc. apply subseq_app; [exact Hs | apply subseq_refl]. }
    destruct (len cur + len d + len p <=? max_length).
    + apply G. apply subseq_app; [apply subseq_refl|].
      apply subseq_app; [apply subseq_refl|].
      destruct (truthy cur); [apply subseq_refl|].
      simpl. apply subseq_skip_app, subseq_refl.
    + destruct (truthy cur) eqn:T.
      * apply G. rewrite concat_app. simpl. rewrite app_nil_r, <- app_assoc.
        apply subseq_app; [apply subseq_refl|].
        apply subseq_app; [apply subseq_refl|]. apply subseq_skip_app, subseq_refl.
      * apply G. apply truthy_false in T. subst cur. simpl.
        apply subseq_app; [apply subseq_refl|]. apply subseq_skip_app, subseq_refl.
Qed.

Lemma resplit_subseq d max_length nc chunk :
  d <> [] -> subseq (concat (resplit d max_length nc chunk)) (concat nc ++ chunk).
Proof.
  intros Hd. unfold resplit. destruct (len chunk <=? max_length).
  { rewrite concat_app. simpl. rewrite app_nil_r. apply subseq_refl. }
  destruct (split_on_join chunk d Hd) as [p [ps [H1 H2]]]. rewrite H1.
  cbn [fold_left].
  assert (F : parts_step d max_length (nc, []) p = (nc, p)).
  { unfold parts_step. destruct (len [] + len d + len p <=? max_length); reflexivity. }
  rewrite F. destruct (parts_fold d max_length ps nc p) as [nc' [cur' [E S1]]].
  rewrite E. rewrite H2 in S1.
  destruct (truthy cur') eqn:T.
  - rewrite concat_app. simpl. rewrite app_nil_r. exact S1.
  - apply truthy_false in T. subst cur'. rewrite app_nil_r in S1. exact S1.
Qed.

Lemma resplit_fold d max_length :
  d <> [] ->
  forall chunks acc,
    subseq (concat (fold_left (resplit d max_length) chunks acc))
           (concat acc ++ concat chunks).
Proof.
  intros Hd. induction chunks as [|c chunks IH]; intros acc.
  - simpl. rewrite app_nil_r. apply subseq_refl.
  - cbn [fold_left]. eapply subseq_trans; [apply IH|].
    simpl. rewrite app_assoc. apply subseq_app; [|apply subseq_refl].
    apply resplit_subseq, Hd.
Qed.

Lemma delimiters_fold max_length :
  forall ds chunks,
    Forall (fun d : str => d <> []) ds ->
    subseq
      (concat (fold_left
                 (fun chunks delimiter =>
                    fold_left (resplit delimiter max_length) chunks [])
                 ds chunks))
      (concat chunks).
Proof.
  induction ds as [|d ds IH]; intros chunks Hd.
  - apply subseq_refl.
  - inversion Hd as [|? ? H1 H2]; subst. cbn [fold_left].
    eapply subseq_trans; [apply IH, H2|].
    apply (resplit_fold d max_length H1 chunks []).
Qed.

Lemma long_sentence_delimiters_nonempty :
  Forall (fun d : str => d <> []) long_sentence_delimiters.
Proof. repeat constructor; discriminate. Qed.

Lemma words_fallback_ok max_length :
  0 < max_length ->
  forall chunks final,
    Forall (fun c : str => len c <= max_length) final ->
    exists out,
      words_fallback chunks max_length final = Some out
      /\ Forall (fun c : str => len c <= max_length) out
      /\ nows (concat out) = nows (concat final) ++ nows (concat chunks).
Proof.
  intros Hm. induction chunks as [|c chunks IH]; intros final Hf.
  - exists final. simpl. rewrite app_nil_r. auto.
  - cbn [words_fallback]. destruct (len c <=? max_length) eqn:E.
    + apply Z.leb_le in E.
      destruct (IH (final ++ [c])) as [out [O1 [O2 O3]]].
      { apply Forall_app. split; [exact Hf|]. constructor; [exact E | constructor]. }
      exists out. split; [exact O1|]. split; [exact O2|].
      rewrite O3, nows_concat_app. simpl.
      rewrite app_nil_r, nows_app, <- app_assoc. reflexivity.
    + destruct (split_by_words_ok c max_length Hm) as [wc [W1 [W2 W3]]].
      rewrite W1. cbn [bind].
      destruct (IH (final ++ wc)) as [out [O1 [O2 O3]]].
      { apply Forall_app. split; [exact Hf | apply stream_ok_within, W2]. }
      exists out. split; [exact O1|]. split; [exact O2|].
      rewrite O3, nows_concat_app, W3. simpl. rewrite nows_app, <- app_assoc.
      reflexivity.
Qed.

Lemma map_strip_final_filter_ok max_length chunks :
  Forall (fun c : str => len c <= max_length) chunks ->
  Forall (stream_ok max_length) (map strip (final_filter chunks)).
Proof.
  induction 1 as [|c chunks Hc _ IH]; [constructor|].
  unfold final_filter in *. simpl. destruct (truthy (strip c)) eqn:T; [|exact IH].
  simpl. constructor; [|exact IH]. split.
  - pose proof (len_strip c). lia.
  - apply nonblank_strip, T.
Qed.

Lemma split_long_sentence_ok sentence max_length :
  0 < max_length ->
  exists out,
    _split_long_sentence sentence max_length = Some out
    /\ Forall (stream_ok max_length) out
    /\ subseq (nows (concat out)) (nows sentence).
Proof.
  intros Hm. unfold _split_long_sentence.
  set (chunks := fold_left _ long_sentence_delimiters [sentence]).
  assert (Hs : subseq (concat chunks) sentence).
  { pose proof (delimiters_fold max_length long_sentence_delimiters [sentence]
                  long_sentence_delimiters_nonempty) as H.
    simpl concat in H at 2. rewrite app_nil_r in H. exact H. }
  destruct (words_fallback_ok max_length Hm chunks []) as [fc [F1 [F2 F3]]];
    [constructor|].
  rewrite F1. cbn [bind]. eexists. split; [reflexivity|]. split.
  - apply map_strip_final_filter_ok, F2.
  - unfold final_filter. rewrite nows_strip_nonblank, F3. simpl.
    apply subseq_nows, Hs.
Qed.

(** ** The streaming splitter: sentences and paragraphs *)

(** Splitting at sentence gaps removes whitespace only. *)
Lemma sentence_split_aux_nows s :
  forall prev in_match cur,
    nows (concat (sentence_split_aux s prev in_match cur)) = nows (rev cur) ++ nows s.
Proof.
  induction s as [|c s IH]; intros prev in_match cur.
  - simpl. rewrite !app_nil_r. reflexivity.
  - cbn [sentence_split_aux]. destruct (isspace c) eqn:E.
    + destruct in_match.
      * rewrite IH, (nows_cons_space c s E). reflexivity.
      * destruct (is_terminator prev).
        -- cbn [concat]. rewrite nows_app, IH, (nows_cons_space c s E). reflexivity.
        -- rewrite IH. simpl rev. rewrite nows_app, <- app_assoc,
             (nows_cons_space c s E). unfold nows at 2. simpl. rewrite E. reflexivity.
    + rewrite IH. simpl rev.
      rewrite nows_app, <- app_assoc, (nows_cons_visible c s E).
      unfold nows at 2. simpl. rewrite E. reflexivity.
Qed.

Lemma sentence_split_nows s : nows (concat (sentence_split s)) = nows s.
Proof. unfold sentence_split. rewrite sentence_split_aux_nows. reflexivity. Qed.

Lemma nows_blank s : truthy (strip s) = false -> nows s = [].
Proof.
  intros T. apply truthy_false in T. rewrite <- (nows_strip s), T. reflexivity.
Qed.

(** The invariant shared by the two greedy packers: [sep] is the whitespace
    put between merged pieces, [split_long] what takes over a piece that is
    itself too long. *)
Section Packer.

Variable max_length : Z.
Variable step : Z -> option pack_state -> str -> option pack_state.
Variable split_long : str -> Z -> option (list str).
Variable sep : str.
Variable extra : Z.

Hypothesis Hmax : 0 < max_length.
Hypothesis Hsep : nows sep = [].
Hypothesis Hextra : len sep <= extra.

Hypothesis step_eq :
  forall chunks current_chunk piece,
    step max_length (Some (chunks, current_chunk)) piece =
    let piece := strip piece in
    if negb (truthy piece) then Some (chunks, current_chunk)
    else if len current_chunk + len piece + extra <=? max_length then
      Some (chunks,
            if truthy current_chunk then current_chunk ++ sep ++ piece else piece)
    else
      let chunks := flush (chunks, current_chunk) in
      if max_length <? len piece then
        sub <- split_long piece max_length ;; Some (chunks ++ sub, [])
      else Some (chunks, piece).

Hypothesis split_long_ok :
  forall piece,
    exists out,
      split_long piece max_length = Some out
      /\ Forall (stream_ok max_length) out
      /\ subseq (nows (concat out)) (nows piece).

Lemma packer_fold :
  forall pieces chunks cur,
    Forall (fun c : str => len c <= max_length) chunks -> len cur <= max_length ->
    exists chunks' cur',
      fold_left (step max_length) pieces (Some (chunks, cur)) = Some (chunks', cur')
      /\ Forall (fun c : str => len c <= max_length) chunks'
      /\ len cur' <= max_length
      /\ subseq (nows (concat chunks') ++ nows cur')
                (nows (concat chunks) ++ nows cur ++ nows (concat pieces)).
Proof.
  induction pieces as [|p pieces IH]; intros chunks cur Hc Hk.
  - exists chunks, cur. simpl. rewrite app_nil_r. split; [reflexivity|].
    split; [exact Hc|]. split; [exact Hk | apply subseq_refl].
  - cbn [fold_left]. rewrite step_eq. cbv zeta.
    assert (G : forall chunks1 cur1,
               Forall (fun c : str => len c <= max_length) chunks1 ->
               len cur1 <= max_length ->
               subseq (nows (concat chunks1) ++ nows cur1)
                      (nows (concat chunks) ++ nows cur ++ nows p) ->
               exists chunks' cur',
                 fold_left (step max_length) pieces (Some (chunks1, cur1))
                 = Some (chunks', cur')
                 /\ Forall (fun c : str => len c <= max_length) chunks'
                 /\ len cur' <= max_length
                 /\ subseq (nows (concat chunks') ++ nows cur')
                           (nows (concat chunks) ++ nows cur
                              ++ nows (concat (p :: pieces)))).
    { intros chunks1 cur1 A1 A2 A3.
      destruct (IH chunks1 cur1 A1 A2) as [c' [k' [H1 [H2 [H3 H4]]]]].
      exists c', k'. split; [exact H1|]. split; [exact H2|]. split; [exact H3|].
      eapply subseq_trans; [exact H4|].
      simpl concat. rewrite (nows_app p).
      replace (nows (concat chunks) ++ nows cur ++ nows p ++ nows (concat pieces))
        with ((nows (concat chunks) ++ nows cur ++ nows p) ++ nows (concat pieces))
        by (rewrite <- !app_assoc; reflexivity).
      rewrite (app_assoc (nows (concat chunks1))).
      apply subseq_app; [exact A3 | apply subseq_refl]. }
    destruct (truthy (strip p)) eqn:T; cbn [negb].
    2:{ apply G; [exact Hc | exact Hk|].
        rewrite (nows_blank p T), app_nil_r. apply subseq_refl. }
    destruct (len cur + len (strip p) + extra <=? max_length) eqn:E.
    { apply Z.leb_le in E. apply G; [exact Hc | |].
      - destruct (truthy cur); rewrite ?len_app; pose proof (len_nonneg cur);
          pose proof (len_nonneg sep); lia.
      - apply subseq_app; [apply subseq_refl|]. apply subseq_eq.
        destruct (truthy cur) eqn:Tc.
        + rewrite !nows_app, Hsep, nows_strip. reflexivity.
        + apply truthy_false in Tc. subst cur. simpl. apply nows_strip. }
    destruct (max_length <? len (strip p)) eqn:L.
    + destruct (split_long_ok (strip p)) as [sub [S1 [S2 S3]]].
      rewrite S1. cbn [bind]. apply G.
      * apply Forall_app. split; [apply flush_within; assumption|].
        apply stream_ok_within, S2.
      * rewrite len_nil. lia.
      * replace (nows []) with (@nil char) by reflexivity.
        rewrite app_nil_r, nows_concat_app, flush_nows, <- app_assoc.
        apply subseq_app; [apply subseq_refl|].
        apply subseq_app; [apply subseq_refl|].
        rewrite nows_strip in S3. exact S3.
    + apply Z.ltb_ge in L. apply G.
      * apply flush_within; assumption.
      * exact L.
      * rewrite flush_nows, nows_strip, <- app_assoc. apply subseq_refl.
Qed.

Lemma packer_ok pieces :
  exists st,
    fold_left (step max_length) pieces (Some ([], [])) = Some st
    /\ Forall (stream_ok max_length) (final_filter (flush st))
    /\ subseq (nows (concat (final_filter (flush st)))) (nows (concat pieces)).
Proof.
  destruct (packer_fold pieces [] []) as [c' [k' [H1 [H2 [H3 H4]]]]];
    [constructor | rewrite len_nil; lia |].
  exists (c', k'). split; [exact H1|]. split.
  - apply final_filter_ok, flush_within; assumption.
  - rewrite final_filter_nows, flush_nows. exact H4.
Qed.

End Packer.

Lemma split_by_sentences_ok text max_length :
  0 < max_length ->
  exists out,
    _split_by_sentences text max_length = Some out
    /\ Forall (stream_ok max_length) out
    /\ subseq (nows (concat out)) (nows text).
Proof.
  intros Hm. unfold _split_by_sentences.
  destruct (packer_ok max_length sentences_step _split_long_sentence [SPACE] 1 Hm
              eq_refl ltac:(reflexivity || (cbv; discriminate))
              ltac:(intros; reflexivity)
              (fun piece => split_long_sentence_ok piece max_length Hm)
              (sentence_split (strip text))) as [st [H1 [H2 H3]]].
  rewrite H1. cbn [bind]. eexists. split; [reflexivity|]. split; [exact H2|].
  rewrite sentence_split_nows, nows_strip in H3. exact H3.
Qed.

Lemma split_by_paragraphs_ok text max_length :
  0 < max_length ->
  exists out,
    _split_by_paragraphs text max_length = Some out
    /\ Forall (stream_ok max_length) out
    /\ subseq (nows (concat out)) (nows text).
Proof.
  intros Hm. unfold _split_by_paragraphs.
  destruct (packer_ok max_length paragraphs_step _split_by_sentences PARA_BREAK 2 Hm
              eq_refl ltac:(cbv; discriminate)
              ltac:(intros; reflexivity)
              (fun piece => split_by_sentences_ok piece max_length Hm)
              (para_split (strip text))) as [st [H1 [H2 H3]]].
  rewrite H1. cbn [bind]. eexists. split; [reflexivity|]. split; [exact H2|].
  rewrite para_split_nows, nows_strip in H3. exact H3.
Qed.

Lemma split_by_fixed_size_ok text chunk_size :
  0 < chunk_size ->
  exists out,
    _split_by_fixed_size text chunk_size = Some out
    /\ Forall (stream_ok chunk_size) out
    /\ nows (concat out) = nows text.
Proof.
  intros Hm. unfold _split_by_fixed_size.
  destruct (range_windows text chunk_size Hm) as [idx [R1 [R2 R3]]].
  rewrite R1. cbn [bind]. eexists. split; [reflexivity|].
  assert (Hmap : map (fun i => strip (slice text i (i + chunk_size))) idx
                 = map strip (map (fun i => slice text i (i + chunk_size)) idx))
    by (rewrite map_map; reflexivity).
  rewrite Hmap. clear Hmap.
  set (windows := map (fun i => slice text i (i + chunk_size)) idx) in *.
  rewrite <- R2. clearbody windows. clear R1 R2. split.
  - induction R3 as [|w ws Hw _ IH]; [constructor|].
    simpl. destruct (truthy (strip w)) eqn:T; [|exact IH].
    constructor; [|exact IH]. split; [pose proof (len_strip w); lia|].
    apply nonblank_strip, T.
  - clear R3. induction windows as [|w ws IH]; [reflexivity|].
    simpl. destruct (truthy (strip w)) eqn:T; simpl.
    + rewrite !nows_app, IH, nows_strip. reflexivity.
    + rewrite nows_app, IH, (nows_blank w T). reflexivity.
Qed.

Lemma apply_quality_size n strategy quality :
  n <> 0 ->
  int_or (fst (apply_quality (Some n) strategy quality)) 200 = n.
Proof.
  intros Hn. unfold apply_quality.
  assert (E : int_or (Some n) 200 = n).
  { unfold int_or. destruct (n =? 0) eqn:E; [apply Z.eqb_eq in E; lia | reflexivity]. }
  assert (E' : forall d, int_or (Some (int_or (Some n) d)) 200 = n).
  { intros d. unfold int_or. destruct (n =? 0) eqn:E0; [apply Z.eqb_eq in E0; lia|].
    rewrite E0. reflexivity. }
  destruct (negb (truthy (str_or quality []))); [exact E|].
  destruct (str_eqb _ (lit "fast")); [apply E'|].
  destruct (str_eqb _ (lit "balanced")); [apply E'|].
  destruct (str_eqb _ (lit "high")); [apply E' | exact E].
Qed.

(** Every strategy of the streaming splitter, for a positive chunk size. *)
Lemma split_text_for_streaming_ok text chunk_size strategy quality :
  0 < chunk_size ->
  exists out,
    split_text_for_streaming text (Some chunk_size) strategy quality = Some out
    /\ Forall (stream_ok chunk_size) out
    /\ subseq (nows (concat out)) (nows text).
Proof.
  intros Hm. unfold split_text_for_streaming.
  pose proof (apply_quality_size chunk_size strategy quality ltac:(lia)) as Hq.
  destruct (apply_quality (Some chunk_size) strategy quality) as [cs st].
  simpl in Hq. rewrite Hq.
  destruct (str_eqb _ (lit "paragraph")); [apply split_by_paragraphs_ok, Hm|].
  destruct (str_eqb _ (lit "sentence")); [apply split_by_sentences_ok, Hm|].
  destruct (str_eqb _ (lit "word")).
  { destruct (split_by_words_ok text chunk_size Hm) as [out [H1 [H2 H3]]].
    exists out. split; [exact H1|]. split; [exact H2 | apply subseq_eq, H3]. }
  destruct (str_eqb _ (lit "fixed")).
  { destruct (split_by_fixed_size_ok text chunk_size Hm) as [out [H1 [H2 H3]]].
    exists out. split; [exact H1|]. split; [exact H2 | apply subseq_eq, H3]. }
  apply split_by_sentences_ok, Hm.
Qed.

Lemma resolved_max_some cfg m : 0 < m -> resolved_max cfg (Some m) = m.
Proof. intros H. unfold resolved_max. destruct (m <=? 0) eqn:E; [lia | reflexivity]. Qed.

Lemma good_chunk_nonblank max_length c : good_chunk max_length c -> nonblank c = true.
Proof.
  intros [_ [H1 H2]]. unfold nonblank. rewrite H2. apply truthy_true, H1.
Qed.

(** * Worked examples *)

Example hierarchical_example :
  _chunk_hierarchical (lit "hello world, this is a test of the splitter") 10
  = Some [lit "hello"; lit "world,"; lit "this is a"; lit "test of"; lit "the";
          lit "splitter"].
Proof. vm_compute. reflexivity. Qed.

Example hierarchical_zero_limit_example :
  _chunk_hierarchical (lit "abc def") 0 = None.
Proof. vm_compute. reflexivity. Qed.

Example para_ends_example :
  para_ends (lit "ab" ++ [NL; SPACE; NL; NL] ++ lit "cd" ++ [NL; NL]) = [6; 10].
Proof. vm_compute. reflexivity. Qed.

Example para_split_example :
  para_split (lit "ab" ++ [NL; SPACE; NL; NL] ++ lit "cd" ++ [NL; NL])
  = [lit "ab"; lit "cd"; []].
Proof. vm_compute. reflexivity. Qed.

Example sentence_split_example :
  sentence_split (lit "Hi.  Yo! a .b ? c. ")
  = [lit "Hi."; lit "Yo!"; lit "a .b ?"; lit "c."; []].
Proof. vm_compute. reflexivity. Qed.

Example chunk_text_paragraph_example :
  chunk_text sample_config
    (lit "ab" ++ [NL; NL] ++ lit "cd" ++ [NL; NL] ++ lit "efghijklmn op")
    (Some (lit "paragraph")) (Some 6)
  = Some [lit "ab" ++ [NL; NL] ++ lit "cd"; lit "efghij"; lit "klmn"; lit "op"].
Proof. vm_compute. reflexivity. Qed.

(** The streaming splitter leaves out the delimiter at which it breaks a
    long sentence (here ", " and " and "). *)
Example streaming_sentence_example :
  split_text_for_streaming
    (lit "Hello there, my friend and foe. This is it! Is it? yes")
    (Some 12) None None
  = Some [lit "Hello there"; lit "my friend"; lit "foe."; lit "This is it!";
          lit "Is it? yes"].
Proof. vm_compute. reflexivity. Qed.

Example long_text_record_example :
  option_map (map (fun r => (index r, character_count r)))
    (split_text_for_long_generation sample_config (lit "ab cdef") None None)
  = Some [(0, 7)].
Proof. vm_compute. reflexivity. Qed.

(** * Main results *)






Lemma effective_max_capped cfg requested :
  0 < requested -> effective_max_of cfg requested = capped_limit cfg requested.
Proof.
  intros H. unfold effective_max_of, capped_limit.
  destruct (Z.min requested (MAX_TOTAL_LENGTH cfg - 100) <=? 0) eqn:E1;
    destruct (0 <? Z.min requested (MAX_TOTAL_LENGTH cfg - 100)) eqn:E2;
    try reflexivity; lia.
Qed.

Lemma resolved_max_idem cfg max_length :
  0 < resolved_max cfg max_length ->
  resolved_max cfg (Some (resolved_max cfg max_length)) = resolved_max cfg max_length.
Proof. intros H. apply resolved_max_some, H. Qed.

Lemma enumerate_from_records (chunks : list str) (limit : Z) :
  Forall (fun c : str => len c <= limit) chunks ->
  forall i,
    Forall (fun r => character_count r <= limit /\ character_count r = len (text r))
           (map make_long_text_chunk (enumerate_from i chunks)).
Proof.
  induction 1 as [|c chunks Hc _ IH]; intros i; simpl; constructor.
  - simpl. split; [exact Hc | reflexivity].
  - apply IH.
Qed.

(** C8.  For every text and every [max_length >= 1] the hierarchical
    strategy terminates: with as many iterations as the text has characters
    the loop returns, and more iterations return the same chunks.  On a
    trimmed remaining text longer than the limit the split-point finder
    returns a non-empty head, the loop goes on with a strictly shorter
    remainder, and when no paragraph, sentence or clause boundary is
    admissible and no space lies before the limit the finder cuts at exactly
    [max_length]. *)
Theorem hierarchical_terminates :
  forall input max_length fuel,
    1 <= max_length -> (length input <= fuel)%nat ->
    (exists chunks,
        _chunk_hierarchical_fuel fuel input max_length = Some chunks
        /\ _chunk_hierarchical input max_length = Some chunks)
    /\ (forall remaining_text,
           strip remaining_text = remaining_text ->
           max_length < len remaining_text ->
           exists chunk remaining,
             _find_best_split_point remaining_text max_length 0 = (chunk, remaining)
             /\ chunk <> []
             /\ hierarchical_step remaining_text max_length = (chunk, Some remaining)
             /\ len remaining < len remaining_text)
    /\ (forall remaining_text,
           max_length < len remaining_text ->
           _try_split_at_paragraphs remaining_text max_length 0 = None ->
           _try_split_at_sentences remaining_text max_length 0 = None ->
           _try_split_at_clauses remaining_text max_length 0 = None ->
           rfind remaining_text [SPACE] 0 max_length = -1 ->
           _find_best_split_point remaining_text max_length 0
           = (strip (slice_to remaining_text max_length),
              strip (slice_from remaining_text max_length))).
Proof.
  intros input max_length fuel Hm Hf. split; [|split].
  - destruct (chunk_hierarchical_ok input max_length Hm) as [out [H1 _]].
    exists out. split; [|exact H1].
    unfold _chunk_hierarchical, _chunk_hierarchical_fuel in *.
    destruct (hierarchical_loop (length input) (strip input) max_length []) as [r|] eqn:E;
      [|discriminate].
    rewrite (hierarchical_loop_mono _ _ _ _ _ E fuel Hf). exact H1.
  - intros t Ht Hl.
    assert (Hne : t <> []) by (intros ->; rewrite len_nil in Hl; lia).
    pose proof (trimmed_head_ok t Ht) as Hh.
    destruct (find_best_split_point_cut t max_length Hm Hh Hl) as [b [Hb Hs]].
    rewrite split_pair_0 in Hs by lia.
    pose proof (strip_slice_to_nonempty t b Hh Hne (proj1 Hb)) as Hc.
    exists (strip (slice_to t b)), (strip (slice_from t b)).
    split; [exact Hs|]. split; [exact Hc|]. split.
    + unfold hierarchical_step.
      destruct (len t <=? max_length) eqn:E; [apply Z.leb_le in E; lia|].
      rewrite Hs. destruct (strip (slice_to t b)); [congruence | reflexivity].
    + pose proof (cut_shorter t b (proj1 Hb) Hne). unfold len. lia.
  - intros t Hl Hp Hs Hc Hr. unfold _find_best_split_point.
    destruct (len t <=? max_length) eqn:E; [apply Z.leb_le in E; lia|].
    rewrite Hp, Hs, Hc. unfold _split_at_words. rewrite E, Hr.
    change (-1 =? -1) with true. cbv iota. apply split_pair_0. lia.
Qed.

Lemma hierarchical_terminates_witness :
  1 <= 4 /\ (length (lit "abcdefghij k") <= 12)%nat
  /\ ((exists chunks,
          _chunk_hierarchical_fuel 12 (lit "abcdefghij k") 4 = Some chunks
          /\ _chunk_hierarchical (lit "abcdefghij k") 4 = Some chunks)
      /\ (forall remaining_text,
             strip remaining_text = remaining_text ->
             4 < len remaining_text ->
             exists chunk remaining,
               _find_best_split_point remaining_text 4 0 = (chunk, remaining)
               /\ chunk <> []
               /\ hierarchical_step remaining_text 4 = (chunk, Some remaining)
               /\ len remaining < len remaining_text)
      /\ (forall remaining_text,
             4 < len remaining_text ->
             _try_split_at_paragraphs remaining_text 4 0 = None ->
             _try_split_at_sentences remaining_text 4 0 = None ->
             _try_split_at_clauses remaining_text 4 0 = None ->
             rfind remaining_text [SPACE] 0 4 = -1 ->
             _find_best_split_point remaining_text 4 0
             = (strip (slice_to remaining_text 4),
                strip (slice_from remaining_text 4)))).
Proof.
  split; [lia|]. split; [vm_compute; lia|].
  apply (hierarchical_terminates (lit "abcdefghij k") 4 12); [lia | vm_compute; lia].
Defined.

(** ** Strategy names *)

Lemma str_eqb_eq a b : str_eqb a b = true <-> a = b.
Proof.
  revert b. induction a as [|x a IH]; intros [|y b]; simpl; split;
    try congruence; try discriminate.
  - intros H. apply andb_prop in H. destruct H as [H1 H2].
    apply N.eqb_eq in H1. apply IH in H2. congruence.
  - intros [= -> ->]. rewrite N.eqb_refl. apply IH. reflexivity.
Qed.

Lemma str_eqb_neq a b : a <> b -> str_eqb a b = false.
Proof.
  intros H. destruct (str_eqb a b) eqn:E; [|reflexivity].
  apply str_eqb_eq in E. contradiction.
Qed.




(** ** The fixed strategy *)

Lemma ceil_div_eq a b : 0 < b -> ceil_div a b = (a + b - 1) / b.
Proof.
  intros Hb. unfold ceil_div, Qceiling.
  assert (E : (- (inject_Z a / inject_Z b) == inject_Z (- a) / inject_Z b)%Q).
  { unfold Qdiv. rewrite inject_Z_opp. ring. }
  rewrite E, <- Zdiv_Qdiv.
  pose proof (Z.div_mod (a + b - 1) b ltac:(lia)) as D.
  pose proof (Z.mod_pos_bound (a + b - 1) b Hb) as M.
  assert (Q : - a / b = - ((a + b - 1) / b)).
  { symmetry. apply (Z.div_unique _ _ _ (b - 1 - (a + b - 1) mod b)); lia. }
  rewrite Q. lia.
Qed.

Lemma nth_error_map_seq {A} (f : nat -> A) n j w :
  nth_error (map f (seq 0 n)) j = Some w -> (j < n)%nat /\ w = f j.
Proof.
  intros H. assert (L : (j < n)%nat).
  { pose proof (nth_error_Some (map f (seq 0 n)) j) as T.
    rewrite length_map, length_seq in T. apply T. congruence. }
  split; [exact L|].
  rewrite nth_error_map, nth_error_seq in H.
  destruct (Nat.ltb j n) eqn:E; [|apply Nat.ltb_ge in E; lia].
  simpl in H. congruence.
Qed.

Lemma filter_all {A} (f : A -> bool) (l : list A) :
  Forall (fun x => f x = true) l -> filter f l = l.
Proof.
  induction 1 as [|x l Hx _ IH]; [reflexivity|]. simpl. rewrite Hx, IH. reflexivity.
Qed.

(** C4 (as amended).  Under the fixed strategy the trimmed text is cut into
    consecutive windows of exactly the effective limit (the last one may be
    shorter, none is empty); the windows concatenate to the trimmed text
    and there are ceil(len / limit) of them.  The chunks are the windows,
    trimmed, without the blank ones, so they spell the text up to
    whitespace; a text of 1000 characters after trimming, cut with limit
    100, has 10 windows, and 10 chunks when no window is blank. *)
Theorem fixed_strategy_windows :
  forall cfg input max_length,
    0 < max_length ->
    exists windows,
      fixed_windows (strip input) (capped_limit cfg max_length) = Some windows
      /\ concat windows = strip input
      /\ (forall j w,
             nth_error windows j = Some w ->
             w = slice (strip input) (capped_limit cfg max_length * Z.of_nat j)
                   (capped_limit cfg max_length * Z.of_nat j
                    + capped_limit cfg max_length)
             /\ len w = Z.min (capped_limit cfg max_length)
                          (len (strip input) - capped_limit cfg max_length * Z.of_nat j)
             /\ 0 < len w)
      /\ len windows = ceil_div (len (strip input)) (capped_limit cfg max_length)
      /\ chunk_text cfg input (Some (lit "fixed")) (Some max_length)
         = Some (map strip (filter nonblank windows))
      /\ nows (concat (map strip (filter nonblank windows))) = nows input
      /\ (len (strip input) = 1000 -> capped_limit cfg max_length = 100 ->
          len windows = 10
          /\ (Forall (fun w => nonblank w = true) windows ->
              len (map strip (filter nonblank windows)) = 10)).
Proof.
  intros cfg input max_length Hm.
  pose proof (effective_max_capped cfg max_length Hm) as Hcap.
  pose proof (effective_max_pos cfg max_length ltac:(lia)) as Hpos.
  rewrite Hcap in Hpos. set (m := capped_limit cfg max_length) in *.
  set (cleaned := strip input).
  pose proof (fixed_windows_eq cleaned m ltac:(lia)) as Hw.
  set (n := Z.to_nat ((len cleaned + m - 1) / m)) in *.
  set (windows := map (fun j => firstn (Z.to_nat m) (skipn (Z.to_nat m * j) cleaned))
                      (seq 0 n)) in *.
  assert (Hn : 0 <= (len cleaned + m - 1) / m).
  { apply Z.div_pos; [pose proof (len_nonneg cleaned)|]; lia. }
  assert (Hlen : len windows = ceil_div (len cleaned) m).
  { rewrite ceil_div_eq by lia. unfold windows. unfold len at 1.
    rewrite length_map, length_seq. unfold n. lia. }
  exists windows. split; [exact Hw|].
  split; [apply (fixed_windows_concat cleaned m); [lia | exact Hw]|].
  split.
  { intros j w Hj. apply nth_error_map_seq in Hj. destruct Hj as [Hj ->].
    pose proof (Z.div_mod (len cleaned + m - 1) m ltac:(lia)) as D.
    pose proof (Z.mod_pos_bound (len cleaned + m - 1) m ltac:(lia)) as M.
    assert (Hjm : m * Z.of_nat j < len cleaned) by (unfold n in Hj; nia).
    split; [|split].
    - rewrite slice_window by lia. do 2 f_equal. lia.
    - unfold len in *. rewrite length_firstn, length_skipn. lia.
    - unfold len in *. rewrite length_firstn, length_skipn. lia. }
  split; [exact Hlen|].
  assert (Hc : chunk_text cfg input (Some (lit "fixed")) (Some max_length)
               = Some (map strip (filter nonblank windows))).
  { unfold chunk_text. rewrite resolved_max_some, Hcap by exact Hm.
    fold m. fold cleaned.
    destruct (truthy cleaned) eqn:T; cbn [negb].
    - replace (str_eqb (lower (str_or (Some (lit "fixed")) (lit "sentence")))
                       (lit "fixed")) with true by reflexivity.
      rewrite Hw. reflexivity.
    - apply truthy_false in T.
      assert (L0 : len cleaned = 0) by (rewrite T; reflexivity).
      assert (W : windows = []).
      { apply length_zero_iff_nil. rewrite ceil_div_eq, L0 in Hlen by lia.
        rewrite Z.div_small in Hlen by lia. unfold len in Hlen. lia. }
      rewrite W. reflexivity. }
  split; [exact Hc|]. split.
  { unfold nonblank. rewrite nows_strip_nonblank.
    rewrite (fixed_windows_concat cleaned m windows ltac:(lia) Hw).
    apply nows_strip. }
  intros H1000 H100.
  assert (W10 : ceil_div (len cleaned) m = 10) by (rewrite H1000, H100; reflexivity).
  split; [exact (eq_trans Hlen W10)|].
  intros Hall. unfold len. rewrite length_map, (filter_all _ _ Hall).
  exact (eq_trans Hlen W10).
Qed.

(** C4, the claim as worded fails: a text of 1000 characters whose inner
    windows are blank gives fewer than ten chunks under limit 100. *)
Lemma fixed_1000_chars_two_chunks :
  ~ (forall cfg input chunks,
        len input = 1000 ->
        chunk_text cfg input (Some (lit "fixed")) (Some 100) = Some chunks ->
        len chunks = 10).
Proof.
  intros H.
  specialize (H sample_config (lit "a" ++ repeat SPACE 998 ++ lit "b")
                [lit "a"; lit "b"]
                ltac:(vm_compute; reflexivity) ltac:(vm_compute; reflexivity)).
  vm_compute in H. discriminate.
Qed.

Lemma fixed_strategy_windows_witness :
  0 < 3
  /\ exists windows,
      fixed_windows (strip (lit " abcdefgh ")) (capped_limit sample_config 3)
      = Some windows
      /\ concat windows = strip (lit " abcdefgh ")
      /\ (forall j w,
             nth_error windows j = Some w ->
             w = slice (strip (lit " abcdefgh "))
                   (capped_limit sample_config 3 * Z.of_nat j)
                   (capped_limit sample_config 3 * Z.of_nat j
                    + capped_limit sample_config 3)
             /\ len w = Z.min (capped_limit sample_config 3)
                          (len (strip (lit " abcdefgh "))
                           - capped_limit sample_config 3 * Z.of_nat j)
             /\ 0 < len w)
      /\ len windows
         = ceil_div (len (strip (lit " abcdefgh "))) (capped_limit sample_config 3)
      /\ chunk_text sample_config (lit " abcdefgh ") (Some (lit "fixed")) (Some 3)
         = Some (map strip (filter nonblank windows))
      /\ nows (concat (map strip (filter nonblank windows))) = nows (lit " abcdefgh ")
      /\ (len (strip (lit " abcdefgh ")) = 1000 ->
          capped_limit sample_config 3 = 100 ->
          len windows = 10
          /\ (Forall (fun w => nonblank w = true) windows ->
              len (map strip (filter nonblank windows)) = 10)).
Proof.
  split; [reflexivity|].
  apply (fixed_strategy_windows sample_config (lit " abcdefgh ") 3).
  reflexivity.
Defined.

(** ** The estimator *)

Lemma Qfloor_add_Z x k : Qfloor (x + inject_Z k) = Qfloor x + k.
Proof.
  destruct x as [n d]. unfold Qplus, inject_Z, Qfloor. simpl.
  rewrite Pos.mul_1_r, Z.mul_1_r. apply Z.div_add. lia.
Qed.

Lemma effective_chunk_size_eq cfg chunk_size :
  (let e := int_or chunk_size (LONG_TEXT_CHUNK_SIZE cfg) in
   if e <=? 0 then LONG_TEXT_CHUNK_SIZE cfg else e)
  = effective_chunk_size_of cfg chunk_size.
Proof.
  unfold effective_chunk_size_of, int_or. cbv zeta.
  destruct chunk_size as [c|].
  - destruct (Z.eqb_spec c 0), (Z.ltb_spec 0 c); try lia;
      repeat match goal with
             | |- context [?a <=? ?b] => destruct (Z.leb_spec a b)
             end; try reflexivity; lia.
  - destruct (LONG_TEXT_CHUNK_SIZE cfg <=? 0); reflexivity.
Qed.

Lemma estimate_binary64 cfg n (rate : float) cs :
  0 < effective_chunk_size_of cfg cs ->
  estimate_processing_time cfg n rate cs
  = binary64_estimate n rate
      (5 + 2 * num_chunks_of n (effective_chunk_size_of cfg cs) + 10).
Proof.
  intros He. unfold estimate_processing_time, binary64_estimate.
  destruct (float_of_int n) as [x|numerator]; [reflexivity|].
  destruct (float_div numerator rate) as [x|base_time]; [reflexivity|].
  pose proof (effective_chunk_size_eq cfg cs) as Ee. cbv zeta in Ee.
  rewrite Ee. clear Ee. set (e := effective_chunk_size_of cfg cs) in *.
  destruct (Z.eqb_spec e 0) as [E|_]; [lia|].
  unfold num_chunks_of. rewrite ceil_div_eq by exact He.
  replace (5 + Z.max 1 ((n + e - 1) / e) * 2 + 10)
    with (5 + 2 * Z.max 1 ((n + e - 1) / e) + 10) by lia.
  reflexivity.
Qed.

Lemma Qlt_0_inject z : (0 < inject_Z z)%Q <-> 0 < z.
Proof. unfold Qlt, inject_Z. simpl. lia. Qed.

(** Only a finite float with a clear sign bit has a positive value. *)
Lemma SF2Q_pos_inv (x : float) :
  (0 < SF2Q x)%Q -> exists m e, x = S754_finite false m e.
Proof.
  destruct x as [s|s| |s m e]; intros H;
    try (exfalso; exact (Qlt_irrefl 0 H)).
  destruct s; [exfalso | eauto].
  destruct e as [|p|p]; cbn [SF2Q] in H;
    change (cond_Zopp true (Zpos m)) with (Zneg m) in H.
  - apply (proj1 (Qlt_0_inject _)) in H. rewrite Z.pow_0_r in H. lia.
  - apply (proj1 (Qlt_0_inject _)) in H.
    pose proof (Z.pow_pos_nonneg 2 (Zpos p) ltac:(lia) ltac:(lia)). nia.
  - unfold Qlt in H. cbn [Qnum Qden] in H. lia.
Qed.

(** On a positive float [int] is the floor of its value. *)
Lemma int_of_float_pos (x : float) :
  (0 < SF2Q x)%Q -> int_of_float x = inr (Qfloor (SF2Q x)).
Proof.
  intros H. destruct (SF2Q_pos_inv x H) as [m [e ->]].
  cbn [int_of_float SF2Q cond_Zopp]. f_equal.
  destruct e as [|p|p].
  - rewrite Z.shiftl_0_r, Z.pow_0_r, Z.mul_1_r. symmetry. apply Qfloor_Z.
  - rewrite Z.shiftl_mul_pow2 by lia. symmetry. apply Qfloor_Z.
  - change (Z.shiftl (Zpos m) (Zneg p)) with (Z.shiftr (Zpos m) (Zpos p)).
    rewrite Z.shiftr_div_pow2 by lia. unfold Qfloor.
    rewrite Pos2Z.inj_pow. reflexivity.
Qed.

Lemma float_add_finite (a b : float) s m e :
  float_add a b = S754_finite s m e ->
  (forall s', a <> S754_infinity s') /\ (forall s', b <> S754_infinity s').
Proof.
  intros H. split; intros s' E; subst.
  - unfold float_add, SFadd in H. destruct b as [t|t| |t m' e'];
      try discriminate H. destruct s', t; discriminate H.
  - unfold float_add, SFadd in H. destruct a as [t|t| |t m' e'];
      try discriminate H. destruct t, s'; discriminate H.
Qed.

Lemma float_of_int_lit n :
  (forall s, float_lit n <> S754_infinity s) -> float_of_int n = inr (float_lit n).
Proof.
  intros H. unfold float_of_int. fold (float_lit n).
  destruct (float_lit n) as [s|s| |s m e]; try reflexivity.
  exfalso. exact (H s eq_refl).
Qed.

Lemma SFdiv_infinity_l s (y : float) m e :
  y = S754_finite false m e -> SFdiv prec emax (S754_infinity s) y = S754_infinity s.
Proof. intros ->. cbn [SFdiv]. destruct s; reflexivity. Qed.



(** The float sum of the example carries no rounding error, so the exact
    formula applies to it. *)
Example estimate_example_is_exact :
  (0 < SF2Q (float_lit 25))%Q
  /\ (SF2Q (float_add (SFdiv prec emax (float_lit 1000) (float_lit 25)) (float_lit 25))
      == inject_Z 1000 / SF2Q (float_lit 25) + inject_Z 25)%Q.
Proof. split; vm_compute; reflexivity. Qed.


(** The float arithmetic at work: the quotient [1000 / 0.1] rounds to
    [10000.0]; a quotient that overflows to infinity, a NaN rate, a zero rate
    and a zero chunk size each raise. *)
Example estimate_float_cases :
  valid_binary prec emax rate_tenth = true
  /\ valid_binary prec emax rate_tiny = true
  /\ estimate_processing_time sample_config 1000 rate_tenth (Some 200) = inr 10025
  /\ estimate_processing_time sample_config 1000 rate_tiny (Some 200)
     = inl OverflowError
  /\ estimate_processing_time sample_config 1000 S754_nan (Some 200) = inl ValueError
  /\ estimate_processing_time sample_config 1000 (S754_zero true) (Some 200)
     = inl ZeroDivisionError
  /\ estimate_processing_time zero_chunk_config 1000 (float_lit 25) None
     = inl ZeroDivisionError
  /\ estimate_processing_time sample_config (2 ^ 1024) (float_lit 25) None
     = inl OverflowError.
Proof. repeat split; vm_compute; reflexivity. Qed.

(** ** The validator *)

(** C3 (as amended).  For a non-blank text of acceptable length,
    [validate_long_text_input] answers invalid with the repetition message
    exactly when fewer than 10% of the words are distinct; the comparison is
    strict, so a text with exactly 10% distinct words (or more) is accepted
    with an empty message. *)
Theorem repetition_check_boundary :
  forall cfg input,
    truthy (strip input) = true ->
    get_long_text_min_length cfg <= len (strip input) ->
    len (strip input) <= get_long_text_max_length cfg ->
    (10 * distinct_count (split_ws input) < len (split_ws input) ->
     validate_long_text_input cfg input = (false, MSG_REPETITIVE))
    /\ (10 * distinct_count (split_ws input) = len (split_ws input) ->
        validate_long_text_input cfg input = (true, []))
    /\ (len (split_ws input) < 10 * distinct_count (split_ws input) ->
        validate_long_text_input cfg input = (true, [])).
Proof.
  intros cfg input Ht Hmin Hmax.
  assert (Hi : truthy input = true).
  { destruct input; [discriminate Ht | reflexivity]. }
  assert (E : validate_long_text_input cfg input
              = if 10 * distinct_count (split_ws input) <? len (split_ws input)
                then (false, MSG_REPETITIVE) else (true, [])).
  { unfold validate_long_text_input. rewrite Hi, Ht. cbn [negb orb].
    destruct (len (strip input) <? get_long_text_min_length cfg) eqn:E1;
      [apply Z.ltb_lt in E1; lia|].
    destruct (get_long_text_max_length cfg <? len (strip input)) eqn:E2;
      [apply Z.ltb_lt in E2; lia|].
    reflexivity. }
  rewrite E. repeat split; intros H.
  - apply Z.ltb_lt in H. rewrite H. reflexivity.
  - destruct (_ <? _) eqn:L; [apply Z.ltb_lt in L; lia | reflexivity].
  - destruct (_ <? _) eqn:L; [apply Z.ltb_lt in L; lia | reflexivity].
Qed.

(** C3, the claim as worded fails: ten times the same word is exactly 10%
    distinct and is accepted. *)
Lemma exactly_ten_percent_is_accepted :
  ~ (forall cfg input,
        truthy (strip input) = true ->
        get_long_text_min_length cfg <= len (strip input) ->
        len (strip input) <= get_long_text_max_length cfg ->
        10 * distinct_count (split_ws input) = len (split_ws input) ->
        fst (validate_long_text_input cfg input) = false).
Proof.
  intros H.
  specialize (H sample_config (lit "a a a a a a a a a a")
                ltac:(vm_compute; reflexivity) ltac:(vm_compute; discriminate)
                ltac:(vm_compute; discriminate) ltac:(vm_compute; reflexivity)).
  vm_compute in H. discriminate.
Qed.

Lemma repetition_check_boundary_witness :
  truthy (strip (lit "a a a a a a a a a a")) = true
  /\ get_long_text_min_length sample_config <= len (strip (lit "a a a a a a a a a a"))
  /\ len (strip (lit "a a a a a a a a a a")) <= get_long_text_max_length sample_config
  /\ ((10 * distinct_count (split_ws (lit "a a a a a a a a a a"))
       < len (split_ws (lit "a a a a a a a a a a")) ->
       validate_long_text_input sample_config (lit "a a a a a a a a a a")
       = (false, MSG_REPETITIVE))
      /\ (10 * distinct_count (split_ws (lit "a a a a a a a a a a"))
          = len (split_ws (lit "a a a a a a a a a a")) ->
          validate_long_text_input sample_config (lit "a a a a a a a a a a")
          = (true, []))
      /\ (len (split_ws (lit "a a a a a a a a a a"))
          < 10 * distinct_count (split_ws (lit "a a a a a a a a a a")) ->
          validate_long_text_input sample_config (lit "a a a a a a a a a a")
          = (true, []))).
Proof.
  split; [reflexivity|].
  split; [vm_compute; discriminate|].
  split; [vm_compute; discriminate|].
  apply (repetition_check_boundary sample_config (lit "a a a a a a a a a a"));
    [reflexivity | vm_compute; discriminate | vm_compute; discriminate].
Defined.

(** ** The audio stitcher *)

Lemma join_cons_concat {A} (sep : list A) (x : list A) (rest : list (list A)) :
  join sep (x :: rest) = x ++ concat (map (fun p => sep ++ p) rest).
Proof.
  revert x. induction rest as [|y rest IH]; intros x.
  - simpl. rewrite app_nil_r. reflexivity.
  - change (join sep (x :: y :: rest)) with (x ++ sep ++ join sep (y :: rest)).
    rewrite IH. simpl. rewrite <- app_assoc. reflexivity.
Qed.

Lemma len_interleaved {A} (sep : list A) (rest : list (list A)) :
  len (concat (map (fun p => sep ++ p) rest)) = total_len rest + len rest * len sep.
Proof.
  induction rest as [|y rest IH].
  - reflexivity.
  - cbn [map concat total_len fold_right]. fold (total_len rest).
    rewrite !len_app, IH, (len_cons y rest). lia.
Qed.

Lemma len_join {A} (sep : list A) (segments : list (list A)) :
  segments <> [] ->
  len (join sep segments) = total_len segments + (len segments - 1) * len sep.
Proof.
  destruct segments as [|x rest]; [congruence|]. intros _.
  rewrite join_cons_concat, len_app, len_interleaved, (len_cons x rest).
  cbn [total_len fold_right]. fold (total_len rest). lia.
Qed.

Lemma stitch_fold {sample} (silence : list sample) (rest : list (list sample)) :
  forall acc,
    fold_left
      (fun concatenated chunk =>
         c <- concatenated ;; cat_dim1 sample [c; mono silence; chunk])
      (map mono rest) (Some (mono acc))
    = Some (mono (acc ++ concat (map (fun p => silence ++ p) rest))).
Proof.
  induction rest as [|y rest IH]; intros acc.
  - simpl. rewrite app_nil_r. reflexivity.
  - cbn [map fold_left bind].
    change (cat_dim1 sample [mono acc; mono silence; mono y])
      with (Some (mono (acc ++ silence ++ y))).
    rewrite IH. simpl. rewrite <- !app_assoc. reflexivity.
Qed.

Lemma stitch_mono {sample} (zero : sample) (segments : list (list sample)) sample_rate :
  0 <= sample_rate -> segments <> [] ->
  concatenate_audio_chunks zero (map mono segments) sample_rate
  = Some (mono (join (repeat zero (Z.to_nat (Z.quot sample_rate 10))) segments)).
Proof.
  intros Hr Hne. destruct segments as [|x rest]; [congruence|].
  destruct rest as [|y rest]; [reflexivity|].
  unfold concatenate_audio_chunks. cbn [map nth_error bind tl].
  unfold zeros, silence_samples_of.
  assert (Hq : 0 <= Z.quot sample_rate 10) by (apply Z.quot_pos; lia).
  destruct ((1 <? 0) || (Z.quot sample_rate 10 <? 0)) eqn:E.
  { apply orb_prop in E. destruct E as [E|E]; [discriminate | apply Z.ltb_lt in E; lia]. }
  cbn [bind]. change (Z.to_nat 1) with 1%nat. cbn [repeat].
  rewrite join_cons_concat.
  exact (stitch_fold (repeat zero (Z.to_nat (Z.quot sample_rate 10))) (y :: rest) x).
Qed.




(** ** The sentence and clause tiers *)

(** C2, the code at two inputs.  In "A? B. Cdefghij" with limit 7 the
    sentence endings within the limit end at 3 ("? ") and at 6 (". "); the
    rightmost is 6, but the tier, which lets each later variant overwrite
    the hit of an earlier one, settles on 3 and splits after "A?".  The
    clause tier does the same on "a; b, cdefghij". *)
Theorem sentence_tier_keeps_last_variant_hit :
  scan_delimiters sentence_endings (lit "A? B. Cdefghij") 7 = Some 3
  /\ rightmost_boundary sentence_endings (lit "A? B. Cdefghij") 7 = Some 6
  /\ _try_split_at_sentences (lit "A? B. Cdefghij") 7 0
     = Some (lit "A?", lit "B. Cdefghij")
  /\ _find_best_split_point (lit "A? B. Cdefghij") 7 0
     = (lit "A?", lit "B. Cdefghij")
  /\ scan_delimiters clause_delimiters (lit "a; b, cdefghij") 7 = Some 3
  /\ rightmost_boundary clause_delimiters (lit "a; b, cdefghij") 7 = Some 6
  /\ _try_split_at_clauses (lit "a; b, cdefghij") 7 0
     = Some (lit "a;", lit "b, cdefghij").
Proof. repeat split; vm_compute; reflexivity. Qed.

(** * Further properties *)

(** ** Streaming settings *)

Lemma int_or_nonzero x d : d <> 0 -> int_or x d <> 0.
Proof.
  intros Hd. unfold int_or. destruct x as [n|]; [|exact Hd].
  destruct (Z.eqb_spec n 0); assumption.
Qed.

Lemma int_or_some_nonzero n d : n <> 0 -> int_or (Some n) d = n.
Proof. intros H. unfold int_or. destruct (Z.eqb_spec n 0); [contradiction | reflexivity]. Qed.

Lemma int_or_idem x d e : d <> 0 -> int_or (Some (int_or x d)) e = int_or x d.
Proof. intros Hd. apply int_or_some_nonzero, int_or_nonzero, Hd. Qed.

Lemma int_or_truthy x d e : int_truthy x = true -> int_or x d = int_or x e.
Proof.
  unfold int_truthy, int_or. destruct x as [n|]; [|discriminate].
  destruct (n =? 0); [discriminate | reflexivity].
Qed.

Lemma int_or_falsy x d : int_truthy x = false -> int_or x d = d.
Proof.
  unfold int_truthy, int_or. destruct x as [n|]; [|reflexivity].
  destruct (n =? 0); [reflexivity | discriminate].
Qed.

Lemma str_or_nonempty x d : d <> [] -> str_or x d <> [].
Proof.
  intros Hd. unfold str_or. destruct x as [s|]; [|exact Hd].
  destruct s; [exact Hd | discriminate].
Qed.

Lemma str_or_some_nonempty (s d : str) : s <> [] -> str_or (Some s) d = s.
Proof. intros H. unfold str_or. destruct s; [congruence | reflexivity]. Qed.

Lemma str_or_truthy x d e : opt_truthy x = true -> str_or x d = str_or x e.
Proof.
  unfold opt_truthy, str_or. destruct x as [s|]; [|discriminate].
  destruct (truthy s); [reflexivity | discriminate].
Qed.

Lemma str_or_falsy x d : opt_truthy x = false -> str_or x d = d.
Proof.
  unfold opt_truthy, str_or. destruct x as [s|]; [|reflexivity].
  destruct (truthy s); [discriminate | reflexivity].
Qed.

Lemma opt_truthy_str_or x : truthy (str_or x []) = opt_truthy x.
Proof. destruct x as [[|c s]|]; reflexivity. Qed.

(** The parameters [split_text_for_streaming] resolves are the ones
    [get_streaming_settings] reports. *)
Lemma streaming_settings_resolved cs st q :
  int_or (fst (apply_quality cs st q)) 200 = chunk_size (get_streaming_settings cs st q)
  /\ str_or (snd (apply_quality cs st q)) (lit "sentence")
     = strategy (get_streaming_settings cs st q).
Proof.
  unfold apply_quality, get_streaming_settings. cbn [chunk_size strategy].
  rewrite opt_truthy_str_or.
  destruct (opt_truthy q) eqn:Q; cbn [negb andb fst snd]; [|split; reflexivity].
  destruct (str_eqb (str_or q []) (lit "fast")) eqn:F.
  { cbn [fst snd]. rewrite int_or_idem, (str_or_some_nonempty (str_or st (lit "word")))
      by (try lia; apply str_or_nonempty; discriminate).
    split.
    - destruct (int_truthy cs) eqn:T; cbn [negb].
      + apply int_or_truthy, T.
      + apply int_or_falsy, T.
    - destruct (opt_truthy st) eqn:T; cbn [negb].
      + apply str_or_truthy, T.
      + apply str_or_falsy, T. }
  destruct (str_eqb (str_or q []) (lit "balanced")) eqn:B.
  { apply str_eqb_eq in B. rewrite B.
    replace (str_eqb (lit "balanced") (lit "high")) with false by reflexivity.
    cbn [fst snd]. rewrite int_or_idem, (str_or_some_nonempty (str_or st (lit "sentence")))
      by (try lia; apply str_or_nonempty; discriminate).
    split.
    - destruct (int_truthy cs); reflexivity.
    - destruct (opt_truthy st); reflexivity. }
  destruct (str_eqb (str_or q []) (lit "high")) eqn:H.
  { cbn [fst snd]. rewrite int_or_idem, (str_or_some_nonempty (str_or st (lit "paragraph")))
      by (try lia; apply str_or_nonempty; discriminate).
    split.
    - destruct (int_truthy cs) eqn:T; cbn [negb].
      + apply int_or_truthy, T.
      + apply int_or_falsy, T.
    - destruct (opt_truthy st) eqn:T; cbn [negb].
      + apply str_or_truthy, T.
      + apply str_or_falsy, T. }
  cbn [fst snd]. split.
  - destruct (int_truthy cs); reflexivity.
  - destruct (opt_truthy st); reflexivity.
Qed.

Lemma streaming_settings_nonzero cs st q :
  chunk_size (get_streaming_settings cs st q) <> 0
  /\ strategy (get_streaming_settings cs st q) <> [].
Proof.
  destruct (streaming_settings_resolved cs st q) as [<- <-].
  split; [apply int_or_nonzero; lia | apply str_or_nonempty; discriminate].
Qed.

(** X1.  [get_streaming_settings] and [split_text_for_streaming] resolve
    their three optional parameters in the same way: splitting with the
    caller's parameters gives the same chunks as splitting with the chunk
    size and strategy the settings report and no preset.  The reported
    chunk size is never 0 and the reported strategy never empty. *)
Theorem streaming_settings_agree :
  forall input cs st q,
    chunk_size (get_streaming_settings cs st q) <> 0
    /\ strategy (get_streaming_settings cs st q) <> []
    /\ split_text_for_streaming input cs st q
       = split_text_for_streaming input
           (Some (chunk_size (get_streaming_settings cs st q)))
           (Some (strategy (get_streaming_settings cs st q))) None.
Proof.
  intros input cs st q.
  destruct (streaming_settings_nonzero cs st q) as [Hc Hs].
  split; [exact Hc|]. split; [exact Hs|].
  destruct (streaming_settings_resolved cs st q) as [Rc Rs].
  unfold split_text_for_streaming.
  destruct (apply_quality cs st q) as [cs' st']. cbn [fst snd] in Rc, Rs.
  rewrite Rc, Rs.
  change (apply_quality (Some (chunk_size (get_streaming_settings cs st q)))
            (Some (strategy (get_streaming_settings cs st q))) None)
    with (Some (chunk_size (get_streaming_settings cs st q)),
          Some (strategy (get_streaming_settings cs st q))).
  cbv beta iota zeta.
  rewrite (int_or_some_nonzero _ 200 Hc), (str_or_some_nonempty _ (lit "sentence") Hs).
  reflexivity.
Qed.

(** ** The validator's verdict *)

Lemma truthy_strip_input (s : str) : truthy (strip s) = true -> truthy s = true.
Proof. destruct s; [discriminate | reflexivity]. Qed.

(** X2.  [validate_long_text_input] answers valid exactly when the text is
    not blank, its trimmed length lies between the configured minimum and
    maximum, and at least a tenth of its words are distinct; the message is
    empty exactly when the answer is valid. *)
Theorem validate_long_text_input_verdict :
  forall cfg input,
    (fst (validate_long_text_input cfg input) = true
     <-> truthy (strip input) = true
         /\ get_long_text_min_length cfg <= len (strip input)
         /\ len (strip input) <= get_long_text_max_length cfg
         /\ len (split_ws input) <= 10 * distinct_count (split_ws input))
    /\ (snd (validate_long_text_input cfg input) = []
        <-> fst (validate_long_text_input cfg input) = true).
Proof.
  intros cfg input. unfold validate_long_text_input.
  destruct (truthy (strip input)) eqn:Ts.
  2:{ rewrite orb_true_r. cbn [fst snd]. split.
      - split; [discriminate | intros [H _]; discriminate].
      - split; [intros H; discriminate | discriminate]. }
  rewrite (truthy_strip_input input Ts). cbn [negb orb].
  destruct (Z.ltb_spec (len (strip input)) (get_long_text_min_length cfg)).
  { cbn [fst snd]. split.
    - split; [discriminate | intros [_ [? _]]; lia].
    - split; [intros H0; discriminate | discriminate]. }
  destruct (Z.ltb_spec (get_long_text_max_length cfg) (len (strip input))).
  { cbn [fst snd]. split.
    - split; [discriminate | intros [_ [_ [? _]]]; lia].
    - split; [intros H1; discriminate | discriminate]. }
  destruct (Z.ltb_spec (10 * distinct_count (split_ws input)) (len (split_ws input))).
  { cbn [fst snd]. split.
    - split; [discriminate | intros [_ [_ [_ ?]]]; lia].
    - split; [intros H2; discriminate | discriminate]. }
  cbn [fst snd]. split.
  - split; [intros _; repeat split; assumption | reflexivity].
  - split; reflexivity.
Qed.

(** ** The estimator: errors and the chunk size *)

Lemma effective_chunk_size_zero cfg cs :
  effective_chunk_size_of cfg cs = 0
  <-> LONG_TEXT_CHUNK_SIZE cfg = 0 /\ (forall c, cs = Some c -> c <= 0).
Proof.
  unfold effective_chunk_size_of. destruct cs as [c|].
  - destruct (Z.ltb_spec 0 c).
    + split; [intros ->; lia|]. intros [_ H0]. specialize (H0 c eq_refl). lia.
    + split; [intros H0; split; [exact H0|]; intros c' [= <-]; lia|].
      intros [H0 _]. exact H0.
  - split; [intros H0; split; [exact H0 | discriminate] | intros [H0 _]; exact H0].
Qed.

Lemma int_of_float_no_zero_division (x : float) :
  int_of_float x <> inl ZeroDivisionError.
Proof. destruct x; discriminate. Qed.

Lemma float_of_int_overflow n e : float_of_int n = inl e -> e = OverflowError.
Proof.
  unfold float_of_int.
  destruct (binary_normalize prec emax n 0 false); intros [= <-]; reflexivity.
Qed.

(** X3.  [estimate_processing_time] raises ZeroDivisionError exactly when
    the text length converts to a float and either the rate is a zero (of
    either sign) or the effective chunk size is zero; the effective chunk
    size is zero only when the configured long-text chunk size is zero and
    the caller gave no positive chunk size.  With a NaN rate the function
    never returns an estimate. *)
Theorem estimate_processing_time_raises :
  forall cfg text_length (avg_chars_per_second : float) chunk_size,
    (estimate_processing_time cfg text_length avg_chars_per_second chunk_size
     = inl ZeroDivisionError
     <-> (exists x, float_of_int text_length = inr x)
         /\ ((exists s, avg_chars_per_second = S754_zero s)
             \/ effective_chunk_size_of cfg chunk_size = 0))
    /\ (effective_chunk_size_of cfg chunk_size = 0
        <-> LONG_TEXT_CHUNK_SIZE cfg = 0
            /\ (forall c, chunk_size = Some c -> c <= 0))
    /\ (avg_chars_per_second = S754_nan ->
        exists e,
          estimate_processing_time cfg text_length avg_chars_per_second chunk_size
          = inl e).
Proof.
  intros cfg n avg cs. split; [|split; [apply effective_chunk_size_zero|]].
  - unfold estimate_processing_time.
    pose proof (effective_chunk_size_eq cfg cs) as Ee. cbv zeta in Ee. rewrite Ee.
    clear Ee. set (e := effective_chunk_size_of cfg cs).
    destruct (float_of_int n) as [x|numerator] eqn:En.
    { apply float_of_int_overflow in En. subst x.
      split; [discriminate|]. intros [[y Hy] _]. discriminate Hy. }
    assert (Hz : (exists s, avg = S754_zero s)
                 \/ float_div numerator avg = inr (SFdiv prec emax numerator avg)).
    { unfold float_div. destruct avg; eauto. }
    destruct Hz as [[s ->]|Hd].
    { cbn [float_div]. split; [intros _|reflexivity]. eauto. }
    rewrite Hd.
    assert (Hnz : forall s, avg <> S754_zero s).
    { intros s ->. discriminate Hd. }
    destruct (Z.eqb_spec e 0) as [E|E].
    { split; [intros _|reflexivity]. eauto. }
    split.
    + intros H. exfalso.
      destruct (float_of_int (5 + Z.max 1 ((n + e - 1) / e) * 2 + 10))
        as [x|addend] eqn:Eo.
      * apply float_of_int_overflow in Eo. subst x. discriminate H.
      * exact (int_of_float_no_zero_division _ H).
    + intros [_ [[s Hs]|H0]]; [exfalso; exact (Hnz s Hs) | contradiction].
  - intros ->. unfold estimate_processing_time.
    destruct (float_of_int n) as [x|numerator]; [eauto|].
    cbn [float_div].
    replace (SFdiv prec emax numerator S754_nan) with S754_nan
      by (destruct numerator; reflexivity).
    match goal with |- context [if ?c then _ else _] => destruct c end; [eauto|].
    match goal with |- context [float_of_int ?o] => destruct (float_of_int o) end;
      [eauto|].
    exists ValueError. unfold float_add, SFadd. reflexivity.
Qed.

(** X4.  The chunk size enters the estimate only through the number of
    chunks: two positive chunk sizes that give the same chunk count give the
    same estimate, in particular any two that are at least the text length;
    and a chunk size that is not positive is the same as none. *)
Theorem estimate_depends_on_chunk_count :
  forall cfg text_length (avg_chars_per_second : float) c1 c2,
    0 < c1 -> 0 < c2 ->
    (num_chunks_of text_length c1 = num_chunks_of text_length c2 ->
     estimate_processing_time cfg text_length avg_chars_per_second (Some c1)
     = estimate_processing_time cfg text_length avg_chars_per_second (Some c2))
    /\ (text_length <= c1 -> text_length <= c2 ->
        estimate_processing_time cfg text_length avg_chars_per_second (Some c1)
        = estimate_processing_time cfg text_length avg_chars_per_second (Some c2))
    /\ (forall c, c <= 0 ->
          estimate_processing_time cfg text_length avg_chars_per_second (Some c)
          = estimate_processing_time cfg text_length avg_chars_per_second None).
Proof.
  intros cfg n avg c1 c2 H1 H2.
  assert (E : forall c, 0 < c -> effective_chunk_size_of cfg (Some c) = c).
  { intros c Hc. unfold effective_chunk_size_of.
    destruct (Z.ltb_spec 0 c); [reflexivity | lia]. }
  assert (A : num_chunks_of n c1 = num_chunks_of n c2 ->
              estimate_processing_time cfg n avg (Some c1)
              = estimate_processing_time cfg n avg (Some c2)).
  { intros Hk.
    rewrite (estimate_binary64 cfg n avg (Some c1)) by (rewrite E; lia).
    rewrite (estimate_binary64 cfg n avg (Some c2)) by (rewrite E; lia).
    rewrite !E by assumption. rewrite Hk. reflexivity. }
  split; [exact A|]. split.
  - intros L1 L2. apply A. unfold num_chunks_of. rewrite !ceil_div_eq by assumption.
    assert (B : forall c, 0 < c -> n <= c -> (n + c - 1) / c <= 1).
    { intros c Hc Hn. apply Z.lt_succ_r. apply Z.div_lt_upper_bound; lia. }
    pose proof (B c1 H1 L1). pose proof (B c2 H2 L2). lia.
  - intros c Hc. unfold estimate_processing_time.
    replace (int_or (Some c) (LONG_TEXT_CHUNK_SIZE cfg) <=? 0) with
      (if c =? 0 then LONG_TEXT_CHUNK_SIZE cfg <=? 0 else true).
    + cbn [int_or].
      destruct (c =? 0); [reflexivity|].
      destruct (LONG_TEXT_CHUNK_SIZE cfg <=? 0); reflexivity.
    + cbn [int_or]. destruct (Z.eqb_spec c 0); [reflexivity|].
      symmetry. apply Z.leb_le. lia.
Qed.

Lemma estimate_depends_on_chunk_count_witness :
  0 < 300 /\ 0 < 5000
  /\ ((num_chunks_of 250 300 = num_chunks_of 250 5000 ->
       estimate_processing_time sample_config 250 (float_lit 25) (Some 300)
       = estimate_processing_time sample_config 250 (float_lit 25) (Some 5000))
      /\ (250 <= 300 -> 250 <= 5000 ->
          estimate_processing_time sample_config 250 (float_lit 25) (Some 300)
          = estimate_processing_time sample_config 250 (float_lit 25) (Some 5000))
      /\ (forall c, c <= 0 ->
            estimate_processing_time sample_config 250 (float_lit 25) (Some c)
            = estimate_processing_time sample_config 250 (float_lit 25) None)).
Proof.
  split; [lia|]. split; [lia|].
  apply (estimate_depends_on_chunk_count sample_config 250 (float_lit 25) 300 5000); lia.
Defined.

(** ** The audio stitcher: when it raises *)

Lemma cat2_rows {sample} (a b r : tensor sample) :
  cat2 sample a b = Some r -> length a = length b /\ length r = length a.
Proof.
  revert b r. induction a as [|x a IH]; intros [|y b] r; simpl; try discriminate.
  - intros [= <-]. auto.
  - destruct (cat2 sample a b) as [rest|] eqn:E; [|discriminate].
    cbn [bind]. intros [= <-]. destruct (IH b rest E) as [H1 H2]. simpl. auto.
Qed.

Lemma cat3_rows {sample} (c : tensor sample) (silence : list sample) chunk r :
  cat_dim1 sample [c; mono silence; chunk] = Some r ->
  length c = 1%nat /\ length chunk = 1%nat /\ length r = 1%nat.
Proof.
  cbn [cat_dim1 bind].
  destruct (cat2 sample (mono silence) chunk) as [r1|] eqn:E1; [|discriminate].
  cbn [bind]. intros E2.
  destruct (cat2_rows _ _ _ E1) as [A1 A2].
  destruct (cat2_rows _ _ _ E2) as [B1 B2].
  simpl in A1, A2. repeat split; congruence.
Qed.

Lemma stitch_fold_none {sample} (silence : tensor sample) (l : list (tensor sample)) :
  fold_left
    (fun concatenated chunk => c <- concatenated ;; cat_dim1 sample [c; silence; chunk])
    l None = None.
Proof. induction l as [|k l IH]; [reflexivity | exact IH]. Qed.

Lemma stitch_fold_some {sample} (silence : list sample) (l : list (tensor sample)) :
  forall acc r,
    fold_left
      (fun concatenated chunk =>
         c <- concatenated ;; cat_dim1 sample [c; mono silence; chunk])
      l (Some acc) = Some r ->
    Forall (fun t => length t = 1%nat) l /\ (l <> [] -> length acc = 1%nat).
Proof.
  induction l as [|k l IH]; intros acc r H.
  - split; [constructor | congruence].
  - cbn [fold_left bind] in H.
    match type of H with
    | fold_left _ _ ?x = _ => destruct x as [acc'|] eqn:E
    end.
    + destruct (cat3_rows _ _ _ _ E) as [A [B C]].
      destruct (IH acc' r H) as [F _].
      split; [constructor; assumption | intros _; exact A].
    + pose proof (stitch_fold_none (mono silence) l) as N.
      unfold tensor in *. rewrite N in H. discriminate.
Qed.

Lemma one_row_mono {sample} (l : list (tensor sample)) :
  Forall (fun t => length t = 1%nat) l -> exists rows, l = map mono rows.
Proof.
  induction 1 as [|t l Ht _ [rows ->]]; [exists []; reflexivity|].
  destruct t as [|row [|? ?]]; try discriminate.
  exists (row :: rows). reflexivity.
Qed.

Lemma stitch_mono_quot {sample} (zero : sample) (segments : list (list sample))
    sample_rate :
  0 <= silence_samples_of sample_rate -> segments <> [] ->
  concatenate_audio_chunks zero (map mono segments) sample_rate
  = Some (mono (join (repeat zero (Z.to_nat (silence_samples_of sample_rate)))
                     segments)).
Proof.
  intros Hq Hne. destruct segments as [|x rest]; [congruence|].
  destruct rest as [|y rest]; [reflexivity|].
  unfold concatenate_audio_chunks. cbn [map nth_error bind tl].
  unfold zeros.
  destruct ((1 <? 0) || (silence_samples_of sample_rate <? 0)) eqn:E.
  { apply orb_prop in E. destruct E as [E|E]; [discriminate | apply Z.ltb_lt in E; lia]. }
  cbn [bind]. change (Z.to_nat 1) with 1%nat. cbn [repeat].
  rewrite join_cons_concat.
  exact (stitch_fold (repeat zero (Z.to_nat (silence_samples_of sample_rate)))
           (y :: rest) x).
Qed.



(** ** Long-text records *)

Lemma slice_to_firstn {A} (s : list A) i :
  0 <= i -> slice_to s i = firstn (Z.to_nat i) s.
Proof.
  intros Hi. unfold slice_to, norm_index. destruct (i <? 0) eqn:E; [lia|].
  destruct (Z_le_gt_dec i (len s)) as [H|H].
  - rewrite Z.min_l by lia. reflexivity.
  - rewrite Z.min_r by lia. unfold len in *.
    rewrite !firstn_all2 by lia. reflexivity.
Qed.

Lemma enumerate_from_texts (chunks : list str) :
  forall i,
    map text (map make_long_text_chunk (enumerate_from i chunks)) = chunks
    /\ map index (map make_long_text_chunk (enumerate_from i chunks))
       = map (fun k => i + Z.of_nat k) (seq 0 (length chunks)).
Proof.
  induction chunks as [|c chunks IH]; intros i; [split; reflexivity|].
  destruct (IH (i + 1)) as [H1 H2]. cbn [enumerate_from map length seq]. split.
  - cbn [make_long_text_chunk text]. f_equal. exact H1.
  - cbn [make_long_text_chunk index]. rewrite H2, <- seq_shift, map_map.
    f_equal; [lia|]. apply map_ext. intros k. lia.
Qed.

Lemma make_long_text_chunk_preview i (c : str) :
  text_preview (make_long_text_chunk (i, c))
  = (if 50 <? len c then firstn 50 c ++ lit "..." else c)
  /\ len (text_preview (make_long_text_chunk (i, c))) <= 53.
Proof.
  cbn [make_long_text_chunk text_preview].
  rewrite slice_to_firstn by lia. change (Z.to_nat 50) with 50%nat.
  destruct (Z.ltb_spec 50 (len c)) as [H|H].
  - split; [reflexivity|]. rewrite len_app. unfold len at 1.
    rewrite length_firstn. change (len (lit "...")) with 3. lia.
  - unfold len in H. rewrite firstn_all2 by lia. rewrite app_nil_r.
    split; [reflexivity | unfold len; lia].
Qed.

(** X6.  For a positive resolved limit [split_text_for_long_generation]
    returns one record per chunk of [chunk_text] (run with the caller's
    strategy, or the configured one when that is absent or empty), in the
    same order: the records' texts are the chunks, their indices count up
    from 0, the character count is the chunk's length, and the preview is
    the chunk itself when it has at most 50 characters and its first 50
    characters followed by "..." otherwise, hence at most 53 long. *)
Theorem long_generation_records :
  forall cfg input max_chunk_size st,
    0 < resolved_max cfg max_chunk_size ->
    exists chunks records,
      chunk_text cfg input
        (match st with
         | Some s => if truthy s then Some s else LONG_TEXT_CHUNKING_STRATEGY cfg
         | None => LONG_TEXT_CHUNKING_STRATEGY cfg
         end)
        (Some (resolved_max cfg max_chunk_size)) = Some chunks
      /\ split_text_for_long_generation cfg input max_chunk_size st = Some records
      /\ map text records = chunks
      /\ map index records = map Z.of_nat (seq 0 (length chunks))
      /\ Forall (fun r =>
                   character_count r = len (text r)
                   /\ text_preview r
                      = (if 50 <? len (text r) then firstn 50 (text r) ++ lit "..."
                         else text r)
                   /\ len (text_preview r) <= 53)
                records.
Proof.
  intros cfg input m st Hr.
  destruct (chunk_text_ok cfg input
              (match st with
               | Some s => if truthy s then Some s else LONG_TEXT_CHUNKING_STRATEGY cfg
               | None => LONG_TEXT_CHUNKING_STRATEGY cfg
               end)
              (Some (resolved_max cfg m))) as [chunks [H1 _]].
  { rewrite resolved_max_idem by exact Hr. lia. }
  exists chunks, (map make_long_text_chunk (enumerate_from 0 chunks)).
  split; [exact H1|]. split.
  { unfold split_text_for_long_generation. cbv zeta.
    match goal with
    | |- bind ?x _ = _ => replace x with (Some chunks) by (symmetry; exact H1)
    end.
    reflexivity. }
  destruct (enumerate_from_texts chunks 0) as [T I].
  split; [exact T|]. split; [exact I|].
  apply Forall_map, Forall_forall. intros [i c] _.
  destruct (make_long_text_chunk_preview i c) as [P1 P2].
  split; [reflexivity|]. split; [exact P1 | exact P2].
Qed.

Lemma long_generation_records_witness :
  0 < resolved_max sample_config None
  /\ exists chunks records,
      chunk_text sample_config (lit "one two")
        (match @None str with
         | Some s => if truthy s then Some s
                     else LONG_TEXT_CHUNKING_STRATEGY sample_config
         | None => LONG_TEXT_CHUNKING_STRATEGY sample_config
         end)
        (Some (resolved_max sample_config None)) = Some chunks
      /\ split_text_for_long_generation sample_config (lit "one two") None None
         = Some records
      /\ map text records = chunks
      /\ map index records = map Z.of_nat (seq 0 (length chunks))
      /\ Forall (fun r =>
                   character_count r = len (text r)
                   /\ text_preview r
                      = (if 50 <? len (text r) then firstn 50 (text r) ++ lit "..."
                         else text r)
                   /\ len (text_preview r) <= 53)
                records.
Proof.
  split; [reflexivity|].
  apply (long_generation_records sample_config (lit "one two") None None).
  reflexivity.
Defined.

(** ** A limit that is not positive *)

Lemma trimmed_last (s : str) :
  strip s = s -> s <> [] -> exists s' c, s = s' ++ [c] /\ isspace c = false.
Proof.
  intros Ht Hne.
  assert (Hr : rstrip s = s).
  { unfold strip in Ht. rewrite (lstrip_id s (trimmed_head_ok s Ht)) in Ht. exact Ht. }
  destruct (exists_last Hne) as [s' [c E]]. exists s', c. split; [exact E|].
  destruct (isspace c) eqn:C; [|reflexivity].
  rewrite E, rstrip_snoc, C in Hr.
  pose proof (rstrip_length s') as L. rewrite Hr, length_app in L. simpl in L. lia.
Qed.

Lemma nows_nonempty_strip (s : str) : nows s <> [] -> strip s <> [].
Proof. intros H E. apply H. rewrite <- (nows_strip s), E. reflexivity. Qed.

(** Every non-empty suffix of a trimmed text still shows a character. *)
Lemma suffix_nonblank (s : str) k :
  strip s = s -> (k < length s)%nat -> strip (skipn k s) <> [].
Proof.
  intros Ht Hk.
  assert (Hne : s <> []) by (intros ->; simpl in Hk; lia).
  destruct (trimmed_last s Ht Hne) as [s' [c [E C]]].
  apply nows_nonempty_strip. rewrite E, skipn_app.
  rewrite E, length_app in Hk. simpl in Hk.
  replace (k - length s')%nat with 0%nat by lia. cbn [skipn].
  rewrite nows_app. unfold nows at 2. simpl. rewrite C. simpl.
  intros H. apply app_eq_nil in H. destruct H as [_ H]. discriminate.
Qed.

Lemma tiers_fail_nonpositive text max_length overlap_chars :
  max_length <= 0 ->
  _try_split_at_paragraphs text max_length overlap_chars = None
  /\ _try_split_at_sentences text max_length overlap_chars = None
  /\ _try_split_at_clauses text max_length overlap_chars = None.
Proof.
  intros Hm. unfold _try_split_at_paragraphs, _try_split_at_sentences,
    _try_split_at_clauses. repeat split.
  - destruct (negb (truthy (para_ends text))); [reflexivity|].
    destruct (admissible _ _ _ _) as [b|] eqn:A; [|reflexivity].
    apply admissible_inv in A. destruct A as [A1 [A2 A3]].
    apply para_best_bound in A1; [lia | discriminate].
  - destruct (admissible _ _ _ _) as [b|] eqn:A; [|reflexivity].
    apply admissible_inv in A. destruct A as [A1 [A2 A3]].
    apply scan_delimiters_bound in A1. lia.
  - destruct (admissible _ _ _ _) as [b|] eqn:A; [|reflexivity].
    apply admissible_inv in A. destruct A as [A1 [A2 A3]].
    apply scan_delimiters_bound in A1. lia.
Qed.

Lemma slice_from_skipn {A} (s : list A) i :
  slice_from s i = skipn (Z.to_nat (norm_index (len s) i)) s.
Proof. reflexivity. Qed.

(** With a limit that is not positive one pass of the loop never uses up
    the text: what it hands on is again trimmed and not empty. *)
Lemma hierarchical_step_stuck text max_length :
  max_length <= 0 -> strip text = text -> text <> [] ->
  exists c rem,
    hierarchical_step text max_length = (c, Some rem)
    /\ rem <> [] /\ strip rem = rem.
Proof.
  intros Hm Ht Hne.
  assert (Hl : 0 < len text) by (apply truthy_len, truthy_true, Hne).
  assert (Hb : 0 <= norm_index (len text) max_length < len text).
  { unfold norm_index. destruct (max_length <? 0) eqn:E; lia. }
  assert (Hfall : strip (slice_from text max_length) <> []).
  { rewrite slice_from_skipn. apply suffix_nonblank; [exact Ht|].
    unfold len in *. lia. }
  unfold hierarchical_step.
  destruct (len text <=? max_length) eqn:E; [apply Z.leb_le in E; lia|].
  unfold _find_best_split_point. rewrite E.
  destruct (tiers_fail_nonpositive text max_length 0 Hm) as [P [S C]].
  rewrite P, S, C. unfold _split_at_words. rewrite E.
  set (r := rfind text [SPACE] 0 max_length).
  assert (Hr : r = -1 \/ (1 <= r /\ r < len text)).
  { unfold r, rfind. rewrite (norm_index_id (len text) 0) by lia. simpl skipn.
    destruct (rfind_from_inv [SPACE] text 0 (norm_index (len text) max_length) (-1))
      as [H|[H1 [H2 H3]]]; [left; exact H|].
    change (len [SPACE]) with 1 in H2. right. split; [|lia].
    set (q := rfind_from [SPACE] text 0 (norm_index (len text) max_length) (-1)) in *.
    destruct (Z.eq_dec q 0) as [Q0|Q0]; [|lia].
    rewrite Q0 in H3. change (Z.to_nat (0 - 0)) with 0%nat in H3. cbn [skipn] in H3.
    pose proof (trimmed_head_ok text Ht) as Hh.
    destruct text as [|c t]; [congruence|].
    cbn [prefixb] in H3. apply andb_prop in H3. destruct H3 as [H3 _].
    apply N.eqb_eq in H3. subst c. simpl in Hh. discriminate. }
  destruct Hr as [Hr|[Hr1 Hr2]].
  - rewrite Hr. change (-1 =? -1) with true. cbv iota.
    unfold split_pair.
    replace (Z.max 0 (max_length - 0)) with 0 by lia.
    assert (S0 : slice_from text 0 = text).
    { unfold slice_from. rewrite norm_index_id by lia. reflexivity. }
    rewrite S0, Ht.
    destruct (truthy (strip (slice_to text max_length))); cbn [negb].
    + exists (strip (slice_to text max_length)), text. auto.
    + exists (strip (slice_to text max_length)), (strip (slice_from text max_length)).
      split; [reflexivity|]. split; [exact Hfall | apply strip_idem].
  - destruct (r =? -1) eqn:R; [apply Z.eqb_eq in R; lia|].
    rewrite split_pair_0 by lia.
    assert (Hrem : strip (slice_from text r) <> []).
    { rewrite slice_from_skipn, norm_index_id by lia.
      apply suffix_nonblank; [exact Ht|]. unfold len in *. lia. }
    destruct (truthy (strip (slice_to text r))); cbn [negb].
    + exists (strip (slice_to text r)), (strip (slice_from text r)).
      split; [reflexivity|]. split; [exact Hrem | apply strip_idem].
    + exists (strip (slice_to text max_length)), (strip (slice_from text max_length)).
      split; [reflexivity|]. split; [exact Hfall | apply strip_idem].
Qed.

Lemma hierarchical_loop_stuck max_length :
  max_length <= 0 ->
  forall fuel text chunks,
    strip text = text -> text <> [] ->
    hierarchical_loop fuel text max_length chunks = None.
Proof.
  intros Hm. induction fuel as [|fuel IH]; intros text chunks Ht Hne.
  - destruct text; [congruence | reflexivity].
  - cbn [hierarchical_loop].
    replace (truthy text) with true by (symmetry; apply truthy_true, Hne).
    cbn [negb].
    destruct (hierarchical_step_stuck text max_length Hm Ht Hne)
      as [c [rem [E [R1 R2]]]].
    rewrite E. apply IH; assumption.
Qed.

Lemma chunk_hierarchical_fuel_stuck fuel text max_length :
  max_length <= 0 -> nonblank text = true ->
  _chunk_hierarchical_fuel fuel text max_length = None.
Proof.
  intros Hm Hn. unfold _chunk_hierarchical_fuel.
  rewrite (hierarchical_loop_stuck max_length Hm fuel (strip text) []);
    [reflexivity | apply strip_idem | apply truthy_true, Hn].
Qed.

Lemma neat_nonblank c : neat c -> nonblank c = true.
Proof. intros [H1 H2]. unfold nonblank. rewrite H2. apply truthy_true, H1. Qed.

Lemma neat_visible c : neat c -> nows c <> [].
Proof.
  intros [H1 H2]. pose proof (trimmed_head_ok c H2) as Hh.
  destruct c as [|x c]; [congruence|]. simpl in Hh.
  rewrite (nows_cons_visible x c Hh). discriminate.
Qed.

Lemma refine_chunks_stuck max_length (chunks : list str) refined :
  max_length <= 0 -> Forall neat chunks -> chunks <> [] ->
  refine_chunks chunks max_length refined = None.
Proof.
  intros Hm Hn Hne. destruct chunks as [|c chunks]; [congruence|].
  inversion Hn as [|? ? Hc _]; subst. cbn [refine_chunks].
  assert (L : 0 < len c) by (apply truthy_len, truthy_true, (proj1 Hc)).
  destruct (Z.ltb_spec max_length (len c)); [|lia].
  unfold _chunk_hierarchical.
  rewrite (chunk_hierarchical_fuel_stuck _ c max_length Hm (neat_nonblank c Hc)).
  reflexivity.
Qed.

Lemma paragraphs_loop_stuck max_length :
  max_length <= 0 ->
  forall paragraphs chunks cur,
    neat cur -> paragraphs <> [] ->
    paragraphs_loop paragraphs max_length chunks (Some cur) = None.
Proof.
  intros Hm paragraphs chunks cur Hc Hne.
  destruct paragraphs as [|p ps]; [congruence|]. cbn [paragraphs_loop].
  assert (L : 0 < len (cur ++ PARA_BREAK ++ p)).
  { rewrite !len_app. pose proof (len_nonneg cur). pose proof (len_nonneg p).
    change (len PARA_BREAK) with 2. lia. }
  destruct (Z.leb_spec (len (cur ++ PARA_BREAK ++ p)) max_length); [lia|].
  unfold _chunk_hierarchical.
  rewrite (chunk_hierarchical_fuel_stuck _ cur max_length Hm (neat_nonblank cur Hc)).
  reflexivity.
Qed.

(** X7.  The hierarchical loop does not terminate when the limit is zero or
    negative: on every non-blank text, however many iterations are allowed,
    no result is reached.  Consequently, when the limit [chunk_text]
    resolves is not positive (the caller gave none or a non-positive one and
    the configured chunk size is not positive either), a non-blank text
    never yields chunks: the fixed strategy raises for 0 and returns the
    empty list for a negative limit, every other strategy runs forever. *)
Theorem nonpositive_limit_never_chunks :
  forall cfg input st max_length fuel,
    resolved_max cfg max_length <= 0 ->
    nonblank input = true ->
    _chunk_hierarchical_fuel fuel input (resolved_max cfg max_length) = None
    /\ effective_max_of cfg (resolved_max cfg max_length) = resolved_max cfg max_length
    /\ (lower (str_or st (lit "sentence")) = lit "fixed" ->
        chunk_text cfg input st max_length
        = (if resolved_max cfg max_length =? 0 then None else Some []))
    /\ (lower (str_or st (lit "sentence")) <> lit "fixed" ->
        chunk_text cfg input st max_length = None).
Proof.
  intros cfg input st ml fuel Hm Hn.
  set (m := resolved_max cfg ml) in *.
  assert (He : effective_max_of cfg m = m).
  { unfold effective_max_of.
    destruct (Z.leb_spec (Z.min m (MAX_TOTAL_LENGTH cfg - 100)) 0); [reflexivity | lia]. }
  split; [apply chunk_hierarchical_fuel_stuck; assumption|].
  split; [exact He|].
  assert (Hc : truthy (strip input) = true) by exact Hn.
  assert (Hneat : neat (strip input)) by (apply neat_strip, Hc).
  split.
  - intros Hf. unfold chunk_text. fold m. rewrite He, Hc. cbn [negb].
    rewrite Hf. replace (str_eqb (lit "fixed") (lit "fixed")) with true by reflexivity.
    unfold fixed_windows, py_range.
    destruct (Z.eqb_spec m 0) as [E|E]; [reflexivity|].
    destruct (Z.ltb_spec 0 m); [lia|]. cbn [bind].
    replace (Z.to_nat ((0 - len (strip input) - m - 1) / - m)) with 0%nat;
      [reflexivity|].
    assert (0 < len (strip input)) by (apply truthy_len, Hc).
    assert ((0 - len (strip input) - m - 1) / - m < 1); [|lia].
    apply Z.div_lt_upper_bound; lia.
  - intros Hf. unfold chunk_text. fold m. rewrite He, Hc. cbn [negb].
    rewrite (str_eqb_neq _ _ Hf).
    destruct (str_eqb _ (lit "paragraph")).
    { unfold _chunk_by_paragraphs.
      pose proof (strip_nonblank_neat (para_split (strip input))) as Hp.
      destruct (map strip (filter (fun segment => truthy (strip segment))
                                  (para_split (strip input)))) as [|p ps] eqn:P.
      - cbn [truthy negb]. unfold _chunk_hierarchical.
        apply chunk_hierarchical_fuel_stuck; [exact Hm|].
        unfold nonblank. rewrite strip_idem. exact Hc.
      - cbn [truthy negb paragraphs_loop]. inversion Hp as [|? ? Hp1 Hp2]; subst.
        destruct ps as [|p2 ps].
        + cbn [paragraphs_loop bind]. rewrite (proj2 (truthy_true p) (proj1 Hp1)).
          unfold _chunk_hierarchical.
          rewrite (chunk_hierarchical_fuel_stuck _ p m Hm (neat_nonblank p Hp1)).
          reflexivity.
        + rewrite (paragraphs_loop_stuck m Hm (p2 :: ps) [] p Hp1); [reflexivity|].
          discriminate. }
    destruct (str_eqb _ (lit "word")).
    { unfold _chunk_by_words.
      pose proof (split_ws_wordlike (strip input)) as Hw.
      pose proof (split_ws_concat (strip input)) as Hcat.
      assert (Hvis : nows (strip input) <> []) by (apply neat_visible, Hneat).
      destruct (truthy (split_ws (strip input))) eqn:T; cbn [negb].
      2:{ apply truthy_false in T. rewrite T in Hcat. simpl in Hcat. congruence. }
      destruct (words_fold_inv m (split_ws (strip input)) Hw [] [] 0)
        as [c' [w' [l' [H1 [H2 [H3 H4]]]]]]; [constructor | constructor |].
      rewrite H1. simpl in H4. rewrite Hcat in H4.
      destruct (truthy w') eqn:Tw.
      - apply refine_chunks_stuck; [exact Hm | apply flush_words_neat, H2|].
        intros E. pose proof (flush_words_nows c' w' H3) as F.
        rewrite E in F. simpl in F. rewrite <- F in H4. congruence.
      - apply truthy_false in Tw. subst w'. rewrite app_nil_r in H4.
        apply refine_chunks_stuck; [exact Hm | exact H2|].
        intros E. rewrite E in H4. simpl in H4. congruence. }
    unfold _chunk_hierarchical. apply chunk_hierarchical_fuel_stuck; [exact Hm|].
    unfold nonblank. rewrite strip_idem. exact Hc.
Qed.

Lemma nonpositive_limit_never_chunks_witness :
  resolved_max zero_chunk_config None <= 0
  /\ nonblank (lit "ab c") = true
  /\ (_chunk_hierarchical_fuel 5 (lit "ab c") (resolved_max zero_chunk_config None)
      = None
      /\ effective_max_of zero_chunk_config (resolved_max zero_chunk_config None)
         = resolved_max zero_chunk_config None
      /\ (lower (str_or None (lit "sentence")) = lit "fixed" ->
          chunk_text zero_chunk_config (lit "ab c") None None
          = (if resolved_max zero_chunk_config None =? 0 then None else Some []))
      /\ (lower (str_or None (lit "sentence")) <> lit "fixed" ->
          chunk_text zero_chunk_config (lit "ab c") None None = None)).
Proof.
  split; [vm_compute; discriminate|]. split; [reflexivity|].
  apply (nonpositive_limit_never_chunks zero_chunk_config (lit "ab c") None None 5);
    [vm_compute; discriminate | reflexivity].
Defined.

(** ** What the boundary tiers pick *)

Lemma para_ends_aux_lower s :
  forall i skip e,
    In e (para_ends_aux s i skip) -> i + Z.of_nat skip + 2 <= e.
Proof.
  induction s as [|c s IH]; intros i skip e H; [contradiction|].
  destruct skip as [|k]; cbn [para_ends_aux] in H.
  - destruct (para_match (c :: s)) as [n|] eqn:M.
    + destruct (para_match_spec _ _ M) as [Hn _].
      destruct H as [<-|H]; [lia|]. apply IH in H. lia.
    + apply IH in H. lia.
  - apply IH in H. lia.
Qed.

Lemma para_ends_aux_sorted s :
  forall i skip, StronglySorted Z.lt (para_ends_aux s i skip).
Proof.
  induction s as [|c s IH]; intros i skip; [constructor|].
  destruct skip as [|k]; cbn [para_ends_aux]; [|apply IH].
  destruct (para_match (c :: s)) as [n|] eqn:M; [|apply IH].
  destruct (para_match_spec _ _ M) as [Hn _].
  constructor; [apply IH|]. apply Forall_forall. intros e He.
  apply para_ends_aux_lower in He. lia.
Qed.

Lemma para_ends_aux_in_range s :
  forall i skip e,
    In e (para_ends_aux s i skip) -> e <= i + len s.
Proof.
  induction s as [|c s IH]; intros i skip e H; [contradiction|].
  rewrite len_cons.
  destruct skip as [|k]; cbn [para_ends_aux] in H.
  - destruct (para_match (c :: s)) as [n|] eqn:M.
    + destruct (para_match_spec _ _ M) as [Hn _]. simpl length in Hn.
      destruct H as [<-|H]; [unfold len; lia|]. apply IH in H. lia.
    + apply IH in H. lia.
  - apply IH in H. lia.
Qed.

(** On increasing positions the loop "keep the last one within the limit,
    stop at the first one beyond" ends on the largest position within the
    limit. *)
Lemma para_best_sorted max_length :
  forall ends best b,
    StronglySorted Z.lt ends ->
    para_best ends max_length best = Some b ->
    (best = Some b /\ (forall e, In e ends -> max_length < e))
    \/ (In b ends /\ b <= max_length
        /\ forall e, In e ends -> e <= max_length -> e <= b).
Proof.
  induction ends as [|x ends IH]; intros best b Hs H.
  - left. split; [exact H | contradiction].
  - inversion Hs as [|? ? Hs' Hx]; subst. cbn [para_best] in H.
    rewrite Forall_forall in Hx.
    destruct (Z.leb_spec x max_length) as [L|L].
    + right. destruct (IH (Some x) b Hs' H) as [[E A]|[A [B C]]].
      * injection E as <-. split; [left; reflexivity|]. split; [exact L|].
        intros e [<-|He] Hle; [lia|]. specialize (A e He). lia.
      * split; [right; exact A|]. split; [exact B|].
        intros e [<-|He] Hle; [specialize (Hx b A); lia | apply C; assumption].
    + left. split; [exact H|]. intros e [<-|He]; [lia|]. specialize (Hx e He). lia.
Qed.

(** X8.  When the paragraph tier answers, it cuts at the end of a paragraph
    break that lies within the limit and beyond half of it, and no
    paragraph break of the text ends later within the limit. *)
Theorem paragraph_tier_rightmost :
  forall input max_length overlap_chars r,
    _try_split_at_paragraphs input max_length overlap_chars = Some r ->
    exists b,
      r = split_pair input b overlap_chars
      /\ In b (para_ends input)
      /\ b <= max_length /\ max_length < 2 * b
      /\ forall e, In e (para_ends input) -> e <= max_length -> e <= b.
Proof.
  intros input max_length overlap_chars r H.
  unfold _try_split_at_paragraphs in H.
  destruct (negb (truthy (para_ends input))); [discriminate|].
  destruct (admissible _ _ _ _) as [b|] eqn:A; [|discriminate].
  injection H as <-. apply admissible_inv in A. destruct A as [A1 [A2 A3]].
  exists b. split; [reflexivity|].
  destruct (para_best_sorted max_length (para_ends input) None b
              (para_ends_aux_sorted input 0 0) A1) as [[E _]|[B [C D]]];
    [discriminate|].
  split; [exact B|]. split; [exact C|]. split; [lia | exact D].
Qed.

Lemma paragraph_tier_rightmost_witness :
  _try_split_at_paragraphs
    (lit "ab" ++ [NL; NL] ++ lit "cd" ++ [NL; NL] ++ lit "efghij") 9 0
  = Some (lit "ab" ++ [NL; NL] ++ lit "cd", lit "efghij")
  /\ exists b,
      (lit "ab" ++ [NL; NL] ++ lit "cd", lit "efghij")
      = split_pair (lit "ab" ++ [NL; NL] ++ lit "cd" ++ [NL; NL] ++ lit "efghij") b 0
      /\ In b (para_ends (lit "ab" ++ [NL; NL] ++ lit "cd" ++ [NL; NL] ++ lit "efghij"))
      /\ b <= 9 /\ 9 < 2 * b
      /\ forall e,
          In e (para_ends (lit "ab" ++ [NL; NL] ++ lit "cd" ++ [NL; NL] ++ lit "efghij")) ->
          e <= 9 -> e <= b.
Proof.
  split; [vm_compute; reflexivity|].
  apply (paragraph_tier_rightmost
           (lit "ab" ++ [NL; NL] ++ lit "cd" ++ [NL; NL] ++ lit "efghij") 9 0).
  vm_compute. reflexivity.
Defined.

Lemma occurrence_ends_lower d s :
  forall i e, In e (occurrence_ends d s i) -> i + len d <= e.
Proof.
  induction s as [|c s IH]; intros i e H; [contradiction|].
  cbn [occurrence_ends] in H. apply in_app_or in H. destruct H as [H|H].
  - destruct (prefixb d (c :: s)); [|contradiction].
    destruct H as [<-|[]]. lia.
  - apply IH in H. lia.
Qed.

Lemma occurrence_ends_sorted d s :
  forall i, StronglySorted Z.lt (occurrence_ends d s i).
Proof.
  induction s as [|c s IH]; intros i; [constructor|].
  cbn [occurrence_ends]. destruct (prefixb d (c :: s)); [|apply IH].
  constructor; [apply IH|]. apply Forall_forall. intros e He.
  apply occurrence_ends_lower in He. lia.
Qed.

Lemma find_at_suffix (pre s d : str) :
  find (pre ++ s) d (len pre) = find_from d s (len pre).
Proof.
  unfold find. rewrite len_app. pose proof (len_nonneg pre). pose proof (len_nonneg s).
  destruct (Z.ltb_spec (len pre + len s) (len pre)); [lia|].
  rewrite norm_index_id by lia. unfold len at 1.
  rewrite Nat2Z.id, skipn_app, skipn_all, Nat.sub_diag. reflexivity.
Qed.

Lemma find_from_nil_miss d i : d <> [] -> find_from d [] i = -1.
Proof. intros H. destruct d; [congruence | reflexivity]. Qed.

Lemma prefixb_false_nonempty d (s : str) : prefixb d s = false -> d <> [].
Proof. intros H ->. discriminate. Qed.

Lemma scan_delimiter_unfold gas text d max_length pos best :
  scan_delimiter (S gas) text d max_length pos best
  = if pos <? len text then
      if find text d pos =? -1 then best
      else if find text d pos + len d <=? max_length
           then scan_delimiter gas text d max_length (find text d pos + 1)
                  (Some (find text d pos + len d))
           else best
    else best.
Proof. reflexivity. Qed.

(** The inner loop for one variant is the loop "keep the last end within
    the limit, stop at the first one beyond" over that variant's
    occurrences. *)
Lemma scan_delimiter_occurrences d max_length :
  forall s pre gas best,
    (length s <= gas)%nat ->
    scan_delimiter gas (pre ++ s) d max_length (len pre) best
    = para_best (occurrence_ends d s (len pre)) max_length best.
Proof.
  induction s as [|c s IH]; intros pre gas best Hg.
  - rewrite app_nil_r. cbn [occurrence_ends para_best].
    destruct gas as [|gas]; [reflexivity|]. cbn [scan_delimiter].
    destruct (Z.ltb_spec (len pre) (len pre)); [lia | reflexivity].
  - destruct gas as [|gas]; [simpl in Hg; lia|]. simpl in Hg.
    assert (Hpos : 0 <= len pre) by apply len_nonneg.
    assert (Hnext : forall best',
               scan_delimiter gas (pre ++ c :: s) d max_length (len pre + 1) best'
               = para_best (occurrence_ends d s (len pre + 1)) max_length best').
    { intros best'. specialize (IH (pre ++ [c]) gas best' ltac:(lia)).
      rewrite <- app_assoc, len_app in IH. exact IH. }
    cbn [scan_delimiter occurrence_ends].
    rewrite (len_app pre (c :: s)), len_cons.
    destruct (Z.ltb_spec (len pre) (len pre + (len s + 1)));
      [|pose proof (len_nonneg s); lia].
    rewrite find_at_suffix. cbn [find_from].
    destruct (prefixb d (c :: s)) eqn:P.
    + destruct (Z.eqb_spec (len pre) (-1)); [lia|].
      cbn [app para_best].
      destruct (len pre + len d <=? max_length); [|reflexivity].
      rewrite Hnext. reflexivity.
    + cbn [app]. rewrite <- (Hnext best).
      pose proof (prefixb_false_nonempty d _ P) as Hd.
      destruct (find_from_range d s (len pre + 1)) as [F|F].
      * rewrite F. change (-1 =? -1) with true. cbv iota.
        destruct gas as [|gas']; [reflexivity|].
        rewrite (scan_delimiter_unfold gas' (pre ++ c :: s) d max_length
                   (len pre + 1) best).
        destruct (len pre + 1 <? len (pre ++ c :: s)); [|reflexivity].
        replace (pre ++ c :: s) with ((pre ++ [c]) ++ s) at 1
          by (rewrite <- app_assoc; reflexivity).
        replace (len pre + 1) with (len (pre ++ [c]))
          by (rewrite len_app; reflexivity).
        rewrite find_at_suffix.
        replace (len (pre ++ [c])) with (len pre + 1) by (rewrite len_app; reflexivity).
        rewrite F. reflexivity.
      * destruct (Z.eqb_spec (find_from d s (len pre + 1)) (-1)); [lia|].
        destruct s as [|c' s'] eqn:Es.
        { rewrite find_from_nil_miss in F by exact Hd. lia. }
        rewrite <- Es in *. assert (Hs : (1 <= length s)%nat) by (rewrite Es; simpl; lia).
        destruct gas as [|gas']; [lia|].
        rewrite (scan_delimiter_unfold gas' (pre ++ c :: s) d max_length
                   (len pre + 1) best).
        rewrite (len_app pre (c :: s)), len_cons.
        destruct (Z.ltb_spec (len pre + 1) (len pre + (len s + 1)));
          [|unfold len in *; lia].
        assert (Ef : find (pre ++ c :: s) d (len pre + 1)
                     = find_from d s (len pre + 1)).
        { replace (pre ++ c :: s) with ((pre ++ [c]) ++ s)
            by (rewrite <- app_assoc; reflexivity).
          replace (len pre + 1) with (len (pre ++ [c]))
            by (rewrite len_app; reflexivity).
          apply find_at_suffix. }
        rewrite Ef.
        destruct (Z.eqb_spec (find_from d s (len pre + 1)) (-1)); [lia|].
        destruct (find_from d s (len pre + 1) + len d <=? max_length); [|reflexivity].
        apply scan_delimiter_gas.
        -- lia.
        -- rewrite len_app, len_cons. unfold len in *. lia.
        -- rewrite len_app, len_cons. unfold len in *. lia.
Qed.

Lemma para_best_some ends max_length x :
  exists y, para_best ends max_length (Some x) = Some y.
Proof.
  revert x. induction ends as [|e ends IH]; intros x; [exists x; reflexivity|].
  cbn [para_best]. destruct (e <=? max_length); [apply IH | exists x; reflexivity].
Qed.

Lemma para_best_carry ends max_length best :
  para_best ends max_length best
  = match para_best ends max_length None with
    | Some e => Some e
    | None => best
    end.
Proof.
  destruct ends as [|e ends]; [reflexivity|]. cbn [para_best].
  destruct (e <=? max_length); [|reflexivity].
  destruct (para_best_some ends max_length e) as [y ->]. reflexivity.
Qed.

Lemma rightmost_fold_beyond max_length (ends : list Z) best :
  (forall e, In e ends -> max_length < e) ->
  fold_left
    (fun best e =>
       if e <=? max_length then
         match best with
         | Some b => Some (Z.max b e)
         | None => Some e
         end
       else best) ends best = best.
Proof.
  revert best. induction ends as [|x ends IH]; intros best H; [reflexivity|].
  cbn [fold_left]. destruct (Z.leb_spec x max_length) as [L|L].
  - specialize (H x (or_introl eq_refl)). lia.
  - apply IH. intros e He. apply H. right. exact He.
Qed.

(** On increasing positions the maximum within the limit is what the loop
    with its early exit ends on. *)
Lemma rightmost_fold_sorted max_length :
  forall ends best,
    StronglySorted Z.lt ends ->
    (forall b e, best = Some b -> In e ends -> b < e) ->
    fold_left
      (fun best e =>
         if e <=? max_length then
           match best with
           | Some b => Some (Z.max b e)
           | None => Some e
           end
         else best) ends best
    = para_best ends max_length best.
Proof.
  induction ends as [|x ends IH]; intros best Hs Hb; [reflexivity|].
  inversion Hs as [|? ? Hs' Hx]; subst. rewrite Forall_forall in Hx.
  cbn [fold_left para_best]. destruct (Z.leb_spec x max_length) as [L|L].
  - assert (E : match best with Some b => Some (Z.max b x) | None => Some x end = Some x).
    { destruct best as [b|]; [|reflexivity].
      specialize (Hb b x eq_refl (or_introl eq_refl)). f_equal. lia. }
    rewrite E. apply IH; [exact Hs'|]. intros b e [= <-] He. apply Hx, He.
  - apply rightmost_fold_beyond. intros e He. specialize (Hx e He). lia.
Qed.

Lemma rightmost_boundary_single d text max_length :
  rightmost_boundary [d] text max_length
  = para_best (occurrence_ends d text 0) max_length None.
Proof.
  unfold rightmost_boundary. cbn [flat_map]. rewrite app_nil_r.
  apply rightmost_fold_sorted; [apply occurrence_ends_sorted | discriminate].
Qed.

Lemma scan_delimiter_last_variant text max_length best d :
  scan_delimiter (length text) text d max_length 0 best
  = last_variant_wins text max_length best d.
Proof.
  unfold last_variant_wins. rewrite rightmost_boundary_single.
  rewrite <- para_best_carry.
  exact (scan_delimiter_occurrences d max_length text [] (length text) best
           (Nat.le_refl _)).
Qed.

(** X9.  What the sentence and clause tiers compute: for a single delimiter
    variant the scan finds exactly its rightmost occurrence ending within
    the limit; over a list of variants the answer is that of the last
    variant in the list that has such an occurrence, whatever the earlier
    variants found. *)
Theorem delimiter_scan_last_variant_wins :
  forall delimiters input max_length,
    scan_delimiters delimiters input max_length
    = fold_left (last_variant_wins input max_length) delimiters None
    /\ (forall d,
           scan_delimiters [d] input max_length
           = rightmost_boundary [d] input max_length)
    /\ (forall ds d e,
           rightmost_boundary [d] input max_length = Some e ->
           scan_delimiters (ds ++ [d]) input max_length = Some e).
Proof.
  intros delimiters input max_length.
  assert (G : forall ds best,
             fold_left
               (fun best_split delimiter =>
                  scan_delimiter (length input) input delimiter max_length 0 best_split)
               ds best
             = fold_left (last_variant_wins input max_length) ds best).
  { induction ds as [|d ds IH]; intros best; [reflexivity|].
    cbn [fold_left]. rewrite scan_delimiter_last_variant. apply IH. }
  split; [apply G|]. split.
  - intros d. unfold scan_delimiters. rewrite G. cbn [fold_left].
    unfold last_variant_wins. destruct (rightmost_boundary [d] input max_length);
      reflexivity.
  - intros ds d e He. unfold scan_delimiters. rewrite G, fold_left_app.
    cbn [fold_left]. unfold last_variant_wins at 1. rewrite He. reflexivity.
Qed.

Lemma prefixb_space_nth (s : str) k :
  prefixb [SPACE] (skipn k s) = true <-> nth_error s k = Some SPACE.
Proof.
  revert k. induction s as [|c s IH]; intros k.
  - rewrite skipn_nil. destruct k; simpl; split; discriminate.
  - destruct k as [|k]; [|apply IH].
    cbn [skipn prefixb nth_error]. rewrite andb_true_r. split.
    + intros H. apply N.eqb_eq in H. congruence.
    + intros [= ->]. apply N.eqb_refl.
Qed.

(** No occurrence that ends within the stop lies to the right of the
    answer of [rfind]. *)
Lemma rfind_from_max sub :
  forall s i stop best j,
    i <= j ->
    prefixb sub (skipn (Z.to_nat (j - i)) s) = true ->
    j - i <= len s ->
    j + len sub <= stop ->
    j <= rfind_from sub s i stop best.
Proof.
  induction s as [|c s IH]; intros i stop best j Hij Hp Hl Hs.
  - rewrite len_nil in Hl. assert (j = i) by lia. subst j.
    rewrite skipn_nil in Hp. cbn [rfind_from]. rewrite Hp.
    destruct (Z.leb_spec (i + len sub) stop); [cbn [andb]; lia | lia].
  - cbn [rfind_from]. destruct (Z.eq_dec j i) as [->|Hne].
    + rewrite Z.sub_diag in Hp. cbn [Z.to_nat skipn] in Hp. rewrite Hp.
      destruct (Z.leb_spec (i + len sub) stop); [|lia]. cbn [andb].
      destruct (rfind_from_inv sub s (i + 1) stop i) as [R|[R _]]; lia.
    + apply IH; [lia | | rewrite len_cons in Hl; lia | exact Hs].
      replace (Z.to_nat (j - i)) with (S (Z.to_nat (j - (i + 1)))) in Hp by lia.
      exact Hp.
Qed.

(** X10.  The word tier, on a text longer than a non-negative limit, cuts
    at the last space character whose index is below the limit: the
    character at the cut is a space and no space lies between the cut and
    the limit.  Only when none of the first [max_length] characters is a
    space does it cut at [max_length] itself, possibly inside a word.
    Other whitespace (tabs, newlines) is not a place to cut. *)
Theorem word_tier_cuts_at_last_space :
  forall input max_length overlap_chars,
    0 <= max_length -> max_length < len input ->
    (rfind input [SPACE] 0 max_length <> -1 ->
     0 <= rfind input [SPACE] 0 max_length < max_length
     /\ nth_error input (Z.to_nat (rfind input [SPACE] 0 max_length)) = Some SPACE
     /\ (forall j, rfind input [SPACE] 0 max_length < j < max_length ->
                   nth_error input (Z.to_nat j) <> Some SPACE)
     /\ _split_at_words input max_length overlap_chars
        = split_pair input (rfind input [SPACE] 0 max_length) overlap_chars)
    /\ (rfind input [SPACE] 0 max_length = -1 ->
        (forall j, 0 <= j < max_length -> nth_error input (Z.to_nat j) <> Some SPACE)
        /\ _split_at_words input max_length overlap_chars
           = split_pair input max_length overlap_chars).
Proof.
  intros input max_length overlap_chars Hm Hl.
  assert (Hw : _split_at_words input max_length overlap_chars
               = split_pair input
                   (if rfind input [SPACE] 0 max_length =? -1 then max_length
                    else rfind input [SPACE] 0 max_length) overlap_chars).
  { unfold _split_at_words.
    destruct (Z.leb_spec (len input) max_length); [lia | reflexivity]. }
  assert (Hr : rfind input [SPACE] 0 max_length
               = rfind_from [SPACE] input 0 max_length (-1)).
  { unfold rfind. rewrite (norm_index_id (len input) 0) by lia.
    rewrite (norm_index_id (len input) max_length) by lia. reflexivity. }
  assert (Hmax : forall j, 0 <= j < max_length ->
                           nth_error input (Z.to_nat j) = Some SPACE ->
                           j <= rfind input [SPACE] 0 max_length).
  { intros j Hj Hn. rewrite Hr. apply rfind_from_max.
    - lia.
    - rewrite Z.sub_0_r. apply prefixb_space_nth, Hn.
    - lia.
    - change (len [SPACE]) with 1. lia. }
  split.
  - intros Hne.
    destruct (rfind_from_inv [SPACE] input 0 max_length (-1)) as [H|[H1 [H2 H3]]];
      [rewrite <- Hr in H; contradiction|].
    rewrite <- Hr in *. change (len [SPACE]) with 1 in H2.
    rewrite Z.sub_0_r in H3. apply prefixb_space_nth in H3.
    split; [lia|]. split; [exact H3|]. split.
    + intros j Hj Hn. specialize (Hmax j ltac:(lia) Hn). lia.
    + rewrite Hw. destruct (Z.eqb_spec (rfind input [SPACE] 0 max_length) (-1));
        [contradiction | reflexivity].
  - intros He. split.
    + intros j Hj Hn. specialize (Hmax j Hj Hn). lia.
    + rewrite Hw, He. reflexivity.
Qed.

Lemma word_tier_cuts_at_last_space_witness :
  0 <= 7 /\ 7 < len (lit "ab cd efgh")
  /\ ((rfind (lit "ab cd efgh") [SPACE] 0 7 <> -1 ->
       0 <= rfind (lit "ab cd efgh") [SPACE] 0 7 < 7
       /\ nth_error (lit "ab cd efgh") (Z.to_nat (rfind (lit "ab cd efgh") [SPACE] 0 7))
          = Some SPACE
       /\ (forall j, rfind (lit "ab cd efgh") [SPACE] 0 7 < j < 7 ->
                     nth_error (lit "ab cd efgh") (Z.to_nat j) <> Some SPACE)
       /\ _split_at_words (lit "ab cd efgh") 7 0
          = split_pair (lit "ab cd efgh") (rfind (lit "ab cd efgh") [SPACE] 0 7) 0)
      /\ (rfind (lit "ab cd efgh") [SPACE] 0 7 = -1 ->
          (forall j, 0 <= j < 7 ->
                     nth_error (lit "ab cd efgh") (Z.to_nat j) <> Some SPACE)
          /\ _split_at_words (lit "ab cd efgh") 7 0
             = split_pair (lit "ab cd efgh") 7 0)).
Proof.
  split; [lia|]. split; [reflexivity|].
  apply (word_tier_cuts_at_last_space (lit "ab cd efgh") 7 0); [lia | reflexivity].
Defined.

(** ** The streaming splitter with a negative chunk size *)

Lemma py_range_negative_step stop step :
  0 <= stop -> step < 0 -> py_range 0 stop step = Some [].
Proof.
  intros Hs Hn. unfold py_range.
  destruct (Z.eqb_spec step 0); [lia|]. destruct (Z.ltb_spec 0 step); [lia|].
  assert ((0 - stop - step - 1) / - step < 1) by (apply Z.div_lt_upper_bound; lia).
  replace (Z.to_nat ((0 - stop - step - 1) / - step)) with 0%nat by lia.
  reflexivity.
Qed.

Lemma split_words_fold_negative max_length (words : list str) :
  max_length < 0 ->
  fold_left (split_words_step max_length) words (Some ([], [])) = Some ([], []).
Proof.
  intros Hm. induction words as [|w words IH]; [reflexivity|].
  cbn [fold_left]. unfold split_words_step at 2. cbn [bind].
  pose proof (len_nonneg w) as Hw. rewrite len_nil.
  destruct (Z.leb_spec (0 + len w + 1) max_length); [lia|].
  destruct (Z.ltb_spec max_length (len w)); [|lia].
  rewrite (py_range_negative_step (len w) max_length Hw Hm). exact IH.
Qed.

Lemma split_by_words_negative text max_length :
  max_length < 0 -> _split_by_words text max_length = Some [].
Proof.
  intros Hm. unfold _split_by_words.
  rewrite (split_words_fold_negative max_length (split_ws text) Hm). reflexivity.
Qed.

Lemma words_fallback_negative max_length (chunks : list str) :
  max_length < 0 -> words_fallback chunks max_length [] = Some [].
Proof.
  intros Hm. induction chunks as [|c chunks IH]; [reflexivity|].
  cbn [words_fallback]. pose proof (len_nonneg c).
  destruct (Z.leb_spec (len c) max_length); [lia|].
  rewrite (split_by_words_negative c max_length Hm). exact IH.
Qed.

Lemma split_long_sentence_negative sentence max_length :
  max_length < 0 -> _split_long_sentence sentence max_length = Some [].
Proof.
  intros Hm. unfold _split_long_sentence.
  rewrite (words_fallback_negative max_length _ Hm). reflexivity.
Qed.

Lemma sentences_fold_negative max_length (sentences : list str) :
  max_length < 0 ->
  fold_left (sentences_step max_length) sentences (Some ([], [])) = Some ([], []).
Proof.
  intros Hm. induction sentences as [|x sentences IH]; [reflexivity|].
  cbn [fold_left]. unfold sentences_step at 2. cbn [bind].
  destruct (truthy (strip x)); cbn [negb]; [|exact IH].
  pose proof (len_nonneg (strip x)). rewrite len_nil.
  destruct (Z.leb_spec (0 + len (strip x) + 1) max_length); [lia|].
  destruct (Z.ltb_spec max_length (len (strip x))); [|lia].
  rewrite (split_long_sentence_negative (strip x) max_length Hm). exact IH.
Qed.

Lemma split_by_sentences_negative text max_length :
  max_length < 0 -> _split_by_sentences text max_length = Some [].
Proof.
  intros Hm. unfold _split_by_sentences.
  rewrite (sentences_fold_negative max_length _ Hm). reflexivity.
Qed.

Lemma paragraphs_fold_negative max_length (paragraphs : list str) :
  max_length < 0 ->
  fold_left (paragraphs_step max_length) paragraphs (Some ([], [])) = Some ([], []).
Proof.
  intros Hm. induction paragraphs as [|x paragraphs IH]; [reflexivity|].
  cbn [fold_left]. unfold paragraphs_step at 2. cbn [bind].
  destruct (truthy (strip x)); cbn [negb]; [|exact IH].
  pose proof (len_nonneg (strip x)). rewrite len_nil.
  destruct (Z.leb_spec (0 + len (strip x) + 2) max_length); [lia|].
  destruct (Z.ltb_spec max_length (len (strip x))); [|lia].
  rewrite (split_by_sentences_negative (strip x) max_length Hm). exact IH.
Qed.

(** X11.  A negative chunk size silently loses the whole text: whatever the
    text, the strategy and the preset, [split_text_for_streaming] returns
    the empty list (no strategy finds room for a single character, and the
    character slices of an over-long word run over an empty range). *)
Theorem streaming_negative_chunk_size :
  forall input chunk_size st q,
    chunk_size < 0 ->
    split_text_for_streaming input (Some chunk_size) st q = Some [].
Proof.
  intros input n st q Hn. unfold split_text_for_streaming.
  pose proof (apply_quality_size n st q ltac:(lia)) as Hq.
  destruct (apply_quality (Some n) st q) as [cs st']. cbn [fst] in Hq. rewrite Hq.
  assert (Hs : _split_by_sentences input n = Some [])
    by (apply split_by_sentences_negative, Hn).
  destruct (str_eqb _ (lit "paragraph")).
  { unfold _split_by_paragraphs.
    rewrite (paragraphs_fold_negative n _ Hn). reflexivity. }
  destruct (str_eqb _ (lit "sentence")); [exact Hs|].
  destruct (str_eqb _ (lit "word")); [apply split_by_words_negative, Hn|].
  destruct (str_eqb _ (lit "fixed")); [|exact Hs].
  unfold _split_by_fixed_size.
  rewrite (py_range_negative_step (len input) n (len_nonneg _) Hn). reflexivity.
Qed.

Lemma streaming_negative_chunk_size_witness :
  -3 < 0
  /\ split_text_for_streaming (lit "ab cd ef") (Some (-3)) (Some (lit "word")) None
     = Some [].
Proof.
  split; [reflexivity|].
  apply (streaming_negative_chunk_size (lit "ab cd ef") (-3) (Some (lit "word")) None).
  reflexivity.
Defined.

(** ** Strategies of the streaming splitter that lose nothing *)

Lemma apply_quality_strategy cs (s : str) q d :
  s <> [] -> str_or (snd (apply_quality cs (Some s) q)) d = s.
Proof.
  intros Hs. unfold apply_quality.
  assert (E : forall d', str_or (Some s) d' = s)
    by (intros d'; apply str_or_some_nonempty, Hs).
  assert (E' : forall d' d'', str_or (Some (str_or (Some s) d')) d'' = s).
  { intros d' d''. rewrite (E d'). apply E. }
  destruct (negb (truthy (str_or q []))); [apply E|].
  destruct (str_eqb _ (lit "fast")); [apply E'|].
  destruct (str_eqb _ (lit "balanced")); [apply E'|].
  destruct (str_eqb _ (lit "high")); [apply E' | apply E].
Qed.

(** X12.  With a positive chunk size the "word" and "fixed" strategies of
    the streaming splitter lose nothing: whatever the preset, their chunks,
    read one after the other, spell exactly the visible characters of the
    text (the sentence and paragraph strategies only guarantee a
    subsequence, since they leave out the delimiter at which they break a
    long sentence). *)
Theorem streaming_word_and_fixed_lossless :
  forall input chunk_size q,
    0 < chunk_size ->
    (exists chunks,
        split_text_for_streaming input (Some chunk_size) (Some (lit "word")) q
        = Some chunks
        /\ nows (concat chunks) = nows input)
    /\ (exists chunks,
           split_text_for_streaming input (Some chunk_size) (Some (lit "fixed")) q
           = Some chunks
           /\ nows (concat chunks) = nows input).
Proof.
  intros input n q Hn. split.
  - destruct (split_by_words_ok input n Hn) as [out [H1 [_ H3]]].
    exists out. split; [|exact H3]. unfold split_text_for_streaming.
    pose proof (apply_quality_size n (Some (lit "word")) q ltac:(lia)) as Hq.
    pose proof (apply_quality_strategy (Some n) (lit "word") q (lit "sentence")
                  ltac:(discriminate)) as Hs.
    destruct (apply_quality (Some n) (Some (lit "word")) q) as [cs st'].
    cbn [fst snd] in Hq, Hs. rewrite Hq, Hs. exact H1.
  - destruct (split_by_fixed_size_ok input n Hn) as [out [H1 [_ H3]]].
    exists out. split; [|exact H3]. unfold split_text_for_streaming.
    pose proof (apply_quality_size n (Some (lit "fixed")) q ltac:(lia)) as Hq.
    pose proof (apply_quality_strategy (Some n) (lit "fixed") q (lit "sentence")
                  ltac:(discriminate)) as Hs.
    destruct (apply_quality (Some n) (Some (lit "fixed")) q) as [cs st'].
    cbn [fst snd] in Hq, Hs. rewrite Hq, Hs. exact H1.
Qed.

Lemma streaming_word_and_fixed_lossless_witness :
  0 < 4
  /\ ((exists chunks,
          split_text_for_streaming (lit "ab, cd and efghij") (Some 4)
            (Some (lit "word")) None = Some chunks
          /\ nows (concat chunks) = nows (lit "ab, cd and efghij"))
      /\ (exists chunks,
             split_text_for_streaming (lit "ab, cd and efghij") (Some 4)
               (Some (lit "fixed")) None = Some chunks
             /\ nows (concat chunks) = nows (lit "ab, cd and efghij"))).
Proof.
  split; [reflexivity|].
  apply (streaming_word_and_fixed_lossless (lit "ab, cd and efghij") 4 None).
  reflexivity.
Defined.

(** ** The legacy splitter *)

Lemma find_from_fits d s :
  forall i, find_from d s i <> -1 ->
            i <= find_from d s i /\ find_from d s i + len d <= i + len s.
Proof.
  induction s as [|c s IH]; intros i H; cbn [find_from] in *.
  - destruct d as [|x d]; [|simpl in H; congruence].
    simpl. rewrite !len_nil. lia.
  - destruct (prefixb d (c :: s)) eqn:P.
    + pose proof (prefixb_length _ _ P) as L. unfold len. simpl length in *. lia.
    + destruct (IH (i + 1) H) as [H1 H2]. rewrite len_cons. lia.
Qed.

Lemma legacy_best_split_range (temp_text : str) :
  legacy_best_split temp_text = len temp_text
  \/ (1 <= legacy_best_split temp_text < len temp_text).
Proof.
  unfold legacy_best_split.
  assert (G : forall endings best,
             Forall (fun e : str => 1 <= len e) endings ->
             (best = len temp_text \/ 1 <= best < len temp_text) ->
             let r := fold_left
                        (fun best_split ending =>
                           let pos := find temp_text ending 0 in
                           if negb (pos =? -1) && (pos <? best_split)
                           then pos + len ending else best_split)
                        endings best in
             r = len temp_text \/ 1 <= r < len temp_text).
  { induction endings as [|e endings IH]; intros best He Hb; [exact Hb|].
    inversion He as [|? ? He1 He2]; subst. cbn [fold_left]. apply IH; [exact He2|].
    cbv zeta.
    destruct (Z.eqb_spec (find temp_text e 0) (-1)) as [E|E]; cbn [negb andb];
      [exact Hb|].
    destruct (Z.ltb_spec (find temp_text e 0) best); [|exact Hb].
    assert (F : find temp_text e 0 = find_from e temp_text 0).
    { exact (find_at_suffix [] temp_text e). }
    rewrite F in *. destruct (find_from_fits e temp_text 0 E) as [F1 F2]. lia. }
  apply G; [|left; reflexivity].
  repeat constructor; vm_compute; discriminate.
Qed.

(** The sentence cutter only cuts: its pieces concatenate to the text, and
    as many passes as the text has characters are enough. *)
Lemma legacy_sentences_concat :
  forall gas temp_text sentences,
    (length temp_text <= gas)%nat ->
    concat (legacy_sentences gas temp_text sentences) = concat sentences ++ temp_text.
Proof.
  induction gas as [|gas IH]; intros t acc Hg.
  - destruct t; [|simpl in Hg; lia]. simpl. rewrite app_nil_r. reflexivity.
  - cbn [legacy_sentences]. destruct t as [|c t'] eqn:Et.
    { simpl. rewrite app_nil_r. reflexivity. }
    rewrite <- Et in *. replace (truthy t) with true by (rewrite Et; reflexivity).
    cbn [negb]. cbv zeta.
    destruct (Z.eqb_spec (legacy_best_split t) (len t)) as [E|E].
    + rewrite concat_app. simpl. rewrite app_nil_r. reflexivity.
    + destruct (legacy_best_split_range t) as [R|R]; [contradiction|].
      rewrite IH.
      * rewrite concat_app. simpl. rewrite app_nil_r, <- app_assoc, slice_to_from.
        reflexivity.
      * pose proof (len_slice_from t (legacy_best_split t) ltac:(lia)) as L.
        unfold len in *. lia.
Qed.

Lemma within_or_word_le m (c : str) : len c <= m -> within_or_word m c.
Proof. intros H. left. lia. Qed.

Lemma legacy_words_fold m :
  forall (words : list str) chunks cwc,
    Forall wordlike words ->
    Forall (within_or_word m) chunks ->
    (len cwc <= m \/ nows cwc = cwc) ->
    exists chunks' cwc',
      fold_left (legacy_words_step m) words (chunks, cwc) = (chunks', cwc')
      /\ Forall (within_or_word m) chunks'
      /\ (len cwc' <= m \/ nows cwc' = cwc')
      /\ nows (concat chunks') ++ nows cwc'
         = nows (concat chunks) ++ nows cwc ++ concat words.
Proof.
  induction words as [|w words IH]; intros chunks cwc Hw Hc Hk.
  - exists chunks, cwc. simpl. rewrite app_nil_r. auto.
  - inversion Hw as [|? ? [Hw1 Hw2] Hws]; subst.
    cbn [fold_left]. unfold legacy_words_step at 2.
    destruct (Z.leb_spec (len cwc + len w + 1) m) as [L|L].
    + destruct (IH chunks (cwc ++ (if truthy cwc then [SPACE] else []) ++ w) Hws Hc)
        as [c' [k' [H1 [H2 [H3 H4]]]]].
      { left. rewrite !len_app. destruct (truthy cwc);
          [change (len [SPACE]) with 1 | rewrite len_nil]; lia. }
      exists c', k'. split; [exact H1|]. split; [exact H2|]. split; [exact H3|].
      rewrite H4, !nows_app, Hw2. simpl concat.
      destruct (truthy cwc); simpl; rewrite <- !app_assoc; reflexivity.
    + destruct (IH (if truthy cwc then chunks ++ [cwc] else chunks) w Hws)
        as [c' [k' [H1 [H2 [H3 H4]]]]].
      { destruct (truthy cwc); [|exact Hc].
        apply Forall_app. split; [exact Hc|]. constructor; [|constructor].
        destruct Hk as [Hk|Hk]; [left; lia | right; exact Hk]. }
      { right. exact Hw2. }
      exists c', k'. split; [exact H1|]. split; [exact H2|]. split; [exact H3|].
      rewrite H4, Hw2. simpl concat. destruct (truthy cwc) eqn:T.
      * rewrite nows_concat_app. simpl. rewrite app_nil_r, <- !app_assoc. reflexivity.
      * apply truthy_false in T. subst cwc. reflexivity.
Qed.

Lemma legacy_sub_chunk_ok m chunks sub_chunk :
  Forall (within_or_word m) chunks ->
  Forall (within_or_word m) (legacy_sub_chunk m chunks sub_chunk)
  /\ nows (concat (legacy_sub_chunk m chunks sub_chunk))
     = nows (concat chunks) ++ nows sub_chunk.
Proof.
  intros Hc. unfold legacy_sub_chunk.
  destruct (Z.leb_spec (len sub_chunk) m) as [L|L].
  - split.
    + apply Forall_app. split; [exact Hc|]. constructor; [|constructor].
      left. pose proof (len_strip sub_chunk). lia.
    + rewrite nows_concat_app. simpl. rewrite app_nil_r, nows_strip. reflexivity.
  - destruct (legacy_words_fold m (split_ws sub_chunk) chunks []
                (split_ws_wordlike sub_chunk) Hc ltac:(right; reflexivity))
      as [c' [k' [H1 [H2 [H3 H4]]]]].
    rewrite H1. simpl in H4. rewrite split_ws_concat in H4.
    destruct (truthy k') eqn:T.
    + split.
      * apply Forall_app. split; [exact H2|]. constructor; [|constructor].
        destruct H3 as [H3|H3]; [left; lia | right; exact H3].
      * rewrite nows_concat_app. simpl. rewrite app_nil_r. exact H4.
    + apply truthy_false in T. subst k'. simpl in H4. rewrite app_nil_r in H4.
      split; [exact H2 | exact H4].
Qed.

Lemma legacy_sub_chunks_ok m :
  forall (subs : list str) chunks,
    Forall (within_or_word m) chunks ->
    Forall (within_or_word m) (fold_left (legacy_sub_chunk m) subs chunks)
    /\ nows (concat (fold_left (legacy_sub_chunk m) subs chunks))
       = nows (concat chunks) ++ nows (concat subs).
Proof.
  induction subs as [|x subs IH]; intros chunks Hc.
  - simpl. rewrite app_nil_r. auto.
  - cbn [fold_left]. destruct (legacy_sub_chunk_ok m chunks x Hc) as [A B].
    destruct (IH _ A) as [C D]. split; [exact C|].
    rewrite D, B. simpl. rewrite nows_app, <- app_assoc. reflexivity.
Qed.

Lemma legacy_sub_delimiters_nonempty :
  Forall (fun d : str => d <> []) legacy_sub_delimiters.
Proof. repeat constructor; discriminate. Qed.

Lemma flush_within_or_word m chunks cc :
  Forall (within_or_word m) chunks -> (cc = [] \/ len cc <= m + 1) ->
  Forall (within_or_word m) (flush (chunks, cc)).
Proof.
  intros Hc Hk. unfold flush. destruct (truthy cc) eqn:T; [|exact Hc].
  apply Forall_app. split; [exact Hc|]. constructor; [|constructor].
  destruct Hk as [->|Hk]; [discriminate|]. left. pose proof (len_strip cc). lia.
Qed.

Lemma legacy_sentences_fold m :
  forall (sentences : list str) chunks cc,
    Forall (within_or_word m) chunks -> (cc = [] \/ len cc <= m + 1) ->
    exists chunks' cc',
      fold_left (legacy_sentence_step m) sentences (chunks, cc) = (chunks', cc')
      /\ Forall (within_or_word m) chunks'
      /\ (cc' = [] \/ len cc' <= m + 1)
      /\ subseq (nows (concat chunks') ++ nows cc')
                (nows (concat chunks) ++ nows cc ++ nows (concat sentences)).
Proof.
  induction sentences as [|x sentences IH]; intros chunks cc Hc Hk.
  - exists chunks, cc. simpl. rewrite app_nil_r. split; [reflexivity|].
    split; [exact Hc|]. split; [exact Hk | apply subseq_refl].
  - cbn [fold_left].
    assert (G : forall chunks1 cc1,
               Forall (within_or_word m) chunks1 ->
               (cc1 = [] \/ len cc1 <= m + 1) ->
               subseq (nows (concat chunks1) ++ nows cc1)
                      (nows (concat chunks) ++ nows cc ++ nows x) ->
               exists chunks' cc',
                 fold_left (legacy_sentence_step m) sentences (chunks1, cc1)
                 = (chunks', cc')
                 /\ Forall (within_or_word m) chunks'
                 /\ (cc' = [] \/ len cc' <= m + 1)
                 /\ subseq (nows (concat chunks') ++ nows cc')
                           (nows (concat chunks) ++ nows cc
                              ++ nows (concat (x :: sentences)))).
    { intros chunks1 cc1 A1 A2 A3.
      destruct (IH chunks1 cc1 A1 A2) as [c' [k' [H1 [H2 [H3 H4]]]]].
      exists c', k'. split; [exact H1|]. split; [exact H2|]. split; [exact H3|].
      eapply subseq_trans; [exact H4|].
      simpl concat. rewrite (nows_app x).
      replace (nows (concat chunks) ++ nows cc ++ nows x ++ nows (concat sentences))
        with ((nows (concat chunks) ++ nows cc ++ nows x) ++ nows (concat sentences))
        by (rewrite <- !app_assoc; reflexivity).
      rewrite (app_assoc (nows (concat chunks1))).
      apply subseq_app; [exact A3 | apply subseq_refl]. }
    unfold legacy_sentence_step at 2. cbv zeta.
    destruct (truthy (strip x)) eqn:T; cbn [negb].
    2:{ apply G; [exact Hc | exact Hk|].
        rewrite (nows_blank x T), app_nil_r. apply subseq_refl. }
    destruct (Z.leb_spec (len cc + len (strip x)) m) as [L|L].
    { apply G; [exact Hc | |].
      - right. rewrite !len_app. destruct (truthy cc);
          [change (len [SPACE]) with 1 | rewrite len_nil]; lia.
      - apply subseq_app; [apply subseq_refl|]. apply subseq_eq.
        rewrite !nows_app, nows_strip. destruct (truthy cc); reflexivity. }
    destruct (Z.ltb_spec m (len (strip x))) as [B|B].
    + set (subs := fold_left _ legacy_sub_delimiters [strip x]).
      assert (Hs : subseq (concat subs) (strip x)).
      { pose proof (delimiters_fold m legacy_sub_delimiters [strip x]
                      legacy_sub_delimiters_nonempty) as H.
        simpl concat in H at 2. rewrite app_nil_r in H. exact H. }
      destruct (legacy_sub_chunks_ok m subs (flush (chunks, cc))
                  (flush_within_or_word m chunks cc Hc Hk)) as [A1 A2].
      apply G; [exact A1 | left; reflexivity|].
      replace (nows []) with (@nil char) by reflexivity.
      rewrite app_nil_r.
      refine (eq_ind_r (fun z => subseq z _) _ A2).
      rewrite flush_nows, <- app_assoc.
      apply subseq_app; [apply subseq_refl|].
      apply subseq_app; [apply subseq_refl|].
      rewrite <- (nows_strip x). apply subseq_nows, Hs.
    + apply G; [apply flush_within_or_word; assumption | right; lia|].
      rewrite flush_nows, nows_strip, <- app_assoc. apply subseq_refl.
Qed.

Lemma final_filter_forall (P : str -> Prop) chunks :
  Forall P chunks -> Forall P (final_filter chunks).
Proof.
  induction 1 as [|c chunks Hc _ IH]; [constructor|].
  unfold final_filter in *. simpl. destruct (truthy (strip c)); [|exact IH].
  constructor; assumption.
Qed.

Lemma final_filter_nonblank chunks :
  Forall (fun c => nonblank c = true) (final_filter chunks).
Proof.
  induction chunks as [|c chunks IH]; [constructor|].
  unfold final_filter in *. simpl. destruct (truthy (strip c)) eqn:T; [|exact IH].
  constructor; assumption.
Qed.

(** X13.  The legacy splitter [split_text_into_chunks] returns a text that
    fits as its single chunk, untouched.  Otherwise every chunk is non-empty
    after trimming and either a single word (free of whitespace, however
    long) or at most [max_length + 1] characters long: the space that joins
    two sentences is not counted against the limit.  The chunks spell, in
    order, a subsequence of the visible characters of the text. *)
Theorem legacy_chunks_within_or_word :
  forall cfg input m,
    Forall (within_or_word m) (split_text_into_chunks cfg input (Some m))
    /\ subseq (nows (concat (split_text_into_chunks cfg input (Some m))))
              (nows input)
    /\ (len input <= m -> split_text_into_chunks cfg input (Some m) = [input])
    /\ (m < len input ->
        Forall (fun c => nonblank c = true)
               (split_text_into_chunks cfg input (Some m)))
    /\ split_text_into_chunks cfg input None
       = split_text_into_chunks cfg input (Some (MAX_CHUNK_LENGTH cfg)).
Proof.
  intros cfg input m. unfold split_text_into_chunks.
  destruct (Z.leb_spec (len input) m) as [L|L].
  - split; [constructor; [left; lia | constructor]|].
    split; [simpl; rewrite app_nil_r; apply subseq_refl|].
    split; [reflexivity|]. split; [lia | reflexivity].
  - destruct (legacy_sentences_fold m (legacy_sentences (length input) input [])
                [] [] ltac:(constructor) ltac:(left; reflexivity))
      as [c' [k' [H1 [H2 [H3 H4]]]]].
    rewrite H1. simpl in H4.
    rewrite (legacy_sentences_concat (length input) input [] (Nat.le_refl _)) in H4.
    simpl in H4.
    split; [apply final_filter_forall, flush_within_or_word; assumption|].
    split; [rewrite final_filter_nows, flush_nows; exact H4|].
    split; [lia|]. split; [intros _; apply final_filter_nonblank | reflexivity].
Qed.

(** The bound [max_length + 1] is reached: two sentences of 5 and 6
    characters are joined into a chunk of 12 under limit 11. *)
Example legacy_chunk_one_over :
  split_text_into_chunks sample_config (lit "aaaa. bbbbb. c") (Some 11)
  = [lit "aaaa. bbbbb."; lit "c"].
Proof. vm_compute. reflexivity. Qed.

(** ** A single over-long word in the legacy splitter *)

Lemma nows_length (s : str) : (length (nows s) <= length s)%nat.
Proof. apply filter_length_le. Qed.

Lemma nows_id_forall (s : str) :
  nows s = s -> Forall (fun c => isspace c = false) s.
Proof.
  induction s as [|c s IH]; intros H; [constructor|].
  destruct (isspace c) eqn:E.
  - rewrite (nows_cons_space c s E) in H.
    pose proof (nows_length s) as L. rewrite H in L. simpl in L. lia.
  - rewrite (nows_cons_visible c s E) in H. injection H as H.
    constructor; [exact E | apply IH, H].
Qed.

Lemma prefixb_In d (s : str) x : prefixb d s = true -> In x d -> In x s.
Proof.
  revert s. induction d as [|a d IH]; intros s P Hx; [contradiction|].
  destruct s as [|b s]; [discriminate|]. cbn [prefixb] in P.
  apply andb_prop in P. destruct P as [P1 P2]. apply N.eqb_eq in P1. subst b.
  destruct Hx as [->|Hx]; [left; reflexivity | right; apply IH; assumption].
Qed.

(** A delimiter that contains whitespace does not occur in a text that has
    none. *)
Lemma prefixb_visible d (s : str) :
  existsb isspace d = true -> Forall (fun c => isspace c = false) s ->
  prefixb d s = false.
Proof.
  intros Hd Hs. destruct (prefixb d s) eqn:P; [|reflexivity].
  apply existsb_exists in Hd. destruct Hd as [x [Hx Hsp]].
  rewrite Forall_forall in Hs. specialize (Hs x (prefixb_In d s x P Hx)).
  congruence.
Qed.

Lemma find_from_visible d (s : str) i :
  existsb isspace d = true -> Forall (fun c => isspace c = false) s ->
  find_from d s i = -1.
Proof.
  intros Hd. revert i. induction s as [|c s IH]; intros i Hs; cbn [find_from].
  - rewrite (prefixb_visible d [] Hd Hs). reflexivity.
  - rewrite (prefixb_visible d (c :: s) Hd Hs). apply IH.
    inversion Hs; assumption.
Qed.

Lemma split_on_aux_visible d (s : str) :
  existsb isspace d = true ->
  forall cur, Forall (fun c => isspace c = false) s ->
              split_on_aux d s 0 cur = [rev cur ++ s].
Proof.
  intros Hd. induction s as [|c s IH]; intros cur Hs.
  - simpl. rewrite app_nil_r. reflexivity.
  - cbn [split_on_aux]. rewrite (prefixb_visible d (c :: s) Hd Hs).
    rewrite IH by (inversion Hs; assumption).
    simpl. rewrite <- app_assoc. reflexivity.
Qed.

Lemma split_ws_aux_visible (s : str) :
  forall cur, Forall (fun c => isspace c = false) s ->
              truthy (rev cur ++ s) = true ->
              split_ws_aux s cur = [rev cur ++ s].
Proof.
  induction s as [|c s IH]; intros cur Hs Ht.
  - rewrite app_nil_r in *. cbn [split_ws_aux].
    destruct cur; [discriminate | reflexivity].
  - inversion Hs as [|? ? Hc Hs']; subst. cbn [split_ws_aux]. rewrite Hc.
    rewrite IH; [simpl; rewrite <- app_assoc; reflexivity | exact Hs'|].
    simpl. rewrite <- app_assoc. exact Ht.
Qed.

Lemma visible_strip (s : str) : Forall (fun c => isspace c = false) s -> strip s = s.
Proof.
  intros Hs. unfold strip.
  assert (L : forall t : str, Forall (fun c => isspace c = false) t -> lstrip t = t).
  { intros t Ht. apply lstrip_id. destruct Ht; [exact I | assumption]. }
  rewrite (L s Hs). unfold rstrip. rewrite L by (apply Forall_rev, Hs).
  apply rev_involutive.
Qed.

Lemma legacy_best_split_visible (t : str) :
  Forall (fun c => isspace c = false) t -> legacy_best_split t = len t.
Proof.
  intros Ht. unfold legacy_best_split.
  assert (G : forall endings best,
             Forall (fun e => existsb isspace e = true) endings ->
             fold_left
               (fun best_split ending =>
                  let pos := find t ending 0 in
                  if negb (pos =? -1) && (pos <? best_split)
                  then pos + len ending else best_split)
               endings best = best).
  { induction endings as [|e endings IH]; intros best He; [reflexivity|].
    inversion He as [|? ? He1 He2]; subst. cbn [fold_left]. cbv zeta.
    replace (find t e 0) with (find_from e t 0)
      by (symmetry; exact (find_at_suffix [] t e)).
    rewrite (find_from_visible e t 0 He1 Ht). cbn [Z.eqb negb andb].
    apply IH, He2. }
  apply G. repeat constructor.
Qed.

Lemma resplit_visible d m (t : str) :
  existsb isspace d = true -> Forall (fun c => isspace c = false) t ->
  t <> [] -> m < len t ->
  fold_left (resplit d m) [t] [] = [t].
Proof.
  intros Hd Ht Hne Hm. cbn [fold_left]. unfold resplit.
  destruct (Z.leb_spec (len t) m); [lia|].
  unfold split_on. rewrite (split_on_aux_visible d t Hd [] Ht).
  cbn [rev app fold_left]. unfold parts_step.
  pose proof (len_nonneg d). rewrite len_nil.
  destruct (Z.leb_spec (0 + len d + len t) m); [lia|].
  cbn [truthy]. destruct t; [congruence | reflexivity].
Qed.

Lemma resplit_all_visible m (t : str) :
  Forall (fun c => isspace c = false) t -> t <> [] -> m < len t ->
  forall ds,
    Forall (fun d => existsb isspace d = true) ds ->
    fold_left
      (fun sub_chunks delimiter => fold_left (resplit delimiter m) sub_chunks [])
      ds [t] = [t].
Proof.
  intros Ht Hne Hm. induction ds as [|d ds IH]; intros Hd; [reflexivity|].
  inversion Hd as [|? ? Hd1 Hd2]; subst.
  change (fold_left
            (fun sub_chunks delimiter =>
               fold_left (resplit delimiter m) sub_chunks []) (d :: ds) [t])
    with (fold_left
            (fun sub_chunks delimiter =>
               fold_left (resplit delimiter m) sub_chunks [])
            ds (fold_left (resplit d m) [t] [])).
  rewrite (resplit_visible d m t Hd1 Ht Hne Hm). apply IH, Hd2.
Qed.

(** X14.  The legacy splitter keeps an over-long single word whole: a
    non-empty text without whitespace that is longer than the limit comes
    back as its only chunk, while [chunk_text] under the same positive
    limit returns chunks none of which is the word. *)
Theorem legacy_long_word_kept_whole :
  forall cfg input m st,
    input <> [] -> nows input = input -> m < len input ->
    split_text_into_chunks cfg input (Some m) = [input]
    /\ (0 < m ->
        exists chunks,
          chunk_text cfg input st (Some m) = Some chunks /\ ~ In input chunks).
Proof.
  intros cfg input m st Hne Hv Hm.
  pose proof (nows_id_forall input Hv) as Hvis.
  pose proof (visible_strip input Hvis) as Hstrip.
  assert (Ht : truthy input = true) by (apply truthy_true, Hne).
  split.
  - unfold split_text_into_chunks.
    destruct (Z.leb_spec (len input) m); [lia|].
    assert (Hsent : legacy_sentences (length input) input [] = [input]).
    { destruct input as [|c t] eqn:E; [congruence|]. rewrite <- E in *.
      replace (length input) with (S (length t)) by (rewrite E; reflexivity).
      cbn [legacy_sentences]. rewrite Ht. cbn [negb]. cbv zeta.
      rewrite (legacy_best_split_visible input Hvis), Z.eqb_refl. reflexivity. }
    rewrite Hsent. cbn [fold_left]. unfold legacy_sentence_step.
    rewrite Hstrip, Ht. cbn [negb]. rewrite len_nil.
    destruct (Z.leb_spec (0 + len input) m); [lia|].
    destruct (Z.ltb_spec m (len input)); [|lia].
    assert (Hsub : fold_left
                     (fun sub_chunks delimiter =>
                        fold_left (resplit delimiter m) sub_chunks [])
                     legacy_sub_delimiters [input] = [input]).
    { apply resplit_all_visible; try assumption. repeat constructor. }
    match goal with
    | |- context [fold_left (legacy_sub_chunk m) ?x _] =>
        replace x with [input] by (symmetry; exact Hsub)
    end.
    cbn [fold_left flush truthy]. unfold legacy_sub_chunk.
    destruct (Z.leb_spec (len input) m); [lia|].
    unfold split_ws. rewrite (split_ws_aux_visible input [] Hvis Ht).
    cbn [rev app fold_left]. unfold legacy_words_step. rewrite len_nil.
    destruct (Z.leb_spec (0 + len input + 1) m); [lia|].
    cbn [truthy]. rewrite Ht. cbn [app].
    unfold final_filter. cbn [filter]. rewrite Hstrip, Ht. reflexivity.
  - intros Hpos.
    destruct (chunk_text_ok cfg input st (Some m)) as [out [H1 [H2 _]]].
    { rewrite resolved_max_some by exact Hpos. lia. }
    exists out. split; [exact H1|]. intros Hin.
    rewrite resolved_max_some in H2 by exact Hpos.
    pose proof (effective_max_pos cfg m ltac:(lia)) as He.
    rewrite Forall_forall in H2. destruct (H2 input Hin) as [Hlen _]. lia.
Qed.

Lemma legacy_long_word_kept_whole_witness :
  lit "abcdefgh" <> [] /\ nows (lit "abcdefgh") = lit "abcdefgh"
  /\ 3 < len (lit "abcdefgh")
  /\ (split_text_into_chunks sample_config (lit "abcdefgh") (Some 3) = [lit "abcdefgh"]
      /\ (0 < 3 ->
          exists chunks,
            chunk_text sample_config (lit "abcdefgh") None (Some 3) = Some chunks
            /\ ~ In (lit "abcdefgh") chunks)).
Proof.
  split; [discriminate|]. split; [reflexivity|]. split; [reflexivity|].
  apply (legacy_long_word_kept_whole sample_config (lit "abcdefgh") 3 None);
    [discriminate | reflexivity | reflexivity].
Defined.

(** ** Texts that fit *)

Lemma chunk_hierarchical_fits (t : str) m :
  strip t = t -> t <> [] -> len t <= m -> _chunk_hierarchical t m = Some [t].
Proof.
  intros Ht Hne Hl. unfold _chunk_hierarchical, _chunk_hierarchical_fuel. rewrite Ht.
  destruct t as [|c t'] eqn:E; [congruence|]. rewrite <- E in *.
  replace (length t) with (S (length t')) by (rewrite E; reflexivity).
  cbn [hierarchical_loop].
  replace (truthy t) with true by (rewrite E; reflexivity). cbn [negb].
  unfold hierarchical_step.
  destruct (Z.leb_spec (len t) m); [|lia].
  cbn [app option_map filter]. rewrite E. reflexivity.
Qed.

Lemma fixed_windows_fits (t : str) m :
  t <> [] -> len t <= m -> fixed_windows t m = Some [t].
Proof.
  intros Hne Hl.
  assert (Hp : 0 < len t) by (apply truthy_len, truthy_true, Hne).
  rewrite fixed_windows_eq by lia.
  replace ((len t + m - 1) / m) with 1.
  - change (Z.to_nat 1) with 1%nat. cbn [seq map]. rewrite Nat.mul_0_r. cbn [skipn].
    rewrite firstn_all2 by (unfold len in *; lia). reflexivity.
  - apply (Z.div_unique _ _ _ (len t - 1)); lia.
Qed.

Lemma fitting_text_chunk cfg input st ml :
  0 < resolved_max cfg ml ->
  nonblank input = true ->
  len (strip input) <= effective_max_of cfg (resolved_max cfg ml) ->
  lower (str_or st (lit "sentence")) <> lit "paragraph" ->
  lower (str_or st (lit "sentence")) <> lit "word" ->
  chunk_text cfg input st ml = Some [strip input].
Proof.
  intros Hr Hn Hl Hp Hw. unfold chunk_text.
  assert (Hc : truthy (strip input) = true) by exact Hn.
  rewrite Hc. cbn [negb].
  rewrite (str_eqb_neq _ _ Hp), (str_eqb_neq _ _ Hw).
  destruct (str_eqb _ (lit "fixed")).
  - rewrite (fixed_windows_fits (strip input) _ (proj1 (truthy_true _) Hc) Hl).
    cbn [bind filter map]. rewrite strip_idem, Hc. cbn [map].
    rewrite strip_idem. reflexivity.
  - apply chunk_hierarchical_fits;
      [apply strip_idem | apply truthy_true, Hc | exact Hl].
Qed.

(** X15.  A text that fits comes back as one chunk: when the trimmed text
    is not blank and not longer than the effective limit, the fixed strategy
    and the default (hierarchical) strategy of [chunk_text] return exactly
    the trimmed text as their only chunk. *)
Theorem fitting_text_single_chunk :
  forall cfg input st max_length,
    0 < resolved_max cfg max_length ->
    nonblank input = true ->
    len (strip input) <= effective_max_of cfg (resolved_max cfg max_length) ->
    lower (str_or st (lit "sentence")) <> lit "paragraph" ->
    lower (str_or st (lit "sentence")) <> lit "word" ->
    chunk_text cfg input st max_length = Some [strip input].
Proof. exact fitting_text_chunk. Qed.

Lemma fitting_text_single_chunk_witness :
  0 < resolved_max sample_config (Some 20)
  /\ nonblank (lit "  hello   world ") = true
  /\ len (strip (lit "  hello   world "))
     <= effective_max_of sample_config (resolved_max sample_config (Some 20))
  /\ lower (str_or (Some (lit "fixed")) (lit "sentence")) <> lit "paragraph"
  /\ lower (str_or (Some (lit "fixed")) (lit "sentence")) <> lit "word"
  /\ chunk_text sample_config (lit "  hello   world ") (Some (lit "fixed")) (Some 20)
     = Some [strip (lit "  hello   world ")].
Proof.
  split; [reflexivity|]. split; [reflexivity|].
  split; [vm_compute; discriminate|].
  split; [vm_compute; discriminate|]. split; [vm_compute; discriminate|].
  apply (fitting_text_single_chunk sample_config (lit "  hello   world ")
           (Some (lit "fixed")) (Some 20));
    [reflexivity | reflexivity | vm_compute; discriminate
     | vm_compute; discriminate | vm_compute; discriminate].
Defined.

(** X16.  Chunking is stable: every chunk that [chunk_text] returns for a
    positive limit, under any strategy, is returned unchanged as the single
    chunk when it is itself chunked again with the same limit under the
    fixed or the default strategy. *)
Theorem rechunking_a_chunk_is_identity :
  forall cfg input st st' max_length,
    0 < max_length ->
    lower (str_or st' (lit "sentence")) <> lit "paragraph" ->
    lower (str_or st' (lit "sentence")) <> lit "word" ->
    exists chunks,
      chunk_text cfg input st (Some max_length) = Some chunks
      /\ Forall (fun c => chunk_text cfg c st' (Some max_length) = Some [c]) chunks.
Proof.
  intros cfg input st st' m Hm Hp Hw.
  destruct (chunk_text_ok cfg input st (Some m)) as [out [H1 [H2 _]]].
  { rewrite resolved_max_some by exact Hm. lia. }
  exists out. split; [exact H1|].
  eapply Forall_impl; [|exact H2]. intros c [Hl [Hne Hs]].
  rewrite <- Hs at 2.
  apply fitting_text_chunk.
  - rewrite resolved_max_some by exact Hm. exact Hm.
  - unfold nonblank. rewrite Hs. apply truthy_true, Hne.
  - rewrite Hs. exact Hl.
  - exact Hp.
  - exact Hw.
Qed.

Lemma rechunking_a_chunk_is_identity_witness :
  0 < 10
  /\ lower (str_or None (lit "sentence")) <> lit "paragraph"
  /\ lower (str_or None (lit "sentence")) <> lit "word"
  /\ exists chunks,
      chunk_text sample_config (lit "hello world, this is a test") (Some (lit "word"))
        (Some 10) = Some chunks
      /\ Forall (fun c => chunk_text sample_config c None (Some 10) = Some [c]) chunks.
Proof.
  split; [reflexivity|].
  split; [vm_compute; discriminate|]. split; [vm_compute; discriminate|].
  apply (rechunking_a_chunk_is_identity sample_config
           (lit "hello world, this is a test") (Some (lit "word")) None 10);
    [reflexivity | vm_compute; discriminate | vm_compute; discriminate].
Defined.

(** ** The two fixed-size splitters *)

Lemma strip_filter_commute (l : list str) :
  map strip (filter (fun chunk => truthy (strip chunk)) l)
  = filter truthy (map strip l).
Proof.
  induction l as [|x l IH]; [reflexivity|].
  simpl. destruct (truthy (strip x)); simpl; rewrite IH; reflexivity.
Qed.

(** X17.  The fixed strategy of [chunk_text] is the streaming splitter's
    fixed strategy run on the trimmed text with the effective limit: for a
    positive limit both return the same chunks. *)
Theorem fixed_strategies_agree :
  forall cfg input max_length,
    0 < max_length ->
    chunk_text cfg input (Some (lit "fixed")) (Some max_length)
    = _split_by_fixed_size (strip input) (effective_max_of cfg max_length)
    /\ chunk_text cfg input (Some (lit "fixed")) (Some max_length)
       = split_text_for_streaming (strip input)
           (Some (effective_max_of cfg max_length)) (Some (lit "fixed")) None.
Proof.
  intros cfg input m Hm.
  pose proof (effective_max_pos cfg m ltac:(lia)) as He.
  assert (A : chunk_text cfg input (Some (lit "fixed")) (Some m)
              = _split_by_fixed_size (strip input) (effective_max_of cfg m)).
  { unfold chunk_text, _split_by_fixed_size, fixed_windows.
    rewrite resolved_max_some by exact Hm.
    replace (str_eqb (lower (str_or (Some (lit "fixed")) (lit "sentence")))
                     (lit "fixed")) with true by reflexivity.
    destruct (truthy (strip input)) eqn:T; cbn [negb].
    - rewrite py_range_pos by lia. cbn [bind].
      rewrite strip_filter_commute, map_map. reflexivity.
    - apply truthy_false in T. rewrite T, py_range_pos by lia.
      replace ((len (@nil char) + effective_max_of cfg m - 1) / effective_max_of cfg m)
        with 0; [reflexivity|].
      symmetry. apply Z.div_small. unfold len. cbn [length Z.of_nat]. lia. }
  split; [exact A|]. rewrite A.
  unfold split_text_for_streaming.
  change (apply_quality (Some (effective_max_of cfg m)) (Some (lit "fixed")) None)
    with (Some (effective_max_of cfg m), Some (lit "fixed")).
  cbv beta iota zeta. rewrite int_or_some_nonzero by lia. reflexivity.
Qed.

Lemma fixed_strategies_agree_witness :
  0 < 4
  /\ (chunk_text sample_config (lit " ab cdefg hi ") (Some (lit "fixed")) (Some 4)
      = _split_by_fixed_size (strip (lit " ab cdefg hi "))
          (effective_max_of sample_config 4)
      /\ chunk_text sample_config (lit " ab cdefg hi ") (Some (lit "fixed")) (Some 4)
         = split_text_for_streaming (strip (lit " ab cdefg hi "))
             (Some (effective_max_of sample_config 4)) (Some (lit "fixed")) None).
Proof.
  split; [reflexivity|].
  apply (fixed_strategies_agree sample_config (lit " ab cdefg hi ") 4). reflexivity.
Defined.

(** ** Where the sentence and clause tiers cut *)

Lemma occurrence_ends_prefix d s :
  forall i e,
    In e (occurrence_ends d s i) ->
    exists k, e = i + Z.of_nat k + len d /\ prefixb d (skipn k s) = true
              /\ (k < length s)%nat.
Proof.
  induction s as [|c s IH]; intros i e H; [contradiction|].
  cbn [occurrence_ends] in H. apply in_app_or in H. destruct H as [H|H].
  - destruct (prefixb d (c :: s)) eqn:P; [|contradiction].
    destruct H as [<-|[]]. exists 0%nat.
    split; [lia|]. split; [exact P | cbn [length]; lia].
  - destruct (IH _ _ H) as [k [Hk [Pk Lk]]]. exists (S k).
    split; [lia|]. split; [exact Pk | cbn [length]; lia].
Qed.

Lemma firstn_occurrence d (s : str) k :
  prefixb d (skipn k s) = true ->
  s = firstn k s ++ d ++ skipn (k + length d) s
  /\ firstn (k + length d) s = firstn k s ++ d.
Proof.
  intros P. pose proof (prefixb_app _ _ P) as E.
  rewrite skipn_skipn in E. rewrite (Nat.add_comm (length d) k) in E.
  assert (S1 : s = firstn k s ++ d ++ skipn (k + length d) s).
  { rewrite <- E. symmetry. apply firstn_skipn. }
  split; [exact S1|].
  destruct d as [|a d'].
  - rewrite Nat.add_0_r, app_nil_r. reflexivity.
  - assert (Hk : (k <= length s)%nat).
    { destruct (Nat.le_gt_cases k (length s)) as [L|G]; [exact L|].
      rewrite skipn_all2 in P by lia. discriminate. }
    rewrite S1 at 1.
    replace k with (length (firstn k s)) at 1 by (apply firstn_length_le, Hk).
    rewrite firstn_app_2.
    replace (length (a :: d')) with (length (a :: d') + 0)%nat by lia.
    rewrite firstn_app_2. cbn [firstn]. rewrite app_nil_r. reflexivity.
Qed.

Lemma last_variant_fold_origin text max_length :
  forall ds best b,
    fold_left (last_variant_wins text max_length) ds best = Some b ->
    best = Some b
    \/ exists d, In d ds /\ rightmost_boundary [d] text max_length = Some b.
Proof.
  induction ds as [|d ds IH]; intros best b H; [left; exact H|].
  cbn [fold_left] in H. apply IH in H. destruct H as [H|[d' [Hin Hd']]].
  - unfold last_variant_wins in H.
    destruct (rightmost_boundary [d] text max_length) as [e|] eqn:R.
    + right. exists d. split; [left; reflexivity|]. rewrite R. exact H.
    + left. exact H.
  - right. exists d'. split; [right; exact Hin | exact Hd'].
Qed.

Lemma tier_cut_after_delimiter ds (text : str) max_length num den b :
  admissible (scan_delimiters ds text max_length) max_length num den = Some b ->
  exists x d r,
    In d ds /\ text = x ++ d ++ r /\ slice_to text b = x ++ d
    /\ b = len (x ++ d) /\ b <= max_length /\ num * max_length < den * b.
Proof.
  intros H. apply admissible_inv in H. destruct H as [Hs [Hb0 Hr]].
  assert (G : scan_delimiters ds text max_length
              = fold_left (last_variant_wins text max_length) ds None).
  { clear. unfold scan_delimiters. generalize (@None Z).
    induction ds as [|d ds IH]; intros best; [reflexivity|].
    cbn [fold_left]. rewrite scan_delimiter_last_variant. apply IH. }
  rewrite G in Hs. apply last_variant_fold_origin in Hs.
  destruct Hs as [Hs|[d [Hin Hd]]]; [discriminate|].
  rewrite rightmost_boundary_single in Hd.
  apply para_best_sorted in Hd; [|apply occurrence_ends_sorted].
  destruct Hd as [[Hd _]|[Hd [Hle _]]]; [discriminate|].
  apply occurrence_ends_prefix in Hd. destruct Hd as [k [Hk [Pk Lk]]].
  destruct (firstn_occurrence _ _ _ Pk) as [S1 S2].
  assert (Hlen : (k + length d <= length text)%nat).
  { pose proof (prefixb_length _ _ Pk) as L. rewrite length_skipn in L. lia. }
  exists (firstn k text), d, (skipn (k + length d) text).
  assert (Hb : b = Z.of_nat (k + length d)) by (unfold len in Hk; lia).
  split; [exact Hin|]. split; [exact S1|]. split.
  - rewrite slice_to_firstn by lia. rewrite Hb, Nat2Z.id. exact S2.
  - split; [|split; [exact Hle | exact Hr]].
    rewrite <- S2. unfold len. rewrite firstn_length_le by exact Hlen. exact Hb.
Qed.

Lemma lstrip_keeps_tail (x : str) p z :
  isspace p = false -> exists y, lstrip (x ++ p :: z) = y ++ p :: z.
Proof.
  intros Hp. induction x as [|c x IH].
  - exists []. cbn [app lstrip]. rewrite Hp. reflexivity.
  - cbn [app lstrip]. destruct (isspace c); [exact IH|].
    exists (c :: x). reflexivity.
Qed.

Lemma strip_after_mark (x : str) p q :
  isspace p = false ->
  exists y, strip (x ++ [p; q])
            = if isspace q then y ++ [p] else y ++ [p; q].
Proof.
  intros Hp. destruct (lstrip_keeps_tail x p [q] Hp) as [y Hy].
  exists y. unfold strip. rewrite Hy.
  change (y ++ [p; q]) with (y ++ [p] ++ [q]). rewrite app_assoc.
  rewrite rstrip_snoc. destruct (isspace q); [|rewrite <- app_assoc; reflexivity].
  rewrite rstrip_snoc, Hp. reflexivity.
Qed.

(** X18.  The sentence and the clause tier cut right after a delimiter:
    when either tier answers, the text reads [x ++ d ++ r] with [d] one of
    the tier's delimiter variants, the head is [x ++ d] trimmed, the tail is
    the text from [overlap_chars] before the cut, trimmed, and the cut lies
    within the limit and beyond 0.4 (sentences) or 0.3 (clauses) of it. *)
Theorem tiers_cut_after_delimiter :
  forall input max_length overlap_chars head tail,
    (_try_split_at_sentences input max_length overlap_chars = Some (head, tail) ->
     exists x d r,
       In d sentence_endings /\ input = x ++ d ++ r
       /\ head = strip (x ++ d)
       /\ tail = strip (slice_from input (Z.max 0 (len (x ++ d) - overlap_chars)))
       /\ len (x ++ d) <= max_length /\ 2 * max_length < 5 * len (x ++ d))
    /\ (_try_split_at_clauses input max_length overlap_chars = Some (head, tail) ->
        exists x d r,
          In d clause_delimiters /\ input = x ++ d ++ r
          /\ head = strip (x ++ d)
          /\ tail = strip (slice_from input (Z.max 0 (len (x ++ d) - overlap_chars)))
          /\ len (x ++ d) <= max_length /\ 3 * max_length < 10 * len (x ++ d)).
Proof.
  intros input max_length ov head tail. split.
  - unfold _try_split_at_sentences.
    destruct (admissible _ max_length 2 5) as [b|] eqn:A; [|discriminate].
    intros [= <- <-].
    destruct (tier_cut_after_delimiter _ _ _ _ _ _ A)
      as [x [d [r [Hin [Ht [Hs [Hb [Hle Hr]]]]]]]].
    exists x, d, r. rewrite <- Hb, <- Hs. repeat split; assumption.
  - unfold _try_split_at_clauses.
    destruct (admissible _ max_length 3 10) as [b|] eqn:A; [|discriminate].
    intros [= <- <-].
    destruct (tier_cut_after_delimiter _ _ _ _ _ _ A)
      as [x [d [r [Hin [Ht [Hs [Hb [Hle Hr]]]]]]]].
    exists x, d, r. rewrite <- Hb, <- Hs. repeat split; assumption.
Qed.

Lemma tiers_cut_after_delimiter_witness :
  _try_split_at_sentences (lit "Hello world. This is a test") 15 0
  = Some (lit "Hello world.", lit "This is a test")
  /\ exists x d r,
       In d sentence_endings /\ lit "Hello world. This is a test" = x ++ d ++ r
       /\ lit "Hello world." = strip (x ++ d)
       /\ lit "This is a test"
          = strip (slice_from (lit "Hello world. This is a test")
                     (Z.max 0 (len (x ++ d) - 0)))
       /\ len (x ++ d) <= 15 /\ 2 * 15 < 5 * len (x ++ d).
Proof.
  split; [vm_compute; reflexivity|].
  apply (proj1 (tiers_cut_after_delimiter (lit "Hello world. This is a test") 15 0
                  (lit "Hello world.") (lit "This is a test"))).
  vm_compute. reflexivity.
Defined.

(** X19.  A head produced by the sentence tier ends a sentence: its last
    character is [.], [!] or [?], or that mark followed by a closing double
    or single quote; the head is not longer than the limit. *)
Theorem sentence_tier_head_ends_sentence :
  forall input max_length overlap_chars head tail,
    _try_split_at_sentences input max_length overlap_chars = Some (head, tail) ->
    len head <= max_length
    /\ exists y p,
         In p [46; 33; 63]%N
         /\ (head = y ++ [p] \/ head = y ++ [p; 34%N] \/ head = y ++ [p; 39%N]).
Proof.
  intros input max_length ov head tail H.
  unfold _try_split_at_sentences in H.
  destruct (admissible _ max_length 2 5) as [b|] eqn:A; [|discriminate].
  injection H as <- _.
  destruct (tier_cut_after_delimiter _ _ _ _ _ _ A)
    as [x [d [r [Hin [Ht [Hs [Hb [Hle Hr]]]]]]]].
  split.
  - pose proof (len_strip (slice_to input b)) as L1.
    pose proof (len_slice_to input b ltac:(pose proof (len_nonneg (x ++ d)); lia)) as L2.
    lia.
  - rewrite Hs.
    assert (D : exists p q, d = [p; q] /\ In p [46; 33; 63]%N /\ isspace p = false
                            /\ (isspace q = true
                                \/ (isspace q = false /\ (q = 34%N \/ q = 39%N)))).
    { unfold sentence_endings in Hin. cbn [In lit] in Hin.
      repeat (destruct Hin as [<-|Hin];
              [eexists; eexists; split; [reflexivity|];
               cbn [In]; split; [tauto|]; split; [reflexivity|];
               first [left; reflexivity
                     | right; split; [reflexivity | tauto]] |]).
      contradiction. }
    destruct D as [p [q [-> [Hp [Hsp Hq]]]]].
    destruct (strip_after_mark x p q Hsp) as [y Hy].
    exists y, p. split; [exact Hp|]. rewrite Hy.
    destruct Hq as [Hq|[Hq [-> | ->]]]; rewrite Hq; tauto.
Qed.

Lemma sentence_tier_head_ends_sentence_witness :
  _try_split_at_sentences (lit "Hello world. This is a test") 15 0
  = Some (lit "Hello world.", lit "This is a test")
  /\ (len (lit "Hello world.") <= 15
      /\ exists y p,
           In p [46; 33; 63]%N
           /\ (lit "Hello world." = y ++ [p] \/ lit "Hello world." = y ++ [p; 34%N]
               \/ lit "Hello world." = y ++ [p; 39%N])).
Proof.
  split; [vm_compute; reflexivity|].
  apply (sentence_tier_head_ends_sentence (lit "Hello world. This is a test") 15 0
           (lit "Hello world.") (lit "This is a test")).
  vm_compute. reflexivity.
Defined.

(** * The effective limit of [chunk_text] *)

(** ** Texts no tier can cut *)

Lemma plain_visible (s : str) :
  forallb plain s = true -> Forall (fun c => isspace c = false) s.
Proof.
  intros H. apply Forall_forall. intros c Hc.
  rewrite forallb_forall in H. specialize (H c Hc). unfold plain in H.
  destruct (isspace c); [discriminate | reflexivity].
Qed.

Lemma plain_firstn n (s : str) : forallb plain s = true -> forallb plain (firstn n s) = true.
Proof.
  intros H. apply forallb_forall. intros c Hc.
  rewrite forallb_forall in H. apply H.
  rewrite <- (firstn_skipn n s). apply in_or_app. left. exact Hc.
Qed.

Lemma plain_skipn n (s : str) : forallb plain s = true -> forallb plain (skipn n s) = true.
Proof.
  intros H. apply forallb_forall. intros c Hc.
  rewrite forallb_forall in H. apply H.
  rewrite <- (firstn_skipn n s). apply in_or_app. right. exact Hc.
Qed.

Lemma plain_strip (s : str) : forallb plain s = true -> strip s = s.
Proof. intros H. apply visible_strip, plain_visible, H. Qed.

(** A delimiter with a whitespace or quote character does not occur in a
    plain text. *)
Lemma prefixb_plain d (s : str) :
  existsb (fun c => negb (plain c)) d = true -> forallb plain s = true ->
  prefixb d s = false.
Proof.
  intros Hd Hs. destruct (prefixb d s) eqn:P; [|reflexivity].
  apply existsb_exists in Hd. destruct Hd as [x [Hx Hn]].
  rewrite forallb_forall in Hs. specialize (Hs x (prefixb_In d s x P Hx)).
  rewrite Hs in Hn. discriminate.
Qed.

Lemma occurrence_ends_plain d (s : str) :
  existsb (fun c => negb (plain c)) d = true -> forallb plain s = true ->
  forall i, occurrence_ends d s i = [].
Proof.
  intros Hd. induction s as [|c s IH]; intros Hs i; [reflexivity|].
  cbn [occurrence_ends]. rewrite (prefixb_plain d (c :: s) Hd Hs).
  apply IH. cbn [forallb] in Hs. apply andb_prop in Hs. apply Hs.
Qed.

Lemma scan_delimiters_plain ds (s : str) max_length :
  forallb (existsb (fun c => negb (plain c))) ds = true ->
  forallb plain s = true ->
  scan_delimiters ds s max_length = None.
Proof.
  intros Hds Hs. unfold scan_delimiters.
  induction ds as [|d ds IH]; [reflexivity|].
  cbn [forallb] in Hds. apply andb_prop in Hds. destruct Hds as [Hd Hds].
  cbn [fold_left]. rewrite scan_delimiter_last_variant.
  unfold last_variant_wins. rewrite rightmost_boundary_single.
  rewrite (occurrence_ends_plain d s Hd Hs). cbn [para_best]. apply IH, Hds.
Qed.

Lemma para_match_visible c (s : str) : isspace c = false -> para_match (c :: s) = None.
Proof.
  intros H. cbn [para_match]. destruct (c =? NL)%N eqn:E; [|reflexivity].
  apply isspace_NL in E. congruence.
Qed.

Lemma para_ends_aux_visible (s : str) :
  Forall (fun c => isspace c = false) s -> forall i, para_ends_aux s i 0 = [].
Proof.
  induction 1 as [|c s Hc _ IH]; intros i; [reflexivity|].
  cbn [para_ends_aux]. rewrite (para_match_visible c s Hc). apply IH.
Qed.

Lemma para_split_aux_visible (s : str) :
  Forall (fun c => isspace c = false) s ->
  forall cur, para_split_aux s 0 cur = [rev cur ++ s].
Proof.
  induction 1 as [|c s Hc _ IH]; intros cur.
  - cbn [para_split_aux]. rewrite app_nil_r. reflexivity.
  - cbn [para_split_aux]. rewrite (para_match_visible c s Hc), IH.
    cbn [rev]. rewrite <- app_assoc. reflexivity.
Qed.

Lemma rfind_from_plain (s : str) :
  forallb plain s = true -> forall i stop, rfind_from [SPACE] s i stop (-1) = -1.
Proof.
  assert (Hd : existsb (fun c => negb (plain c)) [SPACE] = true) by reflexivity.
  induction s as [|c s IH]; intros Hs i stop.
  - reflexivity.
  - cbn [rfind_from]. rewrite (prefixb_plain [SPACE] (c :: s) Hd Hs).
    cbn [andb]. apply IH. cbn [forallb] in Hs. apply andb_prop in Hs. apply Hs.
Qed.

Lemma hierarchical_step_plain (t : str) m :
  forallb plain t = true -> 0 < m -> m < len t ->
  hierarchical_step t m = (firstn (Z.to_nat m) t, Some (skipn (Z.to_nat m) t)).
Proof.
  intros Hp Hm Hl.
  assert (Hlen : (Z.to_nat m < length t)%nat) by (unfold len in Hl; lia).
  unfold hierarchical_step, _find_best_split_point.
  destruct (Z.leb_spec (len t) m); [lia|].
  unfold _try_split_at_paragraphs, para_ends.
  rewrite (para_ends_aux_visible t (plain_visible t Hp)). cbn [truthy negb].
  unfold _try_split_at_sentences.
  rewrite (scan_delimiters_plain sentence_endings t m eq_refl Hp). cbn [admissible].
  unfold _try_split_at_clauses.
  rewrite (scan_delimiters_plain clause_delimiters t m eq_refl Hp). cbn [admissible].
  unfold _split_at_words.
  destruct (Z.leb_spec (len t) m); [lia|].
  unfold rfind. rewrite (rfind_from_plain _ (plain_skipn _ t Hp)).
  change (-1 =? -1) with true. cbv iota. rewrite split_pair_0 by lia.
  rewrite slice_to_firstn by lia. rewrite slice_from_skipn, norm_index_id by lia.
  rewrite (plain_strip _ (plain_firstn _ t Hp)), (plain_strip _ (plain_skipn _ t Hp)).
  destruct (firstn (Z.to_nat m) t) eqn:F; [|reflexivity].
  exfalso. apply (f_equal (@length _)) in F. rewrite length_firstn in F.
  cbn [length] in F. lia.
Qed.

(** ** Windows of a plain text *)

Lemma fixed_windows_step (t : str) m :
  0 < m -> m < len t ->
  exists rest,
    fixed_windows (skipn (Z.to_nat m) t) m = Some rest
    /\ fixed_windows t m = Some (firstn (Z.to_nat m) t :: rest).
Proof.
  intros Hm Hl. rewrite !fixed_windows_eq by exact Hm.
  eexists. split; [reflexivity|]. f_equal.
  assert (Hs : len (skipn (Z.to_nat m) t) = len t - m).
  { unfold len in *. rewrite length_skipn. lia. }
  rewrite Hs.
  replace ((len t + m - 1) / m) with ((len t - m + m - 1) / m + 1).
  2:{ rewrite <- Z.div_add by lia. f_equal. lia. }
  assert (Hq : 0 <= (len t - m + m - 1) / m) by (apply Z.div_pos; lia).
  rewrite Z2Nat.inj_add by lia. rewrite Nat.add_comm.
  change (Z.to_nat 1) with 1%nat. cbn [Nat.add seq map].
  rewrite Nat.mul_0_r. cbn [skipn]. f_equal.
  rewrite <- seq_shift, map_map. apply map_ext. intros j.
  rewrite skipn_skipn. do 2 f_equal. lia.
Qed.

Lemma fixed_windows_nil m : 0 < m -> fixed_windows [] m = Some [].
Proof.
  intros Hm. rewrite fixed_windows_eq by exact Hm.
  replace ((len (@nil char) + m - 1) / m) with 0; [reflexivity|].
  symmetry. apply Z.div_small. unfold len. cbn [length Z.of_nat]. lia.
Qed.

Lemma hierarchical_loop_plain m :
  0 < m ->
  forall fuel (t : str) acc,
    forallb plain t = true -> (length t <= fuel)%nat ->
    exists ws,
      fixed_windows t m = Some ws
      /\ hierarchical_loop fuel t m acc = Some (acc ++ ws)
      /\ Forall (fun w : str => truthy w = true /\ forallb plain w = true) ws.
Proof.
  intros Hm. induction fuel as [|fuel IH]; intros t acc Hp Hf.
  - destruct t; [|cbn [length] in Hf; lia].
    exists []. split; [apply fixed_windows_nil, Hm|].
    split; [cbn; rewrite app_nil_r; reflexivity | constructor].
  - destruct t as [|c t'] eqn:Et.
    { exists []. split; [apply fixed_windows_nil, Hm|].
      split; [cbn; rewrite app_nil_r; reflexivity | constructor]. }
    rewrite <- Et in *. assert (Hne : t <> []) by (rewrite Et; discriminate).
    cbn [hierarchical_loop].
    replace (truthy t) with true by (rewrite Et; reflexivity). cbn [negb].
    destruct (Z_le_gt_dec (len t) m) as [Hfit|Hlong].
    + exists [t]. split; [apply fixed_windows_fits; assumption|].
      unfold hierarchical_step. destruct (Z.leb_spec (len t) m); [|lia].
      split; [reflexivity|]. constructor; [|constructor].
      split; [rewrite Et; reflexivity | exact Hp].
    + rewrite (hierarchical_step_plain t m Hp Hm ltac:(lia)). cbv iota.
      destruct (fixed_windows_step t m Hm ltac:(lia)) as [rest [R1 R2]].
      destruct (IH (skipn (Z.to_nat m) t) (acc ++ [firstn (Z.to_nat m) t])
                  (plain_skipn _ t Hp)) as [ws [W1 [W2 W3]]].
      { rewrite length_skipn. cbn [length] in Hf |- *. unfold len in Hlong.
        rewrite Et in *. cbn [length] in *. lia. }
      rewrite R1 in W1. injection W1 as <-.
      exists (firstn (Z.to_nat m) t :: rest). split; [exact R2|]. split.
      * refine (eq_trans W2 _). rewrite <- app_assoc. reflexivity.
      * constructor; [|exact W3]. split; [|apply plain_firstn, Hp].
        destruct (firstn (Z.to_nat m) t) eqn:F; [|reflexivity].
        exfalso. apply (f_equal (@length _)) in F. rewrite length_firstn in F.
        unfold len in Hlong. cbn [length] in F. lia.
Qed.

Lemma truthy_plain_keep (ws : list str) :
  Forall (fun w : str => truthy w = true /\ forallb plain w = true) ws ->
  filter truthy ws = ws
  /\ map strip (filter (fun chunk => truthy (strip chunk)) ws) = ws.
Proof.
  induction 1 as [|w ws [Hw Hp] _ [IH1 IH2]]; [split; reflexivity|].
  cbn [filter map]. rewrite (plain_strip w Hp), Hw. cbn [map].
  rewrite (plain_strip w Hp), IH1, IH2. split; reflexivity.
Qed.

Lemma chunk_hierarchical_plain (t : str) m :
  0 < m -> forallb plain t = true -> _chunk_hierarchical t m = fixed_windows t m.
Proof.
  intros Hm Hp. unfold _chunk_hierarchical, _chunk_hierarchical_fuel.
  rewrite (plain_strip t Hp).
  destruct (hierarchical_loop_plain m Hm (length t) t [] Hp (Nat.le_refl _))
    as [ws [W1 [W2 W3]]].
  rewrite W1, W2. cbn [app option_map].
  rewrite (proj1 (truthy_plain_keep ws W3)). reflexivity.
Qed.

Lemma chunk_by_words_plain (t : str) m :
  0 < m -> forallb plain t = true -> t <> [] -> _chunk_by_words t m = fixed_windows t m.
Proof.
  intros Hm Hp Hne. unfold _chunk_by_words, split_ws.
  rewrite (split_ws_aux_visible t [] (plain_visible t Hp))
    by (cbn [rev app]; apply truthy_true, Hne).
  cbn [rev app truthy negb fold_left words_step andb].
  unfold flush_words. cbn [join]. rewrite (plain_strip t Hp).
  replace (truthy t) with true by (symmetry; apply truthy_true, Hne).
  cbn [app refine_chunks].
  destruct (Z.ltb_spec m (len t)).
  - rewrite (chunk_hierarchical_plain t m Hm Hp).
    destruct (fixed_windows t m); reflexivity.
  - symmetry. apply fixed_windows_fits; [exact Hne | lia].
Qed.

Lemma chunk_by_paragraphs_plain (t : str) m :
  0 < m -> forallb plain t = true -> t <> [] ->
  _chunk_by_paragraphs t m = fixed_windows t m.
Proof.
  intros Hm Hp Hne. unfold _chunk_by_paragraphs, para_split.
  rewrite (para_split_aux_visible t (plain_visible t Hp)).
  cbn [rev app filter]. rewrite (plain_strip t Hp).
  replace (truthy t) with true by (symmetry; apply truthy_true, Hne).
  cbn [map]. rewrite (plain_strip t Hp). cbn [truthy negb paragraphs_loop bind].
  replace (truthy t) with true by (symmetry; apply truthy_true, Hne).
  rewrite (chunk_hierarchical_plain t m Hm Hp).
  destruct (fixed_windows t m); reflexivity.
Qed.

Lemma chunk_text_plain cfg (input : str) st ml :
  0 < resolved_max cfg ml -> forallb plain input = true ->
  chunk_text cfg input st ml
  = fixed_windows input (effective_max_of cfg (resolved_max cfg ml)).
Proof.
  intros Hr Hp.
  pose proof (effective_max_pos cfg (resolved_max cfg ml) ltac:(lia)) as He.
  set (m := effective_max_of cfg (resolved_max cfg ml)) in *.
  unfold chunk_text. fold m. rewrite (plain_strip input Hp).
  destruct input as [|c t'] eqn:Ei.
  { cbn [truthy negb]. symmetry. apply fixed_windows_nil. lia. }
  rewrite <- Ei in *. assert (Hne : input <> []) by (rewrite Ei; discriminate).
  replace (truthy input) with true by (symmetry; apply truthy_true, Hne).
  cbn [negb].
  destruct (str_eqb _ (lit "fixed")).
  - destruct (hierarchical_loop_plain m ltac:(lia) (length input) input [] Hp
                (Nat.le_refl _)) as [ws [W1 [_ W3]]].
    rewrite W1. cbn [bind]. rewrite (proj2 (truthy_plain_keep ws W3)). reflexivity.
  - destruct (str_eqb _ (lit "paragraph")).
    + apply chunk_by_paragraphs_plain; [lia | exact Hp | exact Hne].
    + destruct (str_eqb _ (lit "word")).
      * apply chunk_by_words_plain; [lia | exact Hp | exact Hne].
      * apply chunk_hierarchical_plain; [lia | exact Hp].
Qed.

(** ** The limit [chunk_text] works with *)

Lemma effective_max_idem cfg r :
  0 < r -> effective_max_of cfg (effective_max_of cfg r) = effective_max_of cfg r.
Proof.
  intros Hr. unfold effective_max_of.
  destruct (Z.leb_spec (Z.min r (MAX_TOTAL_LENGTH cfg - 100)) 0) as [E|E].
  - destruct (Z.leb_spec (Z.min r (MAX_TOTAL_LENGTH cfg - 100)) 0); [reflexivity | lia].
  - destruct (Z.leb_spec (Z.min (Z.min r (MAX_TOTAL_LENGTH cfg - 100))
                                (MAX_TOTAL_LENGTH cfg - 100)) 0); lia.
Qed.

Lemma effective_max_above_cap cfg r :
  0 < MAX_TOTAL_LENGTH cfg - 100 <= r ->
  effective_max_of cfg r = MAX_TOTAL_LENGTH cfg - 100.
Proof.
  intros Hr. unfold effective_max_of.
  destruct (Z.leb_spec (Z.min r (MAX_TOTAL_LENGTH cfg - 100)) 0); lia.
Qed.

(** [chunk_text] depends on its limit only through the effective one. *)
Lemma chunk_text_same_limit cfg (input : str) st ml1 ml2 :
  effective_max_of cfg (resolved_max cfg ml1) = effective_max_of cfg (resolved_max cfg ml2) ->
  chunk_text cfg input st ml1 = chunk_text cfg input st ml2.
Proof. intros H. unfold chunk_text. cbv zeta. rewrite H. reflexivity. Qed.

Lemma fixed_comprehension_is_split (cleaned : str) m :
  0 < m ->
  (windows <- fixed_windows cleaned m ;;
   Some (map strip (filter (fun chunk => truthy (strip chunk)) windows)))
  = _split_by_fixed_size cleaned m.
Proof.
  intros Hm. unfold fixed_windows, _split_by_fixed_size.
  rewrite py_range_pos by exact Hm. cbn [bind].
  rewrite strip_filter_commute, map_map. reflexivity.
Qed.

(** C10.  [chunk_text] never works with the caller's limit directly.  With
    [requested] the limit after defaulting, every strategy is run on the
    trimmed text with [min(requested, MAX_TOTAL_LENGTH - 100)] when that is
    positive and with [requested] otherwise; asking for [max_length] gives
    the chunks that asking for this capped limit gives, and all requests at
    or above [MAX_TOTAL_LENGTH - 100] give the same chunks.  Every chunk,
    and every record of [split_text_for_long_generation], is bounded by the
    capped limit, and the bound is the one in force: a text without
    whitespace and quotes is cut into windows of exactly that size. *)
Theorem chunk_text_effective_limit :
  forall cfg input strategy max_length,
    0 < resolved_max cfg max_length ->
    chunk_text cfg input strategy max_length
    = chunk_text cfg input strategy
        (Some (capped_limit cfg (resolved_max cfg max_length)))
    /\ (nonblank input = true ->
        chunk_text cfg input strategy max_length
        = let limit := capped_limit cfg (resolved_max cfg max_length) in
          let name := lower (str_or strategy (lit "sentence")) in
          if str_eqb name (lit "fixed")
          then _split_by_fixed_size (strip input) limit
          else if str_eqb name (lit "paragraph")
          then _chunk_by_paragraphs (strip input) limit
          else if str_eqb name (lit "word")
          then _chunk_by_words (strip input) limit
          else _chunk_hierarchical (strip input) limit)
    /\ capped_limit cfg (resolved_max cfg max_length) <= resolved_max cfg max_length
    /\ (0 < MAX_TOTAL_LENGTH cfg - 100 < resolved_max cfg max_length ->
        capped_limit cfg (resolved_max cfg max_length) = MAX_TOTAL_LENGTH cfg - 100)
    /\ (forall other,
          0 < MAX_TOTAL_LENGTH cfg - 100 <= resolved_max cfg max_length ->
          MAX_TOTAL_LENGTH cfg - 100 <= other ->
          chunk_text cfg input strategy (Some other)
          = chunk_text cfg input strategy max_length)
    /\ (exists chunks,
           chunk_text cfg input strategy max_length = Some chunks
           /\ Forall (fun c : str =>
                        len c <= capped_limit cfg (resolved_max cfg max_length))
                     chunks
           /\ (forallb plain input = true ->
               fixed_windows input (capped_limit cfg (resolved_max cfg max_length))
               = Some chunks
               /\ (capped_limit cfg (resolved_max cfg max_length) < len input ->
                   exists rest,
                     chunks
                     = slice_to input (capped_limit cfg (resolved_max cfg max_length))
                       :: rest
                     /\ len (slice_to input
                               (capped_limit cfg (resolved_max cfg max_length)))
                        = capped_limit cfg (resolved_max cfg max_length))))
    /\ (exists records,
           split_text_for_long_generation cfg input max_length strategy = Some records
           /\ Forall (fun r =>
                        character_count r
                        <= capped_limit cfg (resolved_max cfg max_length)
                        /\ character_count r = len (text r))
                     records
           /\ (forallb plain input = true ->
               fixed_windows input (capped_limit cfg (resolved_max cfg max_length))
               = Some (map text records))).
Proof.
  intros cfg input strategy max_length Hr.
  pose proof (effective_max_capped cfg _ Hr) as Hcap.
  pose proof (effective_max_pos cfg (resolved_max cfg max_length) ltac:(lia)) as Hpos.
  set (r := resolved_max cfg max_length) in *.
  set (cap := capped_limit cfg r) in *.
  assert (Hself : effective_max_of cfg (resolved_max cfg (Some cap))
                  = effective_max_of cfg r).
  { rewrite resolved_max_some by lia. rewrite <- Hcap.
    apply effective_max_idem, Hr. }
  split.
  { apply chunk_text_same_limit. fold r. symmetry. exact Hself. }
  split.
  { intros Hn. unfold chunk_text. fold r. rewrite Hcap.
    replace (truthy (strip input)) with true by (symmetry; exact Hn).
    cbv zeta. cbn [negb].
    destruct (str_eqb _ (lit "fixed")); [|reflexivity].
    apply fixed_comprehension_is_split. lia. }
  split; [lia|]. split.
  { intros Hc. unfold cap, capped_limit.
    destruct (0 <? Z.min r (MAX_TOTAL_LENGTH cfg - 100)) eqn:E; lia. }
  split.
  { intros other H1 H2. apply chunk_text_same_limit. fold r.
    rewrite resolved_max_some by lia.
    rewrite (effective_max_above_cap cfg other) by lia.
    rewrite (effective_max_above_cap cfg r) by lia. reflexivity. }
  split.
  - destruct (chunk_text_ok cfg input strategy max_length ltac:(fold r; lia))
      as [out [H1 [H2 _]]].
    exists out. split; [exact H1|]. fold r in H2. rewrite Hcap in H2. split.
    + eapply Forall_impl; [|exact H2]. intros c [Hc _]. exact Hc.
    + intros Hp.
      pose proof (chunk_text_plain cfg input strategy max_length Hr Hp) as Hw.
      fold r in Hw. rewrite Hcap, H1 in Hw. split; [symmetry; exact Hw|].
      intros Hlong.
      destruct (fixed_windows_step input cap ltac:(lia) Hlong) as [rest [_ R2]].
      exists rest. rewrite slice_to_firstn by lia. split.
      * rewrite R2 in Hw. injection Hw as Hw. exact Hw.
      * unfold len in *. rewrite length_firstn. lia.
  - unfold split_text_for_long_generation. fold r.
    set (st := match strategy with
               | Some s => if truthy s then Some s else LONG_TEXT_CHUNKING_STRATEGY cfg
               | None => LONG_TEXT_CHUNKING_STRATEGY cfg
               end).
    assert (Hrr : resolved_max cfg (Some r) = r) by (apply resolved_max_some, Hr).
    destruct (chunk_text_ok cfg input st (Some r) ltac:(rewrite Hrr; lia))
      as [out [H1 [H2 _]]].
    rewrite Hrr, Hcap in H2.
    pose proof (chunk_text_plain cfg input st (Some r)) as Hw.
    rewrite Hrr, Hcap in Hw.
    rewrite H1 in *. cbn [bind]. eexists. split; [reflexivity|]. split.
    + apply enumerate_from_records.
      eapply Forall_impl; [|exact H2]. intros c [Hc _]. exact Hc.
    + intros Hp. rewrite (proj1 (enumerate_from_texts out 0)).
      symmetry. apply Hw; assumption.
Qed.

Lemma chunk_text_effective_limit_witness :
  0 < resolved_max narrow_config (Some 10)
  /\ (chunk_text narrow_config (lit "abcdefghijkl") None (Some 10)
    = chunk_text narrow_config (lit "abcdefghijkl") None
        (Some (capped_limit narrow_config (resolved_max narrow_config (Some 10))))
    /\ (nonblank (lit "abcdefghijkl") = true ->
        chunk_text narrow_config (lit "abcdefghijkl") None (Some 10)
        = let limit := capped_limit narrow_config (resolved_max narrow_config (Some 10)) in
          let name := lower (str_or None (lit "sentence")) in
          if str_eqb name (lit "fixed")
          then _split_by_fixed_size (strip (lit "abcdefghijkl")) limit
          else if str_eqb name (lit "paragraph")
          then _chunk_by_paragraphs (strip (lit "abcdefghijkl")) limit
          else if str_eqb name (lit "word")
          then _chunk_by_words (strip (lit "abcdefghijkl")) limit
          else _chunk_hierarchical (strip (lit "abcdefghijkl")) limit)
    /\ capped_limit narrow_config (resolved_max narrow_config (Some 10)) <= resolved_max narrow_config (Some 10)
    /\ (0 < MAX_TOTAL_LENGTH narrow_config - 100 < resolved_max narrow_config (Some 10) ->
        capped_limit narrow_config (resolved_max narrow_config (Some 10)) = MAX_TOTAL_LENGTH narrow_config - 100)
    /\ (forall other,
          0 < MAX_TOTAL_LENGTH narrow_config - 100 <= resolved_max narrow_config (Some 10) ->
          MAX_TOTAL_LENGTH narrow_config - 100 <= other ->
          chunk_text narrow_config (lit "abcdefghijkl") None (Some other)
          = chunk_text narrow_config (lit "abcdefghijkl") None (Some 10))
    /\ (exists chunks,
           chunk_text narrow_config (lit "abcdefghijkl") None (Some 10) = Some chunks
           /\ Forall (fun c : str =>
                        len c <= capped_limit narrow_config (resolved_max narrow_config (Some 10)))
                     chunks
           /\ (forallb plain (lit "abcdefghijkl") = true ->
               fixed_windows (lit "abcdefghijkl") (capped_limit narrow_config (resolved_max narrow_config (Some 10)))
               = Some chunks
               /\ (capped_limit narrow_config (resolved_max narrow_config (Some 10)) < len (lit "abcdefghijkl") ->
                   exists rest,
                     chunks
                     = slice_to (lit "abcdefghijkl") (capped_limit narrow_config (resolved_max narrow_config (Some 10)))
                       :: rest
                     /\ len (slice_to (lit "abcdefghijkl")
                               (capped_limit narrow_config (resolved_max narrow_config (Some 10))))
                        = capped_limit narrow_config (resolved_max narrow_config (Some 10)))))
    /\ (exists records,
           split_text_for_long_generation narrow_config (lit "abcdefghijkl") (Some 10) None = Some records
           /\ Forall (fun r =>
                        character_count r
                        <= capped_limit narrow_config (resolved_max narrow_config (Some 10))
                        /\ character_count r = len (text r))
                     records
           /\ (forallb plain (lit "abcdefghijkl") = true ->
               fixed_windows (lit "abcdefghijkl") (capped_limit narrow_config (resolved_max narrow_config (Some 10)))
               = Some (map text records)))).
Proof.
  split; [reflexivity|].
  apply (chunk_text_effective_limit narrow_config (lit "abcdefghijkl") None (Some 10)).
  reflexivity.
Defined.

(** The cap at work: the caller asks for ten characters, the chunks have five. *)
Example narrow_limit_example :
  chunk_text narrow_config (lit "abcdefghijkl") None (Some 10)
  = Some [lit "abcde"; lit "fghij"; lit "kl"]
  /\ chunk_text narrow_config (lit "one two three") (Some (lit "word")) (Some 10)
     = Some [lit "one"; lit "two"; lit "three"].
Proof. split; vm_compute; reflexivity. Qed.
